(** * Relay: command-line control of USB HID relay modules

    A shallow embedding of [Relay.cpp] and of the string part of
    [EasyRegistry.cpp], followed by the properties of the alias list and of
    the command dispatcher.

    Strings are lists of single-byte characters.  The regular expressions of
    the program are kept as syntax trees and run by a backtracking matcher
    that returns its matches in the priority order of the ECMAScript grammar
    used by [std::regex]; [regex_match] and [regex_search] pick the first
    one.  Resource limits of the library are not part of the model.

    The Windows registry and the vendor relay driver are outside the
    repository.  The registry is a store holding at most one string (a
    [REG_SZ] value, so without embedded terminator) under the fixed key and
    value name, together with a flag telling whether the key can be created
    and written; the conversion buffers of [EasyRegistry.cpp] bound what a
    read or a write lets through.  Every call of the driver is appended to a
    log.  [main] takes the arguments after the program name, and the name
    printed by the usage text, which the program gets as
    [strip_path(argv[0])]; [strip_path] is embedded on its own.

    The numeric functions of [EasyRegistry.cpp] work on a value of their
    own key and setting: a type code and the data bytes, stored as
    [RegSetValueExW] is given them and read by [RegGetValueW] when the type
    is one of those asked for and the bytes fit the variable. *)

From Stdlib Require Import Ascii String List ZArith Lia Bool Arith.
Import ListNotations.
Open Scope list_scope.
Open Scope char_scope.

Set Implicit Arguments.

(** ** Strings *)

Definition str := list ascii.

(** A string literal of the source. *)
Definition lit (s : string) : str := list_ascii_of_string s.

Definition ascii_in (lo hi c : ascii) : bool :=
  Nat.leb (nat_of_ascii lo) (nat_of_ascii c)
  && Nat.leb (nat_of_ascii c) (nat_of_ascii hi).

(** [::toupper] and [::tolower] in the "C" locale. *)
Definition toupper (c : ascii) : ascii :=
  if ascii_in "a" "z" c then ascii_of_nat (nat_of_ascii c - 32) else c.

Definition tolower (c : ascii) : ascii :=
  if ascii_in "A" "Z" c then ascii_of_nat (nat_of_ascii c + 32) else c.

(** [std::transform(s.begin(), s.end(), s.begin(), ::toupper)] *)
Definition str_toupper (s : str) : str := map toupper s.

Fixpoint str_eqb (a b : str) : bool :=
  match a, b with
  | [], [] => true
  | x :: a', y :: b' => Ascii.eqb x y && str_eqb a' b'
  | _, _ => false
  end.

Definition is_empty (A : Type) (s : list A) : bool :=
  match s with [] => true | _ => false end.

(** ** Regular expressions *)

Module Regex.

(** One member of a bracket expression. *)
Inductive cset_item : Type :=
| One (c : ascii)
| Range (lo hi : ascii).

(** The constructs that occur in the patterns of [Relay.cpp].  Every
    quantifier of the source other than [?] is applied to a bracket
    expression, so [Rep] takes the bracket expression itself. *)
Inductive regex : Type :=
| Eps
| Chr (c : ascii)
| Cls (cs : list cset_item)
| Seq (r1 r2 : regex)
| Alt (r1 r2 : regex)
| Opt (r : regex)
| Rep (cs : list cset_item) (lo : nat) (hi : option nat)
| Grp (r : regex)
| Bol
| Eol.

(** A compiled pattern: the tree and the [regex::icase] flag. *)
Record t : Type := mk { pat : regex; icase : bool }.

Definition item_has (it : cset_item) (c : ascii) : bool :=
  match it with
  | One a => Ascii.eqb a c
  | Range lo hi => ascii_in lo hi c
  end.

Definition cset_has (cs : list cset_item) (c : ascii) : bool :=
  existsb (fun it => item_has it c) cs.

(** Under [icase] a character matches when one of its two cases does. *)
Definition cls_match (ic : bool) (cs : list cset_item) (c : ascii) : bool :=
  cset_has cs c || (ic && (cset_has cs (toupper c) || cset_has cs (tolower c))).

Definition chr_match (ic : bool) (a c : ascii) : bool :=
  cls_match ic [One a] c.

(** One way of matching at the current position: the text consumed, the
    texts of the capture groups in the order of their opening parentheses,
    and the text left. *)
Definition result : Type := (str * list str * str)%type.

Definition hi_dec (hi : option nat) : option nat := option_map pred hi.

Definition hi_open (hi : option nat) : bool :=
  match hi with Some 0 => false | _ => true end.

(** Greedy repetition of a character test: the longest run first. *)
Fixpoint rep (p : ascii -> bool) (lo : nat) (hi : option nat) (s : str)
  : list (str * str) :=
  let stop := if Nat.eqb lo 0 then [([], s)] else [] in
  match s with
  | x :: s' =>
      if p x && hi_open hi
      then map (fun ur => (x :: fst ur, snd ur)) (rep p (pred lo) (hi_dec hi) s')
           ++ stop
      else stop
  | [] => stop
  end.

(** All matches of [r] at the head of [s], best first.  [bol] tells whether
    the position is the beginning of the target. *)
Fixpoint run (ic : bool) (r : regex) (bol : bool) (s : str) : list result :=
  match r with
  | Eps => [([], [], s)]
  | Chr a =>
      match s with
      | x :: s' => if chr_match ic a x then [([x], [], s')] else []
      | [] => []
      end
  | Cls cs =>
      match s with
      | x :: s' => if cls_match ic cs x then [([x], [], s')] else []
      | [] => []
      end
  | Seq r1 r2 =>
      flat_map
        (fun m1 : result =>
           let '(u1, c1, s1) := m1 in
           map (fun m2 : result =>
                  let '(u2, c2, s2) := m2 in (u1 ++ u2, c1 ++ c2, s2))
               (run ic r2 (bol && is_empty u1) s1))
        (run ic r1 bol s)
  | Alt r1 r2 => run ic r1 bol s ++ run ic r2 bol s
  | Opt r1 => run ic r1 bol s ++ [([], [], s)]
  | Rep cs lo hi =>
      map (fun ur : str * str => (fst ur, [], snd ur)) (rep (cls_match ic cs) lo hi s)
  | Grp r1 =>
      map (fun m : result => let '(u, c, s') := m in (u, u :: c, s'))
          (run ic r1 bol s)
  | Bol => if bol then [([], [], s)] else []
  | Eol => match s with [] => [([], [], [])] | _ => [] end
  end.

(** What [std::smatch] holds after a successful call. *)
Record smatch : Type := mk_smatch {
  prefix : str;
  whole : str;
  groups : list str;
  suffix : str
}.

(** [smMatch[i]]: the whole match for 0, else the i-th group. *)
Definition sub (m : smatch) (i : nat) : str :=
  match i with
  | 0 => whole m
  | S j => nth j (groups m) []
  end.

Definition ends_input (m : result) : bool := is_empty (snd m).

(** [std::regex_match]: the whole target has to be consumed. *)
Definition regex_match (s : str) (re : t) : option smatch :=
  match filter ends_input (run (icase re) (pat re) true s) with
  | (u, c, rest) :: _ => Some (mk_smatch [] u c rest)
  | [] => None
  end.

Definition matches (s : str) (re : t) : bool :=
  match regex_match s re with Some _ => true | None => false end.

(** [std::regex_search]: the leftmost position with a match. *)
Fixpoint search_from (re : t) (bol : bool) (pre s : str) : option smatch :=
  match run (icase re) (pat re) bol s with
  | (u, c, rest) :: _ => Some (mk_smatch pre u c rest)
  | [] =>
      match s with
      | [] => None
      | x :: s' => search_from re false (pre ++ [x]) s'
      end
  end.

Definition regex_search (s : str) (re : t) : option smatch :=
  search_from re true [] s.

(** A literal word of a pattern. *)
Fixpoint word (s : str) : regex :=
  match s with
  | [] => Eps
  | [c] => Chr c
  | c :: s' => Seq (Chr c) (word s')
  end.

End Regex.

Import Regex.

(** ** Patterns of [Relay.cpp] *)

Definition A_Z_0_9 : list cset_item := [Range "A" "Z"; Range "0" "9"].

(** [T_SERNUM]: [[A-Z0-9]{5}] *)
Definition T_SERNUM : regex := Rep A_Z_0_9 5 (Some 5).

Definition alias_first : list cset_item :=
  [One "_"; One "#"; One "~"; One "@"; Range "A" "Z"; Range "0" "9"].

Definition alias_more : list cset_item := One "-" :: alias_first.

(** [T_ALIAS_NAME]: [[_#~@A-Z0-9][-_#~@A-Z0-9]*] *)
Definition T_ALIAS_NAME : regex := Seq (Cls alias_first) (Rep alias_more 0 None).

(** [T_LOGIC_BITS]: [[0L1HX_.]] *)
Definition T_LOGIC_BITS : list cset_item :=
  [One "0"; One "L"; One "1"; One "H"; One "X"; One "_"; One "."].

(** [ON|1|H|NO] and [OFF|0|L|NC] *)
Definition on_words : regex :=
  Alt (word (lit "ON")) (Alt (word (lit "1")) (Alt (word (lit "H")) (word (lit "NO")))).

Definition off_words : regex :=
  Alt (word (lit "OFF")) (Alt (word (lit "0")) (Alt (word (lit "L")) (word (lit "NC")))).

(** [T_LOGICS]: [ON|1|H|NO|OFF|0|L|NC] *)
Definition T_LOGICS : regex :=
  Alt (word (lit "ON")) (Alt (word (lit "1")) (Alt (word (lit "H"))
  (Alt (word (lit "NO")) (Alt (word (lit "OFF")) (Alt (word (lit "0"))
  (Alt (word (lit "L")) (word (lit "NC")))))))).

(** [T_CHANNELS]: [[1-8]] *)
Definition T_CHANNELS : list cset_item := [Range "1" "8"].

Definition sep_eq_colon : list cset_item := [One "="; One ":"].
Definition sep_at_colon : list cset_item := [One "@"; One ":"].

(** ["^(?:ON|1|H|NO)$"] *)
Definition regex_on_vals : Regex.t := mk (Seq Bol (Seq on_words Eol)) true.
(** ["^(?:OFF|0|L|NC)$"] *)
Definition regex_off_vals : Regex.t := mk (Seq Bol (Seq off_words Eol)) true.
(** ["^(" T_SERNUM ")$"] *)
Definition regex_sernum : Regex.t := mk (Seq Bol (Seq (Grp T_SERNUM) Eol)) true.
(** ["^(" T_ALIAS_NAME ")$"] *)
Definition regex_alias_name : Regex.t :=
  mk (Seq Bol (Seq (Grp T_ALIAS_NAME) Eol)) true.
(** ["(" T_ALIAS_NAME ")[=:](" T_SERNUM "),?"] *)
Definition regex_alias_registry : Regex.t :=
  mk (Seq (Grp T_ALIAS_NAME)
       (Seq (Cls sep_eq_colon) (Seq (Grp T_SERNUM) (Opt (Chr ","))))) true.

(** Patterns local to [main]. *)

(** ["^(?:/|-)?(?:H|Help|\\?)$"] *)
Definition regex_help : Regex.t :=
  mk (Seq Bol (Seq (Opt (Alt (Chr "/") (Chr "-")))
       (Seq (Alt (word (lit "H")) (Alt (word (lit "Help")) (Chr "?"))) Eol))) true.
(** ["^(?:ENUM|ENUMerate|L|List)$"] *)
Definition regex_enumerate : Regex.t :=
  mk (Seq Bol (Seq (Alt (word (lit "ENUM")) (Alt (word (lit "ENUMerate"))
       (Alt (word (lit "L")) (word (lit "List"))))) Eol)) true.
(** ["^SET$"] *)
Definition regex_set : Regex.t := mk (Seq Bol (Seq (word (lit "SET")) Eol)) true.
(** ["^(?:Q|Query)$"] *)
Definition regex_query : Regex.t :=
  mk (Seq Bol (Seq (Alt (word (lit "Q")) (word (lit "Query"))) Eol)) true.
(** ["^ALIAS$"] *)
Definition regex_alias : Regex.t := mk (Seq Bol (Seq (word (lit "ALIAS")) Eol)) true.

(** ["^(" T_ALIAS_NAME "):(" T_LOGIC_BITS "{1,8})$"] *)
Definition regex_sernum_pattern : Regex.t :=
  mk (Seq Bol (Seq (Grp T_ALIAS_NAME)
       (Seq (Chr ":") (Seq (Grp (Rep T_LOGIC_BITS 1 (Some 8))) Eol)))) true.
(** ["^(" T_CHANNELS ")=(" T_LOGICS ")$"] *)
Definition regex_ch_set : Regex.t :=
  mk (Seq Bol (Seq (Grp (Cls T_CHANNELS))
       (Seq (Chr "=") (Seq (Grp T_LOGICS) Eol)))) true.
(** ["^(" T_ALIAS_NAME ")[@:](" T_CHANNELS "{1,8})$"] *)
Definition regex_query_chlist : Regex.t :=
  mk (Seq Bol (Seq (Grp T_ALIAS_NAME)
       (Seq (Cls sep_at_colon) (Seq (Grp (Rep T_CHANNELS 1 (Some 8))) Eol)))) true.
(** ["^\\+?(" T_ALIAS_NAME ")[=:](" T_SERNUM ")$"] *)
Definition regex_alias_assign : Regex.t :=
  mk (Seq Bol (Seq (Opt (Chr "+")) (Seq (Grp T_ALIAS_NAME)
       (Seq (Cls sep_eq_colon) (Seq (Grp T_SERNUM) Eol))))) true.
(** ["^-(" T_ALIAS_NAME ")$"] *)
Definition regex_alias_remove : Regex.t :=
  mk (Seq Bol (Seq (Chr "-") (Seq (Grp T_ALIAS_NAME) Eol))) true.

(** ** The registry ([EasyRegistry.cpp]) *)

Definition MAX_SZ_RESULT_LENGTH : nat := 255.

(** What the program does to the registry value. *)
Inductive reg_event : Type :=
| DefaultCreated (v : str)   (* [ReadRegSZ] stored its default *)
| WriteCalled (v : str).     (* [WriteRegSZ] was called *)

(** The value [REG_SETTING_ALIASES] under [REG_KEY_RELAY_ALIAS]:
    [reg_value] is the string held there, [None] when there is none;
    [reg_writable] tells whether [RegCreateKeyW] and [RegSetValueExW]
    succeed. *)
Record registry : Type := mk_registry {
  reg_value : option str;
  reg_writable : bool;
  reg_log : list reg_event
}.

(** [mbstowcs_s(&nconv, szwResult, sz, MAX_SZ_RESULT_LENGTH)] and
    [wcstombs_s] with the same count: at most that many characters are
    converted. *)
Definition mbstowcs_s (sz : str) : str := firstn MAX_SZ_RESULT_LENGTH sz.
Definition wcstombs_s (szw : str) : str := firstn MAX_SZ_RESULT_LENGTH szw.

(** [RegGetValueW] into [szwResult] with
    [cbData = MAX_SZ_RESULT_LENGTH * sizeof(wchar_t)]: the string and its
    terminator have to fit, else the call fails. *)
Definition RegGetValueW (r : registry) : option str :=
  match reg_value r with
  | Some v => if Nat.ltb (length v) MAX_SZ_RESULT_LENGTH then Some v else None
  | None => None
  end.

(** [ReadRegSZ(key, setting, strResult, strDefault)]: read, and create the
    value with the default when it cannot be read. *)
Definition ReadRegSZ (strDefault : str) (r : registry) : bool * str * registry :=
  match RegGetValueW r with
  | Some szwResult => (true, wcstombs_s szwResult, r)
  | None =>
      if reg_writable r
      then
        let szwResult := mbstowcs_s strDefault in
        (true, wcstombs_s szwResult,
         mk_registry (Some szwResult) true
                     (reg_log r ++ [DefaultCreated szwResult]))
      else (false, [], r)
  end.

(** [WriteRegSZ(key, setting, strValue)] *)
Definition WriteRegSZ (strValue : str) (r : registry) : bool * registry :=
  let log := reg_log r ++ [WriteCalled strValue] in
  if reg_writable r
  then (true, mk_registry (Some (mbstowcs_s strValue)) true log)
  else (false, mk_registry (reg_value r) false log).

(** ** The alias list *)

(** [while (regex_search(list, smMatch, re)) { body; list = smMatch.suffix(); }]
    The body returns [inl] to go on and [inr] to [break].  [None] means that
    the fuel ran out. *)
Fixpoint while_search (A : Type) (fuel : nat) (re : Regex.t)
    (body : smatch -> A -> A + A) (strList : str) (acc : A) : option A :=
  match fuel with
  | 0 => None
  | S fuel' =>
      match regex_search strList re with
      | None => Some acc
      | Some sm =>
          match body sm acc with
          | inl acc' => while_search fuel' re body (suffix sm) acc'
          | inr acc' => Some acc'
          end
      end
  end.

(** The loops of the program run on the stored string; each match consumes
    at least one character, so this fuel is never used up
    (see [while_search_fuel]). *)
Definition loop_fuel (strList : str) : nat := S (length strList).

Definition run_loop (A : Type) (body : smatch -> A -> A + A)
    (strList : str) (acc : A) : A :=
  match while_search (loop_fuel strList) regex_alias_registry body strList acc with
  | Some acc' => acc'
  | None => acc
  end.

(** Body of the loop of [RemoveAlias]; the state is [(strAliasList, bFound)]. *)
Definition RemoveAlias_body (alias : str) (sm : smatch) (st : str * bool)
  : (str * bool) + (str * bool) :=
  let '(strAliasList, bFound) := st in
  if str_eqb alias (sub sm 1)
  then inl (strAliasList, true)
  else
    let strAliasList :=
      if negb (is_empty strAliasList) then strAliasList ++ lit "," else strAliasList in
    inl (strAliasList ++ sub sm 1 ++ lit "=" ++ sub sm 2, bFound).

Definition RemoveAlias (alias : str) (r : registry) : registry :=
  let alias := str_toupper alias in
  let '(ok, strAliasList, r) := ReadRegSZ [] r in
  if ok then
    let strIterList := strAliasList in
    let '(strAliasList, bFound) :=
      run_loop (RemoveAlias_body alias) strIterList ([], false) in
    if bFound then snd (WriteRegSZ strAliasList r) else r
  else r.

Definition AssignAlias (alias sernum : str) (r : registry) : registry :=
  let alias := str_toupper alias in
  let sernum := str_toupper sernum in
  let r := RemoveAlias alias r in
  let '(ok, strAliasList, r) := ReadRegSZ [] r in
  let strAliasList :=
    if ok
    then alias ++ lit "=" ++ sernum
         ++ (if is_empty strAliasList then [] else lit ",") ++ strAliasList
    else strAliasList in
  snd (WriteRegSZ strAliasList r).

(** [endl] *)
Definition endl : str := ["010"%char].

(** Body of the loop of [ListAlias]; the state is [(cout, bFound, bFirst)]. *)
Definition ListAlias_body (sm : smatch) (st : str * bool * bool)
  : (str * bool * bool) + (str * bool * bool) :=
  let '(out, bFound, bFirst) := st in
  let out := if bFirst then out else out ++ endl in
  inl (out ++ sub sm 1 ++ lit "=" ++ sub sm 2, true, false).

(** [ListAlias]: returns the registry and what was sent to [cout]. *)
Definition ListAlias (r : registry) : registry * str :=
  let '(ok, strAliasList, r) := ReadRegSZ [] r in
  let '(out, bFound, _) :=
    if ok then run_loop ListAlias_body strAliasList ([], false, true)
    else ([], false, true) in
  if negb bFound then (r, out ++ lit "No aliases defined" ++ endl) else (r, out).

(** Body of the loop of [GetAliasSernum]; the state is [(sernum, bFound)]. *)
Definition GetAliasSernum_body (alias_or_sernum : str) (sm : smatch)
    (st : str * bool) : (str * bool) + (str * bool) :=
  if str_eqb alias_or_sernum (sub sm 1)
  then inr (sub sm 2, true)
  else inl st.

Definition GetAliasSernum (alias_or_sernum : str) (r : registry) : str * registry :=
  let alias_or_sernum := str_toupper alias_or_sernum in
  let '(ok, strAliasList, r) := ReadRegSZ [] r in
  if ok then
    let '(sernum, bFound) :=
      run_loop (GetAliasSernum_body alias_or_sernum) strAliasList ([], false) in
    if negb bFound
    then (if matches alias_or_sernum regex_sernum then alias_or_sernum else sernum, r)
    else (sernum, r)
  else
    (if matches alias_or_sernum regex_sernum then alias_or_sernum else [], r).

(** The entries the loops see in a stored string, in order. *)
Definition entries_body (sm : smatch) (acc : list (str * str))
  : list (str * str) + list (str * str) :=
  inl (acc ++ [(sub sm 1, sub sm 2)]).

Definition entries (strList : str) : list (str * str) :=
  run_loop entries_body strList [].

(** The string a read of the registry yields, whether the read succeeds,
    and the registry it leaves. *)
Definition stored (r : registry) : str := snd (fst (ReadRegSZ [] r)).
Definition read_ok (r : registry) : bool := fst (fst (ReadRegSZ [] r)).
Definition after_read (r : registry) : registry := snd (ReadRegSZ [] r).

(** The persisted list: the entries of the string a read yields. *)
Definition persisted (r : registry) : list (str * str) := entries (stored r).

(** A string that goes through the buffers of [EasyRegistry.cpp] whole. *)
Definition fits (s : str) : Prop := length s < MAX_SZ_RESULT_LENGTH.

(** [ALIAS=SERNUM] pairs joined by commas, as both writers build them. *)
Fixpoint join_entries (l : list (str * str)) : str :=
  match l with
  | [] => []
  | [(a, s)] => a ++ lit "=" ++ s
  | (a, s) :: l' => a ++ lit "=" ++ s ++ lit "," ++ join_entries l'
  end.

(** ** The relay driver ([usb_relay_device.h]) *)

(** What the vendor library answers.  Handles are integers, 0 is the null
    handle; a device type is its number of channels. *)
Record driver : Type := mk_driver {
  usb_relay_init : Z;
  usb_relay_device_enumerate : list (str * Z);
  usb_relay_device_open_with_serial_number : str -> Z;
  usb_relay_device_get_status : Z -> Z
}.

(** The calls made to the vendor library. *)
Inductive drv_call : Type :=
| call_init
| call_exit
| call_enumerate
| call_free_enumerate
| call_open_with_serial_number (sn : str) (len : nat)
| call_open_one_relay_channel (h : Z) (index : Z)
| call_close_one_relay_channel (h : Z) (index : Z)
| call_open_all_relay_channel (h : Z)
| call_close_all_relay_channel (h : Z)
| call_get_status (h : Z)
| call_close (h : Z).

(** ** Data of [Relay.cpp] *)

Inductive LOGIC : Type := H | L | X.

Inductive ERROR_CODES : Type :=
| NONE | SYNTAX | NO_DEVICES | BAD_SERNUM | NO_DRIVER_INIT | INVALID_CHANNEL.

(** [int(error)] *)
Definition int_of_error (e : ERROR_CODES) : Z :=
  match e with
  | NONE => 0
  | SYNTAX => -1
  | NO_DEVICES => -2
  | BAD_SERNUM => -3
  | NO_DRIVER_INIT => -4
  | INVALID_CHANNEL => -5
  end%Z.

Definition is_none (e : ERROR_CODES) : bool :=
  match e with NONE => true | _ => false end.

Definition relay_idx_t := ascii.
Definition RELAY_IDX_ALL : relay_idx_t := "0".
Definition RELAY_IDX_MIN : relay_idx_t := "1".
Definition RELAY_IDX_MAX : relay_idx_t := "8".

(** [std::map]: an association list kept in increasing key order, which is
    the order a range-for visits it in. *)
Section StdMap.
Variables K V : Type.
Variable ltb : K -> K -> bool.

Fixpoint map_put (k : K) (v : V) (m : list (K * V)) : list (K * V) :=
  match m with
  | [] => [(k, v)]
  | (k', v') :: m' =>
      if ltb k k' then (k, v) :: m
      else if ltb k' k then (k', v') :: map_put k v m'
      else (k', v) :: m'
  end.

Fixpoint map_get (k : K) (m : list (K * V)) : option V :=
  match m with
  | [] => None
  | (k', v') :: m' =>
      if ltb k k' || ltb k' k then map_get k m' else Some v'
  end.

Definition map_contains (k : K) (m : list (K * V)) : bool :=
  match map_get k m with Some _ => true | None => false end.
End StdMap.

Definition char_ltb (a b : ascii) : bool :=
  Nat.ltb (nat_of_ascii a) (nat_of_ascii b).

(** [std::string::operator<] *)
Fixpoint str_ltb (a b : str) : bool :=
  match a, b with
  | _, [] => false
  | [], _ :: _ => true
  | x :: a', y :: b' =>
      if char_ltb x y then true
      else if char_ltb y x then false
      else str_ltb a' b'
  end.

Definition MODULE := list (relay_idx_t * LOGIC).
Definition MODULE_SET := list (str * MODULE).

(** [module[sn] = MODULE{}] *)
Definition module_reset (sn : str) (m : MODULE_SET) : MODULE_SET :=
  map_put str_ltb sn [] m.

(** [module[sn][ch] = st] *)
Definition module_set (sn : str) (ch : relay_idx_t) (st : LOGIC) (m : MODULE_SET)
  : MODULE_SET :=
  let inner := match map_get str_ltb sn m with Some i => i | None => [] end in
  map_put str_ltb sn (map_put char_ltb ch st inner) m.

Record channels_t : Type := mk_channels { sn : str; channels : Z }.
Definition MODULE_CHANNELS := list channels_t.

Record queries_t : Type := mk_query { q_sn : str; q : str }.
Definition MODULE_QUERIES := list queries_t.

(** The program's view of the outside: registry, the two streams and the
    driver calls made so far. *)
Record world : Type := mk_world {
  reg : registry;
  cout : str;
  cerr : str;
  calls : list drv_call
}.

Definition set_reg (r : registry) (w : world) : world :=
  mk_world r (cout w) (cerr w) (calls w).
Definition print (s : str) (w : world) : world :=
  mk_world (reg w) (cout w ++ s) (cerr w) (calls w).
Definition eprint (s : str) (w : world) : world :=
  mk_world (reg w) (cout w) (cerr w ++ s) (calls w).
Definition call (c : drv_call) (w : world) : world :=
  mk_world (reg w) (cout w) (cerr w) (calls w ++ [c]).

(** [get_state(string)] *)
Definition get_state (status : str) : LOGIC :=
  if matches status regex_on_vals then H
  else if matches status regex_off_vals then L
  else X.

(** [get_state(char)] *)
Definition get_state_char (status : ascii) : LOGIC :=
  let p := [] ++ [status] in
  if matches p regex_on_vals then H
  else if matches p regex_off_vals then L
  else X.

Fixpoint Is_Sernum_Present_loop (sernum : str) (chans : MODULE_CHANNELS) : bool :=
  match chans with
  | [] => false
  | s :: rest => if str_eqb (sn s) sernum then true else Is_Sernum_Present_loop sernum rest
  end.

Definition Is_Sernum_Present (sernum : str) (chans : MODULE_CHANNELS) : bool :=
  if negb (is_empty sernum) then Is_Sernum_Present_loop sernum chans else false.

Fixpoint Relays_Get_NumChannels_loop (sernum : str) (chans : MODULE_CHANNELS) : Z :=
  match chans with
  | [] => 0
  | s :: rest =>
      if str_eqb (sn s) sernum then channels s
      else Relays_Get_NumChannels_loop sernum rest
  end.

Definition Relays_Get_NumChannels (sernum : str) (chans : MODULE_CHANNELS) : Z :=
  if negb (is_empty sernum) then Relays_Get_NumChannels_loop sernum chans else 0%Z.

(** [Relays_Get_Sernums]: the enumeration, and whether it found a device. *)
Definition Relays_Get_Sernums (d : driver) (w : world)
  : bool * MODULE_CHANNELS * world :=
  let w := call call_enumerate (call call_init w) in
  match usb_relay_device_enumerate d with
  | [] => (false, [], call call_exit w)
  | devs =>
      (true, map (fun dev => mk_channels (fst dev) (snd dev)) devs,
       call call_exit (call call_free_enumerate w))
  end.

(** The five characters copied into [szRelaySN], upper-cased. *)
Definition szRelaySN_of (sernum : str) : str := map toupper (firstn 5 sernum).

(** One entry of a [MODULE] sent to an open device. *)
Definition Relays_Set_channel (hHandle : Z) (entry : relay_idx_t * LOGIC)
    (w : world) : world :=
  let '(ch, st) := entry in
  if Ascii.eqb ch RELAY_IDX_ALL then
    match st with
    | H => call (call_open_all_relay_channel hHandle) w
    | L => call (call_close_all_relay_channel hHandle) w
    | X => w
    end
  else
    let index :=
      (Z.of_nat (nat_of_ascii ch) - Z.of_nat (nat_of_ascii RELAY_IDX_MIN) + 1)%Z in
    match st with
    | H => call (call_open_one_relay_channel hHandle index) w
    | L => call (call_close_one_relay_channel hHandle index) w
    | X => w
    end.

Definition Relays_Set_module (d : driver) (chans : MODULE_CHANNELS)
    (entry : str * MODULE) (w : world) : world :=
  let '(sernum, module) := entry in
  let szRelaySN :=
    if is_empty sernum
    then szRelaySN_of (match chans with s :: _ => sn s | [] => [] end)
    else szRelaySN_of sernum in
  let hHandle := usb_relay_device_open_with_serial_number d szRelaySN in
  let w := call (call_open_with_serial_number szRelaySN (length szRelaySN)) w in
  if negb (Z.eqb hHandle 0) then
    let w := fold_left (fun w e => Relays_Set_channel hHandle e w) module w in
    call (call_close hHandle) w
  else w.

Definition Relays_Set (d : driver) (modules : MODULE_SET) (chans : MODULE_CHANNELS)
    (w : world) : ERROR_CODES * world :=
  let w := call call_init w in
  if Z.eqb (usb_relay_init d) 0 then
    let w := fold_left (fun w e => Relays_Set_module d chans e w) modules w in
    (NONE, call call_exit w)
  else (NO_DRIVER_INIT, w).

(** The device types of the vendor header are their channel counts. *)
Definition type_text (type : Z) : str :=
  if Z.eqb type 1 then lit "1)"
  else if Z.eqb type 2 then lit "2)"
  else if Z.eqb type 4 then lit "4)"
  else if Z.eqb type 8 then lit "8)"
  else lit "?)".

Fixpoint Relays_Enumerate_loop (devs : list (str * Z)) (w : world) : world :=
  match devs with
  | [] => w
  | (serial_number, type) :: next =>
      let w := print (serial_number ++ lit "(") w in
      let w := print (type_text type) w in
      let w := if is_empty next then w else print (lit ",") w in
      Relays_Enumerate_loop next w
  end.

Definition Relays_Enumerate (d : driver) (w : world) : ERROR_CODES * world :=
  let w := call call_init w in
  if Z.eqb (usb_relay_init d) 0 then
    let w := call call_enumerate w in
    match usb_relay_device_enumerate d with
    | [] => (NO_DEVICES, call call_exit w)
    | devs =>
        let w := Relays_Enumerate_loop devs w in
        (NONE, call call_exit (call call_free_enumerate w))
    end
  else (NO_DRIVER_INIT, w).

(** [q.append(1, '0' + i)] for [i] from 1 to [num_channels] *)
Definition all_channels (num_channels : Z) : str :=
  map (fun i => ascii_of_nat (nat_of_ascii "0" + i)) (seq 1 (Z.to_nat num_channels)).

(** One character of a query list. *)
Definition Relays_Query_char (status num_channels : Z) (c : ascii) (w : world)
  : world :=
  if ascii_in "1" "8" c then
    let ch := (Z.of_nat (nat_of_ascii c) - Z.of_nat (nat_of_ascii "0"))%Z in
    if Z.leb 1 ch && Z.leb ch num_channels then
      let st := Z.testbit status (ch - 1) in
      if st then print (lit "1") w else print (lit "0") w
    else w
  else w.

Definition Relays_Query_one (d : driver) (chans : MODULE_CHANNELS)
    (Q : queries_t) (st : ERROR_CODES * world) : ERROR_CODES * world :=
  let '(error, w) := st in
  let sernum := q_sn Q in
  let q := q Q in
  let szRelaySN := if negb (is_empty sernum) then szRelaySN_of sernum else [] in
  let num_channels :=
    if negb (is_empty sernum)
    then Relays_Get_NumChannels_loop szRelaySN chans else 0%Z in
  let error :=
    if negb (is_empty sernum) && Z.ltb num_channels 1 then BAD_SERNUM else error in
  if Z.ltb 0 num_channels then
    let hHandle := usb_relay_device_open_with_serial_number d szRelaySN in
    let w := call (call_open_with_serial_number szRelaySN (length szRelaySN)) w in
    let w :=
      if negb (Z.eqb hHandle 0) then
        let w := call (call_get_status hHandle) w in
        let status := usb_relay_device_get_status d hHandle in
        let q := if is_empty q then all_channels num_channels else q in
        let w := fold_left (fun w c => Relays_Query_char status num_channels c w) q w in
        call (call_close hHandle) w
      else w in
    (error, print (lit " ") w)
  else (error, w).

Definition Relays_Query (d : driver) (queries : MODULE_QUERIES)
    (chans : MODULE_CHANNELS) (w : world) : ERROR_CODES * world :=
  let w := call call_init w in
  if Z.eqb (usb_relay_init d) 0 then
    let '(error, w) :=
      fold_left (fun st Q => Relays_Query_one d chans Q st) queries (NONE, w) in
    (error, call call_exit w)
  else (NO_DRIVER_INIT, w).

Definition APP_VERSION : str := lit "1.1".

Definition usage_line (strProgName : str) (text : string) : str :=
  lit "  " ++ strProgName ++ lit text.

Definition PrintUsage (strProgName : str) (w : world) : world :=
  print
    (lit "USB HID Relay utility v" ++ APP_VERSION ++ endl
     ++ lit "Kerry S. Martin, martin@wild-wood.net" ++ endl
     ++ lit "Usage:" ++ endl
     ++ usage_line strProgName " ENUMerate|list                              # list all devices by sn(#channels)" ++ endl
     ++ usage_line strProgName " Query sernum {sernum ...}                   # query all channels for specific SNs" ++ endl
     ++ usage_line strProgName " Query sernum@chlist {sernum@chlist ...}     # query given channels for specifc SNs" ++ endl
     ++ usage_line strProgName " SET sernum:pattern {sernum:pattern ...}     # set given patterns on specific SNs" ++ endl
     ++ usage_line strProgName " SET sernum ch=state {ch=state ...}          # set given channels on specific SNs" ++ endl
     ++ usage_line strProgName " ALIAS                                       # list sernum aliases" ++ endl
     ++ usage_line strProgName " ALIAS alias=sernum                          # create new alias" ++ endl
     ++ usage_line strProgName " ALIAS -alias                                # delete alias" ++ endl ++ endl
     ++ lit "    sernum = 5-character serial number" ++ endl
     ++ lit "    state = 0|1|OFF|ON|L|H|NO|NC" ++ endl
     ++ lit "    pattern = qq...    where q = 0|1|L|H|X" ++ endl
     ++ lit "    alias = starts with alphanum and -_#@~ (does not begin with -)" ++ endl
     ++ lit "    alias may replace any serial number" ++ endl) w.

(** ** [main] *)

(** The locals of [main] that the command loops update. *)
Record locals : Type := mk_locals {
  error : ERROR_CODES;
  error_sernum : str;
  cur_sn : str;
  module : MODULE_SET;
  queries : MODULE_QUERIES
}.

Definition locals0 : locals := mk_locals NONE [] [] [] [].

Definition set_error (e : ERROR_CODES) (l : locals) : locals :=
  mk_locals e (error_sernum l) (cur_sn l) (module l) (queries l).
Definition set_bad_sernum (s : str) (l : locals) : locals :=
  mk_locals BAD_SERNUM s (cur_sn l) (module l) (queries l).
Definition set_cur_sn (s : str) (l : locals) : locals :=
  mk_locals (error l) (error_sernum l) s (module l) (queries l).
Definition set_module (m : MODULE_SET) (l : locals) : locals :=
  mk_locals (error l) (error_sernum l) (cur_sn l) m (queries l).
Definition push_query (Q : queries_t) (l : locals) : locals :=
  mk_locals (error l) (error_sernum l) (cur_sn l) (module l) (queries l ++ [Q]).

(** [(size_t) n] for an [int] compared with [string::length()] *)
Definition to_size_t (n : Z) : Z := (n mod 2 ^ 64)%Z.

(** One argument of [ALIAS]. *)
Definition alias_arg (arg : str) (st : ERROR_CODES * registry) : ERROR_CODES * registry :=
  let '(error, r) := st in
  match regex_match arg regex_alias_assign with
  | Some smMatch => (error, AssignAlias (sub smMatch 1) (sub smMatch 2) r)
  | None =>
      match regex_match arg regex_alias_remove with
      | Some smMatch => (error, RemoveAlias (sub smMatch 1) r)
      | None => (SYNTAX, r)
      end
  end.

(** [for (...; error == ERROR_CODES::NONE && ...; ...)] over the arguments
    still to visit. *)
Fixpoint alias_args (todo : list str) (st : ERROR_CODES * registry)
  : ERROR_CODES * registry :=
  match todo with
  | [] => st
  | arg :: todo' =>
      if is_none (fst st) then alias_args todo' (alias_arg arg st) else st
  end.

(** ['1' + j] *)
Definition channel_char (j : nat) : relay_idx_t :=
  ascii_of_nat (nat_of_ascii "1" + j).

(** [module[cur_sn]['1' + j] = get_state(pattern[j])] for every [j] *)
Fixpoint set_pattern (sn : str) (j : nat) (pattern : str) (m : MODULE_SET)
  : MODULE_SET :=
  match pattern with
  | [] => m
  | c :: rest =>
      set_pattern sn (S j) rest
        (module_set sn (channel_char j) (get_state_char c) m)
  end.

(** One argument of [SET]. *)
Definition set_arg (chans : MODULE_CHANNELS) (arg : str) (st : locals * registry)
  : locals * registry :=
  let '(l, r) := st in
  match regex_match arg regex_alias_name with
  | Some smMatch =>
      let '(sernum, r) := GetAliasSernum (sub smMatch 1) r in
      let l := set_cur_sn sernum l in
      if negb (Is_Sernum_Present (cur_sn l) chans)
      then (set_bad_sernum (cur_sn l) l, r)
      else (l, r)
  | None =>
      match regex_match arg regex_sernum_pattern with
      | Some smMatch =>
          let '(sernum, r) := GetAliasSernum (sub smMatch 1) r in
          let l := set_cur_sn sernum l in
          if Is_Sernum_Present (cur_sn l) chans then
            let num_channels := Relays_Get_NumChannels (cur_sn l) chans in
            let pattern := sub smMatch 2 in
            if Z.leb (Z.of_nat (length pattern)) (to_size_t num_channels)
            then
              (set_module
                 (set_pattern (cur_sn l) 0 pattern (module_reset (cur_sn l) (module l)))
                 l, r)
            else (set_error INVALID_CHANNEL l, r)
          else (set_bad_sernum (cur_sn l) l, r)
      | None =>
          match regex_match arg regex_ch_set with
          | Some smMatch =>
              if negb (is_empty (cur_sn l)) then
                let num_channels := Relays_Get_NumChannels (cur_sn l) chans in
                let l :=
                  if negb (map_contains str_ltb (cur_sn l) (module l))
                  then set_module (module_reset (cur_sn l) (module l)) l
                  else l in
                let ch := sub smMatch 1 in
                let ch0 := hd zero ch in
                let nch := (Z.of_nat (nat_of_ascii ch0) - Z.of_nat (nat_of_ascii "0"))%Z in
                if Z.leb nch num_channels then
                  let p := sub smMatch 2 in
                  (set_module (module_set (cur_sn l) ch0 (get_state p) (module l)) l, r)
                else (set_error INVALID_CHANNEL l, r)
              else (set_error SYNTAX l, r)
          | None => (set_error SYNTAX l, r)
          end
      end
  end.

(** One argument of [QUERY]. *)
Definition query_arg (chans : MODULE_CHANNELS) (arg : str) (st : locals * registry)
  : locals * registry :=
  let '(l, r) := st in
  match regex_match arg regex_query_chlist with
  | Some smMatch =>
      let '(q_sn, r) := GetAliasSernum (sub smMatch 1) r in
      let num_channels := Relays_Get_NumChannels q_sn chans in
      if Is_Sernum_Present q_sn chans then
        let q_q := sub smMatch 2 in
        if Z.leb (Z.of_nat (length q_q)) (to_size_t num_channels)
        then (push_query (mk_query q_sn q_q) l, r)
        else (set_error INVALID_CHANNEL l, r)
      else (set_bad_sernum q_sn l, r)
  | None =>
      match regex_match arg regex_alias_name with
      | Some smMatch =>
          let '(q_sn, r) := GetAliasSernum (sub smMatch 1) r in
          if Is_Sernum_Present q_sn chans
          then (push_query (mk_query q_sn []) l, r)
          else (set_bad_sernum q_sn l, r)
      | None => (set_error SYNTAX l, r)
      end
  end.

(** The argument loops of [SET] and [QUERY], left to right. *)
Fixpoint for_args (step : str -> locals * registry -> locals * registry)
    (todo : list str) (st : locals * registry) : locals * registry :=
  match todo with
  | [] => st
  | arg :: todo' =>
      if is_none (error (fst st)) then for_args step todo' (step arg st) else st
  end.

(** What the command line asks [main] to run once it is parsed. *)
Record flags : Type := mk_flags {
  is_help : bool;
  is_enumerate : bool;
  is_query : bool;
  is_set : bool
}.

Definition no_flags : flags := mk_flags false false false false.

(** The command-line part of [main]: [args] is [argv[1]], [argv[2]], ... *)
Definition parse_args (d : driver) (args : list str) (w : world)
  : flags * locals * MODULE_CHANNELS * world :=
  let num_args := length args in
  match args with
  | cmd :: rest =>
      if matches cmd regex_help then
        if Nat.eqb num_args 1
        then (mk_flags true false false false, locals0, [], w)
        else (no_flags, set_error SYNTAX locals0, [], w)
      else if matches cmd regex_enumerate then
        if Nat.eqb num_args 1
        then (mk_flags false true false false, locals0, [], w)
        else (no_flags, set_error SYNTAX locals0, [], w)
      else
        let '(found, chans, w) := Relays_Get_Sernums d w in
        if found then
          if matches cmd regex_alias && Nat.leb 1 num_args then
            if Nat.eqb num_args 1 then
              let '(r, out) := ListAlias (reg w) in
              (no_flags, locals0, chans, print out (set_reg r w))
            else
              let '(e, r) := alias_args (rev rest) (NONE, reg w) in
              let w := set_reg r w in
              if is_none e then
                let '(r, out) := ListAlias (reg w) in
                (no_flags, locals0, chans, print out (set_reg r w))
              else (no_flags, set_error e locals0, chans, w)
          else if matches cmd regex_set && Nat.ltb 1 num_args then
            let '(l, r) := for_args (set_arg chans) rest (locals0, reg w) in
            (mk_flags false false false (is_none (error l)), l, chans, set_reg r w)
          else if matches cmd regex_query then
            let '(l, r) := for_args (query_arg chans) rest (locals0, reg w) in
            (mk_flags false false (is_none (error l)) false, l, chans, set_reg r w)
          else (no_flags, set_error SYNTAX locals0, chans, w)
        else (no_flags, set_error NO_DEVICES locals0, chans, w)
  | [] => (mk_flags true false false false, locals0, [], w)
  end.

(** The message of the final [switch]. *)
Definition error_message (e : ERROR_CODES) (error_sernum : str) : str :=
  match e with
  | NONE => []
  | SYNTAX => lit "Syntax error"
  | NO_DEVICES => lit "No devices found"
  | BAD_SERNUM => lit "Serial number " ++ error_sernum ++ lit " not found"
  | NO_DRIVER_INIT => lit "Driver did not initialize"
  | INVALID_CHANNEL => lit "Invalid channel specified"
  end.

(** [main]: [strProgName] stands for [strip_path(argv[0])]; the result is
    the exit code and the world the process leaves. *)
Definition main (d : driver) (strProgName : str) (args : list str) (w : world)
  : Z * world :=
  let '(f, l, chans, w) := parse_args d args w in
  let '(e, w) :=
    if is_none (error l) then
      if is_help f then (error l, PrintUsage strProgName w)
      else if is_enumerate f then Relays_Enumerate d w
      else if is_set f then Relays_Set d (module l) chans w
      else if is_query f then Relays_Query d (queries l) chans w
      else (error l, w)
    else (error l, w) in
  (int_of_error e, eprint (error_message e (error_sernum l)) w).

(** ** Direct readings of the two token patterns *)

Definition sernum_char : ascii -> bool := cls_match true A_Z_0_9.
Definition alias_first_char : ascii -> bool := cls_match true alias_first.
Definition alias_char : ascii -> bool := cls_match true alias_more.

(** Five characters of [[A-Z0-9]], in either case. *)
Definition is_sernum (s : str) : bool :=
  Nat.eqb (length s) 5 && forallb sernum_char s.

(** A character of [[_#~@A-Z0-9]] followed by characters of
    [[-_#~@A-Z0-9]], in either case. *)
Definition is_alias_name (s : str) : bool :=
  match s with
  | [] => false
  | c :: s' => alias_first_char c && forallb alias_char s'
  end.

(** An entry the registry pattern can capture. *)
Definition is_entry (e : str * str) : bool :=
  is_alias_name (fst e) && is_sernum (snd e).

Definition upper_entry (e : str * str) : str * str :=
  (str_toupper (fst e), str_toupper (snd e)).

(** What [,?] leaves of the text after an entry. *)
Definition after_entry (rest : str) : str :=
  match rest with
  | c :: rest' => if chr_match true "," c then rest' else rest
  | [] => []
  end.

(** The first match of a run. *)
Definition heads (l : list result) (x : result) : Prop :=
  exists tl, l = x :: tl.

(** ** The alias list as a list of entries *)

Definition has_alias (alias : str) (l : list (str * str)) : bool :=
  existsb (fun e => str_eqb alias (fst e)) l.

Definition keeps (alias : str) (e : str * str) : bool :=
  negb (str_eqb alias (fst e)).

(** What the loop of [RemoveAlias] adds for an entry it keeps. *)
Definition append_entry (acc : str) (e : str * str) : str :=
  (if negb (is_empty acc) then acc ++ lit "," else acc)
  ++ fst e ++ lit "=" ++ snd e.

Definition remove_step (alias : str) (st : str * bool) (e : str * str)
  : str * bool :=
  if str_eqb alias (fst e) then (fst st, true)
  else (append_entry (fst st) e, snd st).

(** What the loop of [ListAlias] does for an entry. *)
Definition list_step (st : str * bool * bool) (e : str * str)
  : str * bool * bool :=
  let '(out, _, bFirst) := st in
  ((if bFirst then out else out ++ endl) ++ fst e ++ lit "=" ++ snd e, true, false).

(** The lines [ListAlias] prints for a list of entries. *)
Fixpoint list_text (l : list (str * str)) : str :=
  match l with
  | [] => []
  | [(a, s)] => a ++ lit "=" ++ s
  | (a, s) :: l' => a ++ lit "=" ++ s ++ endl ++ list_text l'
  end.

(** The values passed to [WriteRegSZ] so far. *)
Fixpoint writes (log : list reg_event) : list str :=
  match log with
  | [] => []
  | WriteCalled v :: log' => v :: writes log'
  | DefaultCreated _ :: log' => writes log'
  end.

(** The first binding of a key, as the loop of [GetAliasSernum] finds it. *)
Definition lookup (key : str) (l : list (str * str)) : option str :=
  option_map snd (find (fun e => str_eqb key (fst e)) l).

(** How many entries a list holds for a key. *)
Definition count_alias (key : str) (l : list (str * str)) : nat :=
  length (filter (fun e => str_eqb key (fst e)) l).

(** Assigning every entry of a list, the last one first, so that the first
    one ends up in front. *)
Definition assign_all (l : list (str * str)) (r : registry) : registry :=
  fold_right (fun e r => AssignAlias (fst e) (snd e) r) r l.

(** An alias and a serial number as the command line accepts them. *)
Definition well_formed (e : str * str) : Prop :=
  matches (fst e) regex_alias_name = true /\ matches (snd e) regex_sernum = true.

(** ** Notions used by the statements *)

(** The calls of [Relays_Get_Sernums] when a device is found. *)
Definition enumeration_calls : list drv_call :=
  [call_init; call_enumerate; call_free_enumerate; call_exit].

(** The [channels] that [main] gets from the enumeration. *)
Definition chans_of (d : driver) : MODULE_CHANNELS :=
  map (fun dev => mk_channels (fst dev) (snd dev)) (usb_relay_device_enumerate d).

(** An argument that [ALIAS] accepts. *)
Definition valid_alias_token (t : str) : bool :=
  matches t regex_alias_assign || matches t regex_alias_remove.

(** What one well-formed argument of [ALIAS] does to the registry. *)
Definition alias_token_effect (t : str) (r : registry) : registry :=
  snd (alias_arg t (NONE, r)).

(** The arguments of [ALIAS], read directly: [ALIAS=SERNUM] or
    [ALIAS:SERNUM], with or without a [+] before it, and [-ALIAS]. *)
Inductive alias_token : str -> Prop :=
| assign_token (plus : bool) (a : str) (sep : ascii) (sn : str) :
    is_alias_name a = true -> sep = "=" \/ sep = ":" -> is_sernum sn = true ->
    alias_token ((if plus then ["+"] else []) ++ a ++ sep :: sn)
| remove_token (a : str) :
    is_alias_name a = true -> alias_token ("-" :: a).

(** The calls that switch a relay. *)
Definition is_switch_call (c : drv_call) : bool :=
  match c with
  | call_open_one_relay_channel _ _ | call_close_one_relay_channel _ _
  | call_open_all_relay_channel _ | call_close_all_relay_channel _ => true
  | _ => false
  end.

(** An argument that names no device: neither a serial number or alias
    nor a [TOKEN:PATTERN]. *)
Definition not_device_token (t : str) : Prop :=
  matches t regex_alias_name = false /\ matches t regex_sernum_pattern = false.

(** The state a pattern character stands for: [0] and [L] clear, [1] and
    [H] set, anything else ([X], [_], [.]) leaves the channel alone. *)
Definition bit_state (c : ascii) : LOGIC :=
  let u := toupper c in
  if Ascii.eqb u "0" || Ascii.eqb u "L" then L
  else if Ascii.eqb u "1" || Ascii.eqb u "H" then H
  else X.

(** The [MODULE] of a pattern: channel ['1' + j] for its [j]-th character. *)
Fixpoint pattern_module (j : nat) (pattern : str) : MODULE :=
  match pattern with
  | [] => []
  | c :: rest =>
      (channel_char j, bit_state c) :: pattern_module (S j) rest
  end.


(** A pattern of [SET]: 1 to 8 characters of [T_LOGIC_BITS]. *)
Definition is_pattern (pattern : str) : bool :=
  Nat.leb 1 (length pattern) && Nat.leb (length pattern) 8
  && forallb (cls_match true T_LOGIC_BITS) pattern.


(** A bench with three modules, a fresh world and the program run on
    them, for the examples. *)
Definition bench : driver :=
  mk_driver 0 [(lit "6QMBS", 8%Z); (lit "5XARZ", 8%Z); (lit "6VXAT", 4%Z)]
            (fun s => if str_eqb s (lit "6QMBS") then 1%Z
                      else if str_eqb s (lit "5XARZ") then 2%Z
                      else if str_eqb s (lit "6VXAT") then 3%Z else 0%Z)
            (fun h => if Z.eqb h 1 then 11%Z else 0%Z).

Definition fresh : world := mk_world (mk_registry None true []) [] [] [].

Definition relay (args : list string) (w : world) : Z * world :=
  main bench (lit "Relay.exe") (map lit args) w.

(** * Further notions *)

(** ** Frames and ranges *)

(** A call the command line can lead to: a one-channel call names a channel
    from 1 to 8 and there is no all-channel call. *)
Definition call_in_range (c : drv_call) : bool :=
  match c with
  | call_open_one_relay_channel _ index | call_close_one_relay_channel _ index =>
      Z.leb 1 index && Z.leb index 8
  | call_open_all_relay_channel _ | call_close_all_relay_channel _ => false
  | _ => true
  end.

(** The keys of a [MODULE] are channel characters. *)
Definition channel_keys (m : MODULE) : bool :=
  forallb (fun e => ascii_in RELAY_IDX_MIN RELAY_IDX_MAX (fst e)) m.

Definition module_keys (m : MODULE_SET) : bool :=
  forallb (fun e => channel_keys (snd e)) m.

(** A registry reached by reads alone. *)
Definition read_only (r r' : registry) : Prop :=
  persisted r' = persisted r
  /\ writes (reg_log r') = writes (reg_log r)
  /\ reg_writable r' = reg_writable r.

(** A call that switches no relay. *)
Definition no_switch (c : drv_call) : bool := negb (is_switch_call c).

(** [w'] is [w] with text added to [cout] and calls satisfying [P] added to
    the log; the registry and [cerr] are the same. *)
Definition grows (P : drv_call -> bool) (w w' : world) : Prop :=
  reg w' = reg w /\ cerr w' = cerr w
  /\ (exists out, cout w' = cout w ++ out)
  /\ exists new, calls w' = calls w ++ new /\ forallb P new = true.

(** As [grows], for a function that may also change the registry. *)
Definition talks (P : drv_call -> bool) (w w' : world) : Prop :=
  cerr w' = cerr w
  /\ (exists out, cout w' = cout w ++ out)
  /\ exists new, calls w' = calls w ++ new /\ forallb P new = true.

(** The first argument is not the [ALIAS] command. *)
Definition not_alias_command (args : list str) : Prop :=
  match args with
  | cmd :: _ => matches cmd regex_alias = false
  | [] => True
  end.

(** ** Words *)

(** The text [s] is one of the words [ws], letters compared in upper case. *)
Definition word_in (s : str) (ws : list string) : bool :=
  existsb (fun w => str_eqb (str_toupper s) (str_toupper (lit w))) ws.

(** Every character. *)
Definition all_chars : list ascii := map ascii_of_nat (seq 0 256).

(** ** The schedule of [SET] *)

(** The number a channel character stands for: [ch - '0']. *)
Definition channel_number (ch : relay_idx_t) : Z :=
  (Z.of_nat (nat_of_ascii ch) - Z.of_nat (nat_of_ascii "0"))%Z.

(** Every channel scheduled for a module exists on it. *)
Definition channels_exist (chans : MODULE_CHANNELS) (m : MODULE_SET) : Prop :=
  forall sn inner ch st,
    In (sn, inner) m -> In (ch, st) inner ->
    (1 <= channel_number ch <= Relays_Get_NumChannels sn chans)%Z.

(** Keys in strictly increasing order. *)
Fixpoint increasing (K V : Type) (ltb : K -> K -> bool) (m : list (K * V)) : Prop :=
  match m with
  | [] => True
  | e :: m' => Forall (fun e' => ltb (fst e) (fst e') = true) m' /\ increasing ltb m'
  end.

(** Every module of a set is scheduled once and every channel of a module
    once, in increasing order. *)
Definition module_set_sorted (m : MODULE_SET) : Prop :=
  increasing str_ltb m /\ Forall (fun e => increasing char_ltb (snd e)) m.

(** The channel counts of the enumeration are those of an [int] that is
    not negative. *)
Definition counts_ok (chans : MODULE_CHANNELS) : Prop :=
  Forall (fun s => (0 <= channels s < 2 ^ 31)%Z) chans.

(** ** Channel lists of [QUERY] *)

(** A channel list of [QUERY]: 1 to 8 characters of [T_CHANNELS]. *)
Definition is_chlist (q : str) : bool :=
  Nat.leb 1 (length q) && Nat.leb (length q) 8
  && forallb (cls_match true T_CHANNELS) q.

(** What [Relays_Query] prints for a channel: the bit of the status word. *)
Definition status_bit (status : Z) (ch : Z) : ascii :=
  if Z.testbit status (ch - 1) then "1" else "0".

(** What it prints for a list on a module of [num_channels] channels: the
    bits of the channels that exist, nothing for the others, then a space. *)
Definition query_text (status num_channels : Z) (q : str) : str :=
  flat_map (fun c => if Z.leb (channel_number c) num_channels
                     then [status_bit status (channel_number c)] else []) q
  ++ lit " ".

(** The calls of [Relays_Query] for one module that the driver opens. *)
Definition query_calls (d : driver) (sernum : str) : list drv_call :=
  let hHandle := usb_relay_device_open_with_serial_number d sernum in
  [call_init; call_open_with_serial_number sernum (length sernum);
   call_get_status hHandle; call_close hHandle; call_exit].

(** ** Calls of [Relays_Set] *)

(** The call that puts one channel in a state; none for [X]. *)
Definition switch_call (hHandle : Z) (st : LOGIC) (index : Z) : list drv_call :=
  match st with
  | H => [call_open_one_relay_channel hHandle index]
  | L => [call_close_one_relay_channel hHandle index]
  | X => []
  end.

(** ** The stored list *)

(** The registry holds a list as the writers build it, with one entry for
    an alias at most. *)
Definition alias_list_ok (r : registry) : Prop :=
  exists l,
    stored r = join_entries l
    /\ Forall (fun e => is_entry e = true) l
    /\ NoDup (map fst l).

(** ** [strip_path] *)

(** [.]: any character but a line terminator. *)
Definition dot (c : ascii) : bool :=
  negb (Ascii.eqb c "010") && negb (Ascii.eqb c "013").

(** Non-greedy repetition of a character test: the shortest run first. *)
Fixpoint rep_lazy (p : ascii -> bool) (lo : nat) (s : str) : list (str * str) :=
  let stop := if Nat.eqb lo 0 then [([], s)] else [] in
  match s with
  | x :: s' =>
      if p x
      then stop ++ map (fun ur => (x :: fst ur, snd ur)) (rep_lazy p (pred lo) s')
      else stop
  | [] => stop
  end.

(** The pattern of [strip_path] has a quantified [.] and a non-greedy
    group, which [Regex.regex] has no constructor for; its matches are put
    together here as [Regex.run] does it for [Seq], [Rep] and [Grp]. *)
Definition seq_run (m1 : list result) (k : str -> list result) : list result :=
  flat_map
    (fun m : result =>
       let '(u1, c1, s1) := m in
       map (fun m2 : result =>
              let '(u2, c2, s2) := m2 in (u1 ++ u2, c1 ++ c2, s2))
           (k s1))
    m1.

Definition rep_run (l : list (str * str)) : list result :=
  map (fun ur : str * str => (fst ur, [], snd ur)) l.

Definition grp_run (l : list result) : list result :=
  map (fun m : result => let '(u, c, s') := m in (u, u :: c, s')) l.

(** A slash or a backslash. *)
Definition path_separator : regex := Alt (Chr "/") (Chr "\").

(** The pattern of [strip_path], without [icase]: [^], a greedy run of
    any characters, a separator, a group holding a non-greedy run of one
    character or more, [$]. *)
Definition strip_path_run (s : str) : list result :=
  seq_run (rep_run (rep dot 0 None s)) (fun s1 =>
  seq_run (run false path_separator false s1) (fun s2 =>
  seq_run (grp_run (rep_run (rep_lazy dot 1 s2))) (fun s3 =>
  run false Eol false s3))).

Definition strip_path (filename : str) : str :=
  match filter ends_input (strip_path_run filename) with
  | (u, c, rest) :: _ => sub (mk_smatch [] u c rest) 1
  | [] => filename
  end.

(** A direct reading: the text after the last separator that has text
    after it, in a name without line terminator. *)
Definition is_separator (c : ascii) : bool := Ascii.eqb c "/" || Ascii.eqb c "\".

Fixpoint last_part (f : str) : option str :=
  match f with
  | [] => None
  | x :: f' =>
      if dot x then
        match last_part f' with
        | Some b => Some b
        | None =>
            if is_separator x && negb (is_empty f') && forallb dot f'
            then Some f' else None
        end
      else None
  end.

(** What follows the greedy run in the pattern. *)
Definition after_dir (s1 : str) : list result :=
  seq_run (run false path_separator false s1) (fun s2 =>
  seq_run (grp_run (rep_run (rep_lazy dot 1 s2))) (fun s3 =>
  run false Eol false s3)).

(** The captures of the matches that reach the end of the input. *)
Definition captures (l : list result) : list (list str) :=
  map (fun m : result => snd (fst m)) (filter ends_input l).

(** ** Numbers in the registry ([EasyRegistry.cpp]) *)

(** [ReadRegSZ(strKey, strSetting, strResult)], without default: the
    registry is only read. *)
Definition ReadRegSZ_no_default (r : registry) : bool * str :=
  match RegGetValueW r with
  | Some szwResult => (true, wcstombs_s szwResult)
  | None => (false, [])
  end.

(** The type codes of [winnt.h]. *)
Definition REG_SZ : nat := 1.
Definition REG_BINARY : nat := 3.
Definition REG_DWORD : nat := 4.
Definition REG_QWORD : nat := 11.

(** The types [RegGetValueW] accepts under [RRF_RT_DWORD] and under
    [RRF_RT_QWORD], and the size it asks of binary data. *)
Record rrf : Type := mk_rrf { rrf_types : list nat; rrf_size : nat }.
Definition RRF_RT_DWORD : rrf := mk_rrf [REG_BINARY; REG_DWORD] 4.
Definition RRF_RT_QWORD : rrf := mk_rrf [REG_BINARY; REG_QWORD] 8.

(** A value as [RegSetValueExW] stores it: a type code and the data bytes. *)
Record reg_data : Type := mk_data { data_type : nat; data_bytes : list Z }.

(** The value a call names by its key and setting ([None] when there is
    none), and whether [RegCreateKeyW] and [RegSetValueExW] succeed. *)
Record value_slot : Type := mk_slot {
  slot_data : option reg_data;
  slot_writable : bool
}.

(** The bytes of an unsigned integer variable, lowest first, and back. *)
Fixpoint le_bytes (n : nat) (v : Z) : list Z :=
  match n with
  | 0 => []
  | S n' => (v mod 256)%Z :: le_bytes n' (v / 256)%Z
  end.

Fixpoint le_value (bs : list Z) : Z :=
  match bs with
  | [] => 0%Z
  | b :: bs' => (b + 256 * le_value bs')%Z
  end.

(** [RegGetValueW(..., flags, nullptr, pvData, &cbData)] on a variable of
    [cbData] bytes holding [buffer]: the value has to exist, be of an
    accepted type (binary data of the size asked) and fit; its bytes then
    replace the first bytes of the variable. *)
Definition RegGetValueW_number (flags : rrf) (cbData : nat) (buffer : list Z)
    (r : value_slot) : option (list Z) :=
  match slot_data r with
  | Some v =>
      if existsb (Nat.eqb (data_type v)) (rrf_types flags)
         && (negb (Nat.eqb (data_type v) REG_BINARY)
             || Nat.eqb (length (data_bytes v)) (rrf_size flags))
         && Nat.leb (length (data_bytes v)) cbData
      then Some (data_bytes v ++ skipn (length (data_bytes v)) buffer)
      else None
  | None => None
  end.

(** [RegCreateKeyW] followed by [RegSetValueExW] of [cb] bytes. *)
Definition RegSetValueExW_number (type : nat) (bytes : list Z) (r : value_slot)
  : bool * value_slot :=
  if slot_writable r
  then (true, mk_slot (Some (mk_data type bytes)) true)
  else (false, r).

(** The readers return the number read, and [None] where the source
    returns [false]; [pdwResult] is what the variable holds before. *)

(** [ReadRegDWORD(szKey, szSetting, pdwResult)], without default. *)
Definition ReadRegDWORD_no_default (pdwResult : Z) (r : value_slot) : option Z :=
  option_map le_value (RegGetValueW_number RRF_RT_DWORD 4 (le_bytes 4 pdwResult) r).

(** [ReadRegDWORD(szKey, szSetting, pdwResult, dwDefault)] *)
Definition ReadRegDWORD (pdwResult dwDefault : Z) (r : value_slot)
  : option Z * value_slot :=
  match RegGetValueW_number RRF_RT_DWORD 4 (le_bytes 4 pdwResult) r with
  | Some bytes => (Some (le_value bytes), r)
  | None =>
      let pdwResult := le_bytes 4 dwDefault in
      let '(ok, r) := RegSetValueExW_number REG_DWORD pdwResult r in
      (if ok then Some (le_value pdwResult) else None, r)
  end.

(** [ReadRegQWORD(szKey, szSetting, pqwResult)], without default. *)
Definition ReadRegQWORD_no_default (pqwResult : Z) (r : value_slot) : option Z :=
  option_map le_value (RegGetValueW_number RRF_RT_QWORD 8 (le_bytes 8 pqwResult) r).

(** [ReadRegQWORD(szKey, szSetting, pqwResult, qwDefault)] *)
Definition ReadRegQWORD (pqwResult qwDefault : Z) (r : value_slot)
  : option Z * value_slot :=
  match RegGetValueW_number RRF_RT_QWORD 8 (le_bytes 8 pqwResult) r with
  | Some bytes => (Some (le_value bytes), r)
  | None =>
      let pqwResult := le_bytes 8 qwDefault in
      let '(ok, r) := RegSetValueExW_number REG_QWORD pqwResult r in
      (if ok then Some (le_value pqwResult) else None, r)
  end.

(** [WriteRegDWORD(szKey, szSetting, dwValue)] *)
Definition WriteRegDWORD (dwValue : Z) (r : value_slot) : bool * value_slot :=
  let dwValueB := le_bytes 4 dwValue in
  RegSetValueExW_number REG_DWORD dwValueB r.

(** [WriteRegQWORD(szKey, szSetting, qwValue)]: the eight bytes are stored
    with the type [REG_DWORD], as the source has it. *)
Definition WriteRegQWORD (qwValue : Z) (r : value_slot) : bool * value_slot :=
  let dwValueB := le_bytes 8 qwValue in
  RegSetValueExW_number REG_DWORD dwValueB r.

(** ** What [Relays_Enumerate] prints *)

(** What [Relays_Enumerate] prints for a device, and texts joined by a
    separator. *)
Definition device_text (dev : str * Z) : str :=
  fst dev ++ lit "(" ++ type_text (snd dev).

Fixpoint join_with (sep : str) (l : list str) : str :=
  match l with
  | [] => []
  | [x] => x
  | x :: l' => x ++ sep ++ join_with sep l'
  end.

(** ** Several [CH=STATE] arguments *)

(** The argument [CH=STATE] of a channel character and a state word. *)
Definition state_token (t : ascii * str) : str := fst t :: "=" :: snd t.

(** The state that the last of the arguments naming a channel gives it. *)
Definition last_state (ch : ascii) (toks : list (ascii * str)) : option LOGIC :=
  fold_left
    (fun acc t => if Ascii.eqb (fst t) ch then Some (get_state (snd t)) else acc)
    toks None.

(** The switching calls for a list of [CH=STATE] arguments: for the
    channels from 1 to 8 in that order, the call for the last state of
    those that are named. *)
Definition scheduled_calls (hHandle : Z) (toks : list (ascii * str)) : list drv_call :=
  flat_map
    (fun ch => match last_state ch toks with
               | Some st => switch_call hHandle st (channel_number ch)
               | None => []
               end)
    (lit "12345678").

(** * Properties *)

Unset Implicit Arguments.

(** ** Characters *)

Ltac each_char c :=
  destruct c as [[] [] [] [] [] [] [] []]; vm_compute; try reflexivity;
  try discriminate; auto.

Lemma toupper_idem c : toupper (toupper c) = toupper c.
Proof. each_char c. Qed.

Lemma cls_match_toupper cs c :
  cls_match true cs (toupper c) = cls_match true cs c.
Proof.
  unfold cls_match. simpl.
  destruct c as [[] [] [] [] [] [] [] []];
    match goal with
    | |- context [toupper ?x] =>
        let u := eval vm_compute in (toupper x) in
        let l := eval vm_compute in (tolower x) in
        let uu := eval vm_compute in (toupper u) in
        let lu := eval vm_compute in (tolower u) in
        change (toupper (toupper x)) with uu; change (tolower (toupper x)) with lu;
        change (toupper x) with u; change (tolower x) with l
    end;
    repeat match goal with |- context [cset_has cs ?a] => destruct (cset_has cs a) end;
    reflexivity.
Qed.

Lemma chr_match_eq a c : chr_match false a c = true -> c = a.
Proof.
  unfold chr_match, cls_match. simpl. rewrite !orb_false_r.
  intros E. apply Ascii.eqb_eq in E. congruence.
Qed.

Lemma comma_match c : chr_match true "," c = true -> c = ",".
Proof. each_char c. Qed.

Lemma eq_colon_match c :
  cls_match true sep_eq_colon c = true -> c = "=" \/ c = ":".
Proof. each_char c. Qed.

Lemma alias_char_not_sep c :
  alias_char c = true -> cls_match true sep_eq_colon c = false.
Proof. each_char c. Qed.

Lemma sernum_char_not_comma c :
  sernum_char c = true -> chr_match true "," c = false.
Proof. each_char c. Qed.

Lemma alias_first_is_alias_char c :
  alias_first_char c = true -> alias_char c = true.
Proof. each_char c. Qed.

(** ** Repetition *)

Lemma rep_sound p lo hi s u r :
  In (u, r) (rep p lo hi s) ->
  s = u ++ r /\ forallb p u = true /\ lo <= length u
  /\ (forall h, hi = Some h -> length u <= h).
Proof.
  revert lo hi u r. induction s as [|x s IH]; intros lo hi u r; simpl.
  - destruct lo; simpl; [|tauto].
    intros [E|[]]. inversion E; subst. simpl. repeat split; auto; lia.
  - assert (Stop : In (u, r) (if Nat.eqb lo 0 then [([], x :: s)] else []) ->
                   x :: s = u ++ r /\ forallb p u = true /\ lo <= length u
                   /\ (forall h, hi = Some h -> length u <= h)).
    { destruct lo; simpl; [|tauto].
      intros [E|[]]. inversion E; subst. simpl. repeat split; auto; lia. }
    destruct (p x) eqn:Px; simpl; [|exact Stop].
    destruct (hi_open hi) eqn:Ho; [|exact Stop].
    rewrite in_app_iff, in_map_iff. intros [[[u' r'] [E Hi]]|Hs]; [|auto].
    simpl in E. inversion E; subst. apply IH in Hi.
    destruct Hi as (-> & Hu & Hlo & Hhi). simpl. rewrite Px, Hu.
    repeat split; auto; [lia|].
    intros h ->. destruct h; [discriminate|].
    specialize (Hhi h eq_refl). lia.
Qed.

Lemma rep_greedy p lo hi u rest :
  forallb p u = true ->
  lo <= length u ->
  (forall h, hi = Some h -> length u <= h) ->
  (match rest with [] => True | x :: _ => p x = false end \/ hi = Some (length u)) ->
  exists tl, rep p lo hi (u ++ rest) = (u, rest) :: tl.
Proof.
  revert lo hi. induction u as [|a u IH]; intros lo hi Hu Hlo Hhi Hstop; simpl in *.
  - assert (lo = 0) by lia. subst lo.
    destruct rest as [|x rest]; simpl; [eauto|].
    destruct Hstop as [->| ->]; simpl; eauto.
    rewrite andb_false_r. eauto.
  - apply andb_prop in Hu. destruct Hu as [Pa Hu]. rewrite Pa. simpl.
    assert (Ho : hi_open hi = true).
    { destruct hi as [[|h]|]; auto. specialize (Hhi 0 eq_refl). lia. }
    rewrite Ho.
    destruct (IH (pred lo) (hi_dec hi)) as [tl E]; auto; try lia.
    + intros h Eh. destruct hi as [h'|]; [|discriminate].
      simpl in Eh. inversion Eh; subst. specialize (Hhi h' eq_refl). lia.
    + destruct Hstop as [?| ->]; [auto|]. right. reflexivity.
    + rewrite E. simpl. eauto.
Qed.

(** ** The matcher *)

Section Matcher.

Variable ic : bool.

Lemma in_run_Seq r1 r2 bol s u c rest :
  In (u, c, rest) (run ic (Seq r1 r2) bol s) <->
  exists u1 c1 s1 u2 c2,
    In (u1, c1, s1) (run ic r1 bol s)
    /\ In (u2, c2, rest) (run ic r2 (bol && is_empty u1) s1)
    /\ u = u1 ++ u2 /\ c = c1 ++ c2.
Proof.
  simpl. rewrite in_flat_map. split.
  - intros [[[u1 c1] s1] [H1 H2]]. apply in_map_iff in H2.
    destruct H2 as [[[u2 c2] s2] [E H2]]. inversion E; subst.
    exists u1, c1, s1, u2, c2. auto.
  - intros (u1 & c1 & s1 & u2 & c2 & H1 & H2 & -> & ->).
    exists (u1, c1, s1). split; auto. apply in_map_iff.
    exists (u2, c2, rest). auto.
Qed.

Lemma in_run_Grp r bol s u c rest :
  In (u, c, rest) (run ic (Grp r) bol s) <->
  exists c', In (u, c', rest) (run ic r bol s) /\ c = u :: c'.
Proof.
  simpl. rewrite in_map_iff. split.
  - intros [[[u' c'] s'] [E Hi]]. inversion E; subst. eauto.
  - intros (c' & Hi & ->). exists (u, c', rest). auto.
Qed.

Lemma in_run_Cls cs bol s u c rest :
  In (u, c, rest) (run ic (Cls cs) bol s) <->
  exists x, s = x :: rest /\ cls_match ic cs x = true /\ u = [x] /\ c = [].
Proof.
  simpl. destruct s as [|x s]; simpl.
  - split; [tauto|]. intros (x & E & _). discriminate.
  - destruct (cls_match ic cs x) eqn:M; simpl; split.
    + intros [E|[]]. inversion E; subst. eauto.
    + intros (y & E & _ & -> & ->). inversion E; subst. auto.
    + tauto.
    + intros (y & E & My & _). inversion E; subst. congruence.
Qed.

Lemma in_run_Chr a bol s u c rest :
  In (u, c, rest) (run ic (Chr a) bol s) <->
  exists x, s = x :: rest /\ chr_match ic a x = true /\ u = [x] /\ c = [].
Proof.
  simpl. destruct s as [|x s]; simpl.
  - split; [tauto|]. intros (x & E & _). discriminate.
  - destruct (chr_match ic a x) eqn:M; simpl; split.
    + intros [E|[]]. inversion E; subst. eauto.
    + intros (y & E & _ & -> & ->). inversion E; subst. auto.
    + tauto.
    + intros (y & E & My & _). inversion E; subst. congruence.
Qed.

Lemma in_run_Rep cs lo hi bol s u c rest :
  In (u, c, rest) (run ic (Rep cs lo hi) bol s) ->
  c = [] /\ s = u ++ rest /\ forallb (cls_match ic cs) u = true
  /\ lo <= length u /\ (forall h, hi = Some h -> length u <= h).
Proof.
  simpl. rewrite in_map_iff. intros [[u' r'] [E Hi]].
  simpl in E. inversion E; subst. apply rep_sound in Hi. tauto.
Qed.

Lemma in_run_Opt r bol s x :
  In x (run ic (Opt r) bol s) <-> In x (run ic r bol s) \/ x = ([], [], s).
Proof.
  simpl. rewrite in_app_iff. simpl. intuition congruence.
Qed.

Lemma in_run_Eol bol s u c rest :
  In (u, c, rest) (run ic Eol bol s) <-> s = [] /\ u = [] /\ c = [] /\ rest = [].
Proof.
  simpl. destruct s; simpl; split.
  - intros [E|[]]. inversion E. auto.
  - intros (_ & -> & -> & ->). auto.
  - tauto.
  - intros (E & _). discriminate.
Qed.

Lemma in_run_Bol bol s u c rest :
  In (u, c, rest) (run ic Bol bol s) <-> bol = true /\ u = [] /\ c = [] /\ rest = s.
Proof.
  simpl. destruct bol; simpl; split.
  - intros [E|[]]. inversion E. auto.
  - intros (_ & -> & -> & ->). auto.
  - tauto.
  - intros (E & _). discriminate.
Qed.

Lemma run_sound r bol s u c rest :
  In (u, c, rest) (run ic r bol s) -> s = u ++ rest.
Proof.
  revert bol s u c rest.
  induction r as [|a|cs|r1 IH1 r2 IH2|r1 IH1 r2 IH2|r IH|cs lo hi|r IH| |];
    intros bol s u c rest Hi.
  - simpl in Hi. destruct Hi as [E|[]]. inversion E. reflexivity.
  - apply in_run_Chr in Hi. destruct Hi as (x & -> & _ & -> & _). reflexivity.
  - apply in_run_Cls in Hi. destruct Hi as (x & -> & _ & -> & _). reflexivity.
  - apply in_run_Seq in Hi.
    destruct Hi as (u1 & c1 & s1 & u2 & c2 & H1 & H2 & -> & ->).
    apply IH1 in H1. apply IH2 in H2. subst. rewrite app_assoc. reflexivity.
  - simpl in Hi. apply in_app_iff in Hi. destruct Hi as [Hi|Hi]; eauto.
  - apply in_run_Opt in Hi. destruct Hi as [Hi|E]; eauto.
    inversion E. reflexivity.
  - apply in_run_Rep in Hi. tauto.
  - apply in_run_Grp in Hi. destruct Hi as (c' & Hi & _). eauto.
  - apply in_run_Bol in Hi. destruct Hi as (_ & -> & _ & ->). reflexivity.
  - apply in_run_Eol in Hi. destruct Hi as (-> & -> & _ & ->). reflexivity.
Qed.

Lemma heads_Seq r1 r2 bol s u1 c1 s1 u2 c2 s2 :
  heads (run ic r1 bol s) (u1, c1, s1) ->
  heads (run ic r2 (bol && is_empty u1) s1) (u2, c2, s2) ->
  heads (run ic (Seq r1 r2) bol s) (u1 ++ u2, c1 ++ c2, s2).
Proof.
  intros [tl1 E1] [tl2 E2]. simpl. rewrite E1. simpl. rewrite E2. simpl.
  eexists. reflexivity.
Qed.

Lemma heads_Grp r bol s u c s' :
  heads (run ic r bol s) (u, c, s') ->
  heads (run ic (Grp r) bol s) (u, u :: c, s').
Proof. intros [tl E]. simpl. rewrite E. simpl. eexists. reflexivity. Qed.

Lemma heads_Cls cs bol x s :
  cls_match ic cs x = true ->
  heads (run ic (Cls cs) bol (x :: s)) ([x], [], s).
Proof. intros M. simpl. rewrite M. eexists. reflexivity. Qed.

Lemma heads_Chr a bol x s :
  chr_match ic a x = true ->
  heads (run ic (Chr a) bol (x :: s)) ([x], [], s).
Proof. intros M. simpl. rewrite M. eexists. reflexivity. Qed.

Lemma heads_Rep cs lo hi bol u rest :
  forallb (cls_match ic cs) u = true ->
  lo <= length u ->
  (forall h, hi = Some h -> length u <= h) ->
  (match rest with [] => True | x :: _ => cls_match ic cs x = false end
   \/ hi = Some (length u)) ->
  heads (run ic (Rep cs lo hi) bol (u ++ rest)) (u, [], rest).
Proof.
  intros Hu Hlo Hhi Hstop.
  destruct (rep_greedy (cls_match ic cs) lo hi u rest Hu Hlo Hhi Hstop) as [tl E].
  simpl. rewrite E. simpl. eexists. reflexivity.
Qed.

Lemma heads_Opt_some r bol s x :
  heads (run ic r bol s) x -> heads (run ic (Opt r) bol s) x.
Proof. intros [tl E]. simpl. rewrite E. simpl. eexists. reflexivity. Qed.

Lemma heads_Opt_none r bol s :
  run ic r bol s = [] -> heads (run ic (Opt r) bol s) ([], [], s).
Proof. intros E. simpl. rewrite E. simpl. eexists. reflexivity. Qed.

Lemma heads_Bol s : heads (run ic Bol true s) ([], [], s).
Proof. simpl. eexists. reflexivity. Qed.

Lemma heads_Eol bol : heads (run ic Eol bol []) ([], [], []).
Proof. simpl. eexists. reflexivity. Qed.

End Matcher.

Lemma regex_match_heads s re u c :
  heads (run (icase re) (pat re) true s) (u, c, []) ->
  regex_match s re = Some (mk_smatch [] u c []).
Proof. intros [tl E]. unfold regex_match. rewrite E. reflexivity. Qed.

Lemma regex_match_sound s re m :
  regex_match s re = Some m ->
  In (whole m, groups m, []) (run (icase re) (pat re) true s)
  /\ prefix m = [] /\ suffix m = [].
Proof.
  unfold regex_match.
  destruct (filter ends_input (run (icase re) (pat re) true s))
    as [|[[u c] rest] tl] eqn:F; [discriminate|].
  intros E. inversion E; subst. simpl.
  assert (Hi : In (u, c, rest) (filter ends_input (run (icase re) (pat re) true s))).
  { rewrite F. left. reflexivity. }
  apply filter_In in Hi. destruct Hi as [Hi He].
  unfold ends_input in He. simpl in He. destruct rest; [|discriminate]. auto.
Qed.

Lemma regex_match_none s re :
  (forall u c, ~ In (u, c, []) (run (icase re) (pat re) true s)) ->
  regex_match s re = None.
Proof.
  intros Hn. destruct (regex_match s re) as [m|] eqn:E; [|reflexivity].
  apply regex_match_sound in E. destruct E as [Hi _]. destruct (Hn _ _ Hi).
Qed.

Lemma search_from_heads re bol pre s u c rest :
  heads (run (icase re) (pat re) bol s) (u, c, rest) ->
  search_from re bol pre s = Some (mk_smatch pre u c rest).
Proof. intros [tl E]. destruct s; simpl; rewrite E; reflexivity. Qed.

Lemma search_from_sound re bol pre s m :
  search_from re bol pre s = Some m ->
  exists b skipped s',
    s = skipped ++ s'
    /\ In (whole m, groups m, suffix m) (run (icase re) (pat re) b s').
Proof.
  revert bol pre. induction s as [|x s IH]; intros bol pre; simpl.
  - destruct (run (icase re) (pat re) bol []) as [|[[u c] rest] tl] eqn:E;
      [discriminate|].
    intros Em. inversion Em; subst. simpl.
    exists bol, [], []. split; auto. rewrite E. left. reflexivity.
  - destruct (run (icase re) (pat re) bol (x :: s)) as [|[[u c] rest] tl] eqn:E.
    + intros Em. apply IH in Em. destruct Em as (b & sk & s' & -> & Hi).
      exists b, (x :: sk), s'. auto.
    + intros Em. inversion Em; subst. simpl.
      exists bol, [], (x :: s). split; auto. rewrite E. left. reflexivity.
Qed.

(** ** The token patterns *)

Lemma in_run_alias_name bol s u c rest :
  In (u, c, rest) (run true T_ALIAS_NAME bol s) ->
  c = [] /\ s = u ++ rest /\ is_alias_name u = true.
Proof.
  unfold T_ALIAS_NAME. rewrite in_run_Seq.
  intros (u1 & c1 & s1 & u2 & c2 & H1 & H2 & -> & ->).
  apply in_run_Cls in H1. destruct H1 as (x & -> & Mx & -> & ->).
  apply in_run_Rep in H2. destruct H2 as (-> & -> & Hu & _).
  cbn [app is_alias_name]. unfold alias_first_char, alias_char.
  rewrite Mx, Hu. auto.
Qed.

Lemma heads_alias_name bol a rest :
  is_alias_name a = true ->
  match rest with [] => True | x :: _ => alias_char x = false end ->
  heads (run true T_ALIAS_NAME bol (a ++ rest)) (a, [], rest).
Proof.
  destruct a as [|x a]; [discriminate|]. simpl.
  intros Ha Hr. apply andb_prop in Ha. destruct Ha as [Hx Ha].
  unfold T_ALIAS_NAME.
  apply (heads_Seq true (Cls alias_first) (Rep alias_more 0 None) bol
           (x :: a ++ rest) [x] [] (a ++ rest) a [] rest).
  - apply heads_Cls. exact Hx.
  - apply heads_Rep; [exact Ha | simpl; lia | discriminate | left; exact Hr].
Qed.

Lemma in_run_sernum bol s u c rest :
  In (u, c, rest) (run true T_SERNUM bol s) ->
  c = [] /\ s = u ++ rest /\ is_sernum u = true.
Proof.
  unfold T_SERNUM. intros Hi. apply in_run_Rep in Hi.
  destruct Hi as (-> & -> & Hu & Hlo & Hhi). specialize (Hhi 5 eq_refl).
  repeat split; auto. unfold is_sernum, sernum_char. rewrite Hu.
  replace (length u) with 5 by lia. reflexivity.
Qed.

Lemma is_sernum_length s : is_sernum s = true -> length s = 5.
Proof.
  unfold is_sernum. intros Hs. apply andb_prop in Hs. destruct Hs as [Hl _].
  apply Nat.eqb_eq in Hl. exact Hl.
Qed.

Lemma heads_sernum bol sn rest :
  is_sernum sn = true ->
  heads (run true T_SERNUM bol (sn ++ rest)) (sn, [], rest).
Proof.
  intros Hs. pose proof (is_sernum_length sn Hs) as Hl.
  unfold is_sernum in Hs. apply andb_prop in Hs. destruct Hs as [_ Hs].
  unfold T_SERNUM.
  apply heads_Rep;
    [exact Hs | lia | intros h E; inversion E; lia | right; rewrite Hl; reflexivity].
Qed.

Lemma heads_whole ic r s c :
  heads (run ic r true s) (s, c, []) ->
  heads (run ic (Seq Bol (Seq (Grp r) Eol)) true s) (s, s :: c, []).
Proof.
  intros [tl E]. unfold heads. simpl. rewrite E. simpl.
  rewrite !app_nil_r. eexists. reflexivity.
Qed.

Lemma in_whole ic r s u c :
  In (u, c, []) (run ic (Seq Bol (Seq (Grp r) Eol)) true s) ->
  exists c', In (s, c', []) (run ic r true s) /\ u = s /\ c = s :: c'.
Proof.
  intros Hi. apply in_run_Seq in Hi.
  destruct Hi as (u1 & c1 & s1 & u2 & c2 & H1 & H2 & -> & ->).
  apply in_run_Bol in H1. destruct H1 as (_ & -> & -> & ->).
  apply in_run_Seq in H2.
  destruct H2 as (u1 & c1 & s1 & u3 & c3 & H1 & H2 & -> & ->).
  apply in_run_Grp in H1. destruct H1 as (c' & H1 & ->).
  apply in_run_Eol in H2. destruct H2 as (-> & -> & -> & _).
  pose proof (run_sound _ _ _ _ _ _ _ H1) as Es. rewrite app_nil_r in Es. subst u1.
  exists c'. simpl. rewrite !app_nil_r. auto.
Qed.

Lemma matches_alias_name s : matches s regex_alias_name = is_alias_name s.
Proof.
  unfold matches. destruct (is_alias_name s) eqn:A.
  - rewrite (regex_match_heads s regex_alias_name s [s]); [reflexivity|].
    apply heads_whole.
    replace s with (s ++ []) at 1 by apply app_nil_r.
    apply heads_alias_name; auto.
  - rewrite regex_match_none; [reflexivity|].
    intros u c Hi. apply in_whole in Hi. destruct Hi as (c' & Hi & _).
    apply in_run_alias_name in Hi. destruct Hi as (_ & _ & Hu). congruence.
Qed.

Lemma matches_sernum s : matches s regex_sernum = is_sernum s.
Proof.
  unfold matches. destruct (is_sernum s) eqn:A.
  - rewrite (regex_match_heads s regex_sernum s [s]); [reflexivity|].
    apply heads_whole.
    replace s with (s ++ []) at 1 by apply app_nil_r.
    apply heads_sernum; auto.
  - rewrite regex_match_none; [reflexivity|].
    intros u c Hi. apply in_whole in Hi. destruct Hi as (c' & Hi & _).
    apply in_run_sernum in Hi. destruct Hi as (_ & _ & Hu). congruence.
Qed.

Lemma is_sernum_toupper s : is_sernum (str_toupper s) = is_sernum s.
Proof.
  unfold is_sernum, str_toupper. rewrite length_map. f_equal.
  induction s as [|x s IH]; simpl; [reflexivity|].
  rewrite IH. unfold sernum_char. rewrite cls_match_toupper. reflexivity.
Qed.

Lemma is_alias_name_toupper s : is_alias_name (str_toupper s) = is_alias_name s.
Proof.
  destruct s as [|x s]; simpl; [reflexivity|].
  unfold alias_first_char. rewrite cls_match_toupper. f_equal.
  induction s as [|y s IH]; simpl; [reflexivity|].
  rewrite IH. unfold alias_char. rewrite cls_match_toupper. reflexivity.
Qed.

Lemma str_toupper_idem s : str_toupper (str_toupper s) = str_toupper s.
Proof.
  unfold str_toupper. rewrite map_map. apply map_ext. apply toupper_idem.
Qed.

Lemma str_eqb_eq a b : str_eqb a b = true <-> a = b.
Proof.
  revert b. induction a as [|x a IH]; intros [|y b]; simpl;
    try (split; [discriminate|discriminate]); try tauto.
  rewrite andb_true_iff, Ascii.eqb_eq, IH. split.
  - intros [-> ->]. reflexivity.
  - intros E. inversion E. auto.
Qed.

Lemma str_eqb_refl a : str_eqb a a = true.
Proof. apply str_eqb_eq. reflexivity. Qed.

Lemma str_eqb_neq a b : str_eqb a b = false <-> a <> b.
Proof.
  destruct (str_eqb a b) eqn:E.
  - apply str_eqb_eq in E. split; [discriminate|congruence].
  - split; auto. intros _ Eab. apply str_eqb_eq in Eab. congruence.
Qed.

(** ** The registry pattern *)

Lemma in_run_registry bol s u c rest :
  In (u, c, rest) (run true (pat regex_alias_registry) bol s) ->
  exists a sn,
    c = [a; sn] /\ is_alias_name a = true /\ is_sernum sn = true
    /\ s = u ++ rest /\ u <> [].
Proof.
  simpl pat. rewrite in_run_Seq.
  intros (u1 & c1 & s1 & u2 & c2 & H1 & H2 & -> & ->).
  apply in_run_Grp in H1. destruct H1 as (c' & H1 & ->).
  apply in_run_alias_name in H1. destruct H1 as (-> & -> & Ha).
  apply in_run_Seq in H2.
  destruct H2 as (u3 & c3 & s3 & u4 & c4 & H3 & H4 & -> & ->).
  apply in_run_Cls in H3. destruct H3 as (x & -> & Mx & -> & ->).
  apply in_run_Seq in H4.
  destruct H4 as (u5 & c5 & s5 & u6 & c6 & H5 & H6 & -> & ->).
  apply in_run_Grp in H5. destruct H5 as (c'' & H5 & ->).
  apply in_run_sernum in H5. destruct H5 as (-> & -> & Hs).
  apply in_run_Opt in H6.
  exists u1, u5. simpl.
  assert (Hc : c6 = [] /\ s5 = u6 ++ rest).
  { destruct H6 as [H6|E].
    - apply in_run_Chr in H6. destruct H6 as (y & -> & _ & -> & ->). auto.
    - inversion E; subst. auto. }
  destruct Hc as [-> ->]. repeat split; auto.
  - rewrite <- ?app_assoc. simpl. rewrite <- ?app_assoc. reflexivity.
  - destruct u1; discriminate.
Qed.

Lemma heads_registry bol a sep sn rest :
  is_alias_name a = true ->
  cls_match true sep_eq_colon sep = true ->
  is_sernum sn = true ->
  exists u,
    heads (run true (pat regex_alias_registry) bol (a ++ sep :: sn ++ rest))
          (u, [a; sn], after_entry rest).
Proof.
  intros Ha Hsep Hs. simpl pat.
  assert (Hopt : exists u6,
             heads (run true (Opt (Chr ",")) (bol && is_empty a && false && is_empty sn) rest)
                   (u6, [], after_entry rest)).
  { destruct rest as [|y rest]; simpl after_entry.
    - exists []. apply heads_Opt_none. reflexivity.
    - destruct (chr_match true "," y) eqn:My.
      + exists [y]. apply heads_Opt_some. apply heads_Chr. exact My.
      + exists []. apply heads_Opt_none. simpl. rewrite My. reflexivity. }
  destruct Hopt as [u6 Hopt].
  exists (a ++ [sep] ++ sn ++ u6).
  apply (heads_Seq true (Grp T_ALIAS_NAME) _ bol _ a [a] (sep :: sn ++ rest)
           ([sep] ++ sn ++ u6) [sn] (after_entry rest)).
  - apply heads_Grp. apply heads_alias_name; auto.
    destruct (alias_char sep) eqn:E; auto.
    apply alias_char_not_sep in E. congruence.
  - apply (heads_Seq true (Cls sep_eq_colon) _ _ _ [sep] [] (sn ++ rest)
             (sn ++ u6) [sn] (after_entry rest)).
    + apply heads_Cls. exact Hsep.
    + apply (heads_Seq true (Grp T_SERNUM) (Opt (Chr ",")) _ _ sn [sn] rest
               u6 [] (after_entry rest)).
      * apply heads_Grp. apply heads_sernum. exact Hs.
      * simpl is_empty. rewrite andb_false_r in *. simpl in *. exact Hopt.
Qed.

Lemma search_registry_sound s m :
  regex_search s regex_alias_registry = Some m ->
  is_alias_name (sub m 1) = true /\ is_sernum (sub m 2) = true
  /\ length (suffix m) < length s.
Proof.
  unfold regex_search. intros E. apply search_from_sound in E.
  destruct E as (b & sk & s' & -> & Hi).
  apply in_run_registry in Hi.
  destruct Hi as (a & sn & Hg & Ha & Hs & -> & Hu).
  unfold sub. rewrite Hg. simpl. repeat split; auto.
  rewrite !length_app. destruct (whole m); [congruence|]. simpl. lia.
Qed.

Lemma search_registry_entry a sep sn rest :
  is_alias_name a = true ->
  cls_match true sep_eq_colon sep = true ->
  is_sernum sn = true ->
  exists m,
    regex_search (a ++ sep :: sn ++ rest) regex_alias_registry = Some m
    /\ sub m 1 = a /\ sub m 2 = sn /\ suffix m = after_entry rest.
Proof.
  intros Ha Hsep Hs.
  destruct (heads_registry true a sep sn rest Ha Hsep Hs) as [u Hh].
  eexists. split.
  - unfold regex_search. apply search_from_heads. exact Hh.
  - simpl. auto.
Qed.

(** ** The loops over the stored string *)

Lemma while_search_fuel (A : Type) (body : smatch -> A -> A + A) fuel1 :
  forall fuel2 s acc,
    length s < fuel1 -> length s < fuel2 ->
    while_search fuel1 regex_alias_registry body s acc
    = while_search fuel2 regex_alias_registry body s acc
    /\ while_search fuel1 regex_alias_registry body s acc <> None.
Proof.
  induction fuel1 as [|f1 IH]; intros fuel2 s acc L1 L2; [lia|].
  destruct fuel2 as [|f2]; [lia|]. simpl.
  destruct (regex_search s regex_alias_registry) as [m|] eqn:E;
    [|split; [reflexivity|discriminate]].
  destruct (body m acc) as [acc'|acc']; [|split; [reflexivity|discriminate]].
  apply search_registry_sound in E. destruct E as (_ & _ & Hl).
  apply IH; lia.
Qed.

(** The loops always end: the fuel given by [loop_fuel] is enough. *)
Lemma run_loop_terminates (A : Type) (body : smatch -> A -> A + A) s acc :
  while_search (loop_fuel s) regex_alias_registry body s acc = Some (run_loop body s acc).
Proof.
  unfold run_loop.
  destruct (while_search_fuel A body (loop_fuel s) (loop_fuel s) s acc) as [_ Hn];
    try (unfold loop_fuel; lia).
  destruct (while_search (loop_fuel s) regex_alias_registry body s acc) eqn:E;
    [reflexivity|congruence].
Qed.

Lemma run_loop_none (A : Type) (body : smatch -> A -> A + A) s acc :
  regex_search s regex_alias_registry = None ->
  run_loop body s acc = acc.
Proof. intros E. unfold run_loop, loop_fuel. simpl. rewrite E. reflexivity. Qed.

Lemma run_loop_step (A : Type) (body : smatch -> A -> A + A) s acc m :
  regex_search s regex_alias_registry = Some m ->
  run_loop body s acc
  = match body m acc with
    | inl acc' => run_loop body (suffix m) acc'
    | inr acc' => acc'
    end.
Proof.
  intros E. unfold run_loop at 1. unfold loop_fuel. simpl. rewrite E.
  destruct (body m acc) as [acc'|acc']; [|reflexivity].
  apply search_registry_sound in E. destruct E as (_ & _ & Hl).
  destruct (while_search_fuel A body (length s) (loop_fuel (suffix m)) (suffix m) acc')
    as [Ef _]; unfold loop_fuel; try lia.
  rewrite Ef. fold (loop_fuel (suffix m)). rewrite run_loop_terminates. reflexivity.
Qed.

(** Induction along the matches of the registry pattern. *)
Lemma registry_ind (P : str -> Prop) :
  (forall s, regex_search s regex_alias_registry = None -> P s) ->
  (forall s m, regex_search s regex_alias_registry = Some m -> P (suffix m) -> P s) ->
  forall s, P s.
Proof.
  intros Hnone Hstep s.
  remember (length s) as n eqn:En. revert s En.
  induction n as [n IH] using lt_wf_ind. intros s ->.
  destruct (regex_search s regex_alias_registry) as [m|] eqn:E; [|auto].
  apply (Hstep s m E). apply (IH (length (suffix m))); [|reflexivity].
  apply search_registry_sound in E. tauto.
Qed.

Lemma entries_acc s : forall acc, run_loop entries_body s acc = acc ++ entries s.
Proof.
  induction s as [s E|s m E IH] using registry_ind; intros acc.
  - unfold entries. rewrite !run_loop_none by exact E. rewrite app_nil_r. reflexivity.
  - unfold entries. rewrite !(run_loop_step _ entries_body s _ m E).
    unfold entries_body at 1 3. rewrite !IH. simpl. rewrite <- app_assoc. reflexivity.
Qed.

Lemma entries_none s :
  regex_search s regex_alias_registry = None -> entries s = [].
Proof. intros E. unfold entries. apply run_loop_none. exact E. Qed.

Lemma entries_step s m :
  regex_search s regex_alias_registry = Some m ->
  entries s = (sub m 1, sub m 2) :: entries (suffix m).
Proof.
  intros E. unfold entries at 1. rewrite (run_loop_step _ entries_body s _ m E).
  unfold entries_body. rewrite entries_acc. reflexivity.
Qed.

Lemma entries_nil : entries [] = [].
Proof. apply entries_none. reflexivity. Qed.

(** Whatever the stored string, the entries read from it are well formed. *)
Lemma entries_valid s : Forall (fun e => is_entry e = true) (entries s).
Proof.
  induction s as [s E|s m E IH] using registry_ind.
  - rewrite entries_none by exact E. constructor.
  - rewrite (entries_step s m E). constructor; [|exact IH].
    apply search_registry_sound in E. destruct E as (Ha & Hs & _).
    unfold is_entry. cbn [fst snd]. rewrite Ha, Hs. reflexivity.
Qed.

(** An entry at the head of the string is the first one read. *)
Lemma entries_cons a sn rest :
  is_alias_name a = true -> is_sernum sn = true ->
  entries (a ++ "=" :: sn ++ rest) = (a, sn) :: entries (after_entry rest).
Proof.
  intros Ha Hs.
  destruct (search_registry_entry a "=" sn rest Ha eq_refl Hs)
    as (m & E & E1 & E2 & E3).
  rewrite (entries_step _ m E), E1, E2, E3. reflexivity.
Qed.

Ltac str_norm :=
  repeat first [rewrite <- app_assoc | rewrite app_nil_r | progress simpl];
  try reflexivity.

Lemma run_loop_fold (A : Type) (body : smatch -> A -> A + A)
    (f : A -> str * str -> A) :
  (forall m acc, body m acc = inl (f acc (sub m 1, sub m 2))) ->
  forall s acc, run_loop body s acc = fold_left f (entries s) acc.
Proof.
  intros Hb s.
  induction s as [s E|s m E IH] using registry_ind; intros acc.
  - rewrite run_loop_none, entries_none by exact E. reflexivity.
  - rewrite (run_loop_step _ body s acc m E), (entries_step s m E), Hb, IH.
    reflexivity.
Qed.

Lemma fold_remove_step alias l : forall acc found,
  fold_left (remove_step alias) l (acc, found)
  = (fold_left append_entry (filter (keeps alias) l) acc,
     found || has_alias alias l).
Proof.
  induction l as [|e l IH]; intros acc found; simpl.
  - rewrite orb_false_r. reflexivity.
  - unfold remove_step at 2, keeps at 1. simpl.
    destruct (str_eqb alias (fst e)); simpl; rewrite IH.
    + rewrite orb_true_r. reflexivity.
    + reflexivity.
Qed.

Lemma append_entry_not_empty acc e : is_empty (append_entry acc e) = false.
Proof.
  unfold append_entry.
  destruct (negb (is_empty acc)); destruct acc; destruct (fst e); reflexivity.
Qed.

Lemma fold_append_entry l : forall acc,
  is_empty acc = false ->
  fold_left append_entry l acc
  = acc ++ (match l with [] => [] | _ => lit "," ++ join_entries l end).
Proof.
  induction l as [|[a s] l IH]; intros acc Hacc; simpl.
  - rewrite app_nil_r. reflexivity.
  - rewrite IH by apply append_entry_not_empty.
    unfold append_entry. rewrite Hacc. simpl.
    destruct l as [|e l]; str_norm.
Qed.

Lemma fold_append_join l : fold_left append_entry l [] = join_entries l.
Proof.
  destruct l as [|[a s] l]; simpl; [reflexivity|].
  rewrite fold_append_entry by apply append_entry_not_empty.
  unfold append_entry. simpl.
  destruct l as [|e l]; str_norm.
Qed.

Lemma RemoveAlias_loop alias s :
  run_loop (RemoveAlias_body alias) s ([], false)
  = (join_entries (filter (keeps alias) (entries s)), has_alias alias (entries s)).
Proof.
  rewrite (run_loop_fold _ (RemoveAlias_body alias) (remove_step alias)).
  - rewrite fold_remove_step, fold_append_join. reflexivity.
  - intros m [acc found]. unfold RemoveAlias_body, remove_step, append_entry.
    cbn [fst snd]. destruct (str_eqb alias (sub m 1)); reflexivity.
Qed.

Lemma GetAliasSernum_loop key s : forall st,
  run_loop (GetAliasSernum_body key) s st
  = match lookup key (entries s) with
    | Some sernum => (sernum, true)
    | None => st
    end.
Proof.
  induction s as [s E|s m E IH] using registry_ind; intros st.
  - rewrite run_loop_none, entries_none by exact E. reflexivity.
  - rewrite (run_loop_step _ _ s st m E), (entries_step s m E).
    unfold GetAliasSernum_body at 1, lookup. cbn [find fst snd].
    destruct (str_eqb key (sub m 1)); [reflexivity|].
    rewrite IH. reflexivity.
Qed.

Lemma fold_list_step l : forall out found,
  fold_left list_step l (out, found, false)
  = (out ++ match l with [] => [] | _ => endl ++ list_text l end,
     found || negb (is_empty l), false).
Proof.
  induction l as [|[a s] l IH]; intros out found; simpl.
  - rewrite app_nil_r, orb_false_r. reflexivity.
  - rewrite IH. rewrite orb_true_r.
    destruct l as [|e l]; str_norm.
Qed.

Lemma ListAlias_loop s :
  run_loop ListAlias_body s ([], false, true)
  = (list_text (entries s), negb (is_empty (entries s)), is_empty (entries s)).
Proof.
  rewrite (run_loop_fold _ ListAlias_body list_step).
  - destruct (entries s) as [|[a sn] l]; [reflexivity|].
    simpl fold_left. rewrite fold_list_step.
    destruct l as [|e l]; str_norm.
  - intros m [[out found] first]. reflexivity.
Qed.

(** ** The registry *)

Lemma firstn_fits s : fits s -> firstn MAX_SZ_RESULT_LENGTH s = s.
Proof. unfold fits. intros Hs. apply firstn_all2. lia. Qed.

Lemma RegGetValueW_some r v :
  RegGetValueW r = Some v -> reg_value r = Some v /\ fits v.
Proof.
  unfold RegGetValueW, fits. destruct (reg_value r) as [v'|]; [|discriminate].
  destruct (Nat.ltb (length v') MAX_SZ_RESULT_LENGTH) eqn:E; [|discriminate].
  intros Ev. inversion Ev; subst. apply Nat.ltb_lt in E. auto.
Qed.

Lemma RegGetValueW_fits v w log :
  fits v -> RegGetValueW (mk_registry (Some v) w log) = Some v.
Proof.
  unfold RegGetValueW, fits. simpl. intros Hv.
  apply Nat.ltb_lt in Hv. rewrite Hv. reflexivity.
Qed.

Lemma ReadRegSZ_eq r : ReadRegSZ [] r = (read_ok r, stored r, after_read r).
Proof.
  unfold read_ok, stored, after_read.
  destruct (ReadRegSZ [] r) as [[ok v] r']. reflexivity.
Qed.

(** A read that finds a string returns it and changes nothing. *)
Lemma read_found r v :
  RegGetValueW r = Some v ->
  stored r = v /\ read_ok r = true /\ after_read r = r.
Proof.
  intros E. unfold stored, read_ok, after_read, ReadRegSZ. rewrite E.
  apply RegGetValueW_some in E. destruct E as [_ Hv].
  unfold wcstombs_s. rewrite firstn_fits by exact Hv. auto.
Qed.

(** A read that finds none stores the empty default, when it can. *)
Lemma read_missing r :
  RegGetValueW r = None ->
  stored r = [] /\ read_ok r = reg_writable r
  /\ after_read r
     = if reg_writable r
       then mk_registry (Some []) true (reg_log r ++ [DefaultCreated []])
       else r.
Proof.
  intros E. unfold stored, read_ok, after_read, ReadRegSZ. rewrite E.
  destruct (reg_writable r); auto.
Qed.

Lemma stored_fits r : fits (stored r).
Proof.
  destruct (RegGetValueW r) as [v|] eqn:E.
  - destruct (read_found r v E) as (-> & _). apply RegGetValueW_some in E. tauto.
  - destruct (read_missing r E) as (-> & _). unfold fits. simpl.
    unfold MAX_SZ_RESULT_LENGTH. lia.
Qed.

Lemma stored_value v w log : fits v -> stored (mk_registry (Some v) w log) = v.
Proof.
  intros Hv. apply (read_found _ v). apply RegGetValueW_fits. exact Hv.
Qed.

Lemma read_failed r : read_ok r = false -> stored r = [].
Proof.
  destruct (RegGetValueW r) as [v|] eqn:E.
  - destruct (read_found r v E) as (_ & -> & _). discriminate.
  - destruct (read_missing r E) as (-> & _). reflexivity.
Qed.

Lemma stored_after_read r : stored (after_read r) = stored r.
Proof.
  destruct (RegGetValueW r) as [v|] eqn:E.
  - destruct (read_found r v E) as (_ & _ & ->). reflexivity.
  - destruct (read_missing r E) as (-> & _ & ->).
    destruct (reg_writable r).
    + apply stored_value. unfold fits, MAX_SZ_RESULT_LENGTH. simpl. lia.
    + apply (read_missing r E).
Qed.

Lemma persisted_after_read r : persisted (after_read r) = persisted r.
Proof. unfold persisted. rewrite stored_after_read. reflexivity. Qed.

Lemma writable_after_read r : reg_writable (after_read r) = reg_writable r.
Proof.
  destruct (RegGetValueW r) as [v|] eqn:E.
  - destruct (read_found r v E) as (_ & _ & ->). reflexivity.
  - destruct (read_missing r E) as (_ & _ & ->).
    destruct (reg_writable r) eqn:W; [reflexivity|exact W].
Qed.

Lemma writes_app l1 l2 : writes (l1 ++ l2) = writes l1 ++ writes l2.
Proof.
  induction l1 as [|[v|v] l1 IH]; simpl; [reflexivity|exact IH|].
  rewrite IH. reflexivity.
Qed.

Lemma writes_after_read r : writes (reg_log (after_read r)) = writes (reg_log r).
Proof.
  destruct (RegGetValueW r) as [v|] eqn:E.
  - destruct (read_found r v E) as (_ & _ & ->). reflexivity.
  - destruct (read_missing r E) as (_ & _ & ->).
    destruct (reg_writable r); [|reflexivity].
    simpl. rewrite writes_app. simpl. apply app_nil_r.
Qed.

Lemma read_ok_writable r : reg_writable r = true -> read_ok r = true.
Proof.
  intros W. destruct (RegGetValueW r) as [v|] eqn:E.
  - apply (read_found r v E).
  - destruct (read_missing r E) as (_ & -> & _). exact W.
Qed.

(** A string that fits is stored whole by a write that succeeds. *)
Lemma write_fits v r :
  reg_writable r = true -> fits v ->
  stored (snd (WriteRegSZ v r)) = v
  /\ reg_value (snd (WriteRegSZ v r)) = Some v
  /\ reg_writable (snd (WriteRegSZ v r)) = true.
Proof.
  intros W Hv. unfold WriteRegSZ. rewrite W. cbn [snd reg_value reg_writable].
  unfold mbstowcs_s. rewrite firstn_fits by exact Hv.
  split; [|auto]. apply stored_value. exact Hv.
Qed.

(** ** The alias operations in terms of entries *)

Lemma RemoveAlias_eq alias r :
  RemoveAlias alias r
  = if read_ok r && has_alias (str_toupper alias) (persisted r)
    then snd (WriteRegSZ
                (join_entries (filter (keeps (str_toupper alias)) (persisted r)))
                (after_read r))
    else after_read r.
Proof.
  unfold RemoveAlias, persisted. rewrite ReadRegSZ_eq.
  destruct (read_ok r); [|reflexivity].
  rewrite RemoveAlias_loop. reflexivity.
Qed.

Lemma AssignAlias_eq alias sernum r :
  AssignAlias alias sernum r
  = let r1 := RemoveAlias (str_toupper alias) r in
    snd (WriteRegSZ
           (if read_ok r1
            then str_toupper alias ++ lit "=" ++ str_toupper sernum
                 ++ (if is_empty (stored r1) then [] else lit ",") ++ stored r1
            else stored r1)
           (after_read r1)).
Proof.
  unfold AssignAlias. rewrite ReadRegSZ_eq. reflexivity.
Qed.

Lemma GetAliasSernum_eq token r :
  GetAliasSernum token r
  = (match lookup (str_toupper token) (persisted r) with
     | Some sernum => sernum
     | None => if is_sernum (str_toupper token) then str_toupper token else []
     end, after_read r).
Proof.
  unfold GetAliasSernum, persisted. rewrite ReadRegSZ_eq, matches_sernum.
  destruct (read_ok r) eqn:Ok.
  - rewrite GetAliasSernum_loop.
    destruct (lookup (str_toupper token) (entries (stored r))); reflexivity.
  - rewrite (read_failed r Ok), entries_nil. reflexivity.
Qed.

Lemma ListAlias_eq r :
  ListAlias r
  = (after_read r,
     match persisted r with
     | [] => lit "No aliases defined" ++ endl
     | l => list_text l
     end).
Proof.
  unfold ListAlias, persisted. rewrite ReadRegSZ_eq.
  destruct (read_ok r) eqn:Ok.
  - rewrite ListAlias_loop. destruct (entries (stored r)); reflexivity.
  - rewrite (read_failed r Ok), entries_nil. reflexivity.
Qed.

(** Reading back what the writers build. *)
Lemma entries_join l :
  Forall (fun e => is_entry e = true) l -> entries (join_entries l) = l.
Proof.
  induction l as [|[a sn] l IH]; intros Hl; [apply entries_nil|].
  inversion Hl as [|e l' He Hl']; subst.
  unfold is_entry in He. simpl in He. apply andb_prop in He. destruct He as [Ha Hs].
  destruct l as [|e l].
  - change (join_entries [(a, sn)]) with (a ++ "=" :: sn).
    replace (a ++ "=" :: sn) with (a ++ "=" :: sn ++ [])
      by (rewrite app_nil_r; reflexivity).
    rewrite (entries_cons a sn [] Ha Hs). simpl. rewrite entries_nil. reflexivity.
  - change (join_entries ((a, sn) :: e :: l))
      with (a ++ "=" :: sn ++ "," :: join_entries (e :: l)).
    rewrite entries_cons by assumption.
    change (after_entry ("," :: join_entries (e :: l))) with (join_entries (e :: l)).
    rewrite IH by assumption. reflexivity.
Qed.

Lemma filter_keeps_id alias l :
  has_alias alias l = false -> filter (keeps alias) l = l.
Proof.
  induction l as [|e l IH]; simpl; [reflexivity|].
  unfold keeps at 1. destruct (str_eqb alias (fst e)); simpl; [discriminate|].
  intros Hl. rewrite IH by exact Hl. reflexivity.
Qed.

Lemma has_alias_filter alias l : has_alias alias (filter (keeps alias) l) = false.
Proof.
  induction l as [|e l IH]; simpl; [reflexivity|].
  unfold keeps at 1. destruct (str_eqb alias (fst e)) eqn:E; simpl; [exact IH|].
  rewrite E. exact IH.
Qed.

Lemma Forall_filter_entries (f : str * str -> bool) l :
  Forall (fun e => is_entry e = true) l ->
  Forall (fun e => is_entry e = true) (filter f l).
Proof.
  intros Hl. apply Forall_forall. intros e He. apply filter_In in He.
  destruct He as [He _]. rewrite Forall_forall in Hl. auto.
Qed.

Lemma join_entries_not_empty e l : is_empty (join_entries (e :: l)) = false.
Proof. destruct e as [[|c a] s]; destruct l; reflexivity. Qed.

Lemma join_entries_cons a s l :
  join_entries ((a, s) :: l)
  = a ++ lit "=" ++ s ++ (if is_empty (join_entries l) then [] else lit ",")
    ++ join_entries l.
Proof.
  destruct l as [|e l].
  - simpl. rewrite app_nil_r. reflexivity.
  - rewrite join_entries_not_empty. reflexivity.
Qed.

Lemma length_join_cons a s l :
  length (join_entries ((a, s) :: l))
  = length a + 1 + length s
    + match l with [] => 0 | _ => 1 + length (join_entries l) end.
Proof.
  destruct l as [|e l].
  - simpl. rewrite length_app. simpl. lia.
  - change (join_entries ((a, s) :: e :: l))
      with (a ++ "=" :: s ++ "," :: join_entries (e :: l)).
    rewrite length_app. simpl. rewrite length_app. simpl. lia.
Qed.

Lemma length_join_tail e l :
  length (join_entries l) <= length (join_entries (e :: l)).
Proof.
  destruct e as [a s]. rewrite length_join_cons. destruct l; simpl; lia.
Qed.

Lemma length_join_filter (f : str * str -> bool) l :
  length (join_entries (filter f l)) <= length (join_entries l).
Proof.
  induction l as [|[a s] l IH]; [simpl; lia|].
  cbn [filter]. destruct (f (a, s)).
  - rewrite !length_join_cons.
    destruct (filter f l) as [|e' l'] eqn:Ef; destruct l as [|e l]; try lia.
    simpl in Ef. discriminate.
  - pose proof (length_join_tail (a, s) l). lia.
Qed.

(** On a registry that holds a well-formed list, [RemoveAlias] leaves the
    list without the entries of the alias. *)
Lemma RemoveAlias_wf alias r l :
  reg_writable r = true ->
  stored r = join_entries l ->
  Forall (fun e => is_entry e = true) l ->
  stored (RemoveAlias alias r) = join_entries (filter (keeps (str_toupper alias)) l)
  /\ reg_writable (RemoveAlias alias r) = true.
Proof.
  intros W St Hl.
  assert (P : persisted r = l).
  { unfold persisted. rewrite St. apply entries_join. exact Hl. }
  rewrite RemoveAlias_eq, P, (read_ok_writable r W). cbn [andb].
  destruct (has_alias (str_toupper alias) l) eqn:F.
  - destruct (write_fits (join_entries (filter (keeps (str_toupper alias)) l))
                (after_read r)) as (S' & _ & W').
    + rewrite writable_after_read. exact W.
    + pose proof (stored_fits r) as Hf. rewrite St in Hf. unfold fits in *.
      pose proof (length_join_filter (keeps (str_toupper alias)) l). lia.
    + auto.
  - rewrite stored_after_read, writable_after_read, St, filter_keeps_id by exact F.
    auto.
Qed.

(** On such a registry [AssignAlias] puts the new entry in front of the
    others, as long as the new string fits. *)
Lemma AssignAlias_wf alias sernum r l :
  reg_writable r = true ->
  stored r = join_entries l ->
  Forall (fun e => is_entry e = true) l ->
  fits (join_entries ((str_toupper alias, str_toupper sernum)
                        :: filter (keeps (str_toupper alias)) l)) ->
  stored (AssignAlias alias sernum r)
  = join_entries ((str_toupper alias, str_toupper sernum)
                    :: filter (keeps (str_toupper alias)) l)
  /\ reg_writable (AssignAlias alias sernum r) = true.
Proof.
  intros W St Hl Hf. rewrite AssignAlias_eq. cbv zeta.
  destruct (RemoveAlias_wf (str_toupper alias) r l W St Hl) as [S1 W1].
  rewrite str_toupper_idem in S1.
  set (r1 := RemoveAlias (str_toupper alias) r) in *.
  rewrite (read_ok_writable r1 W1), S1, <- join_entries_cons.
  destruct (write_fits
              (join_entries ((str_toupper alias, str_toupper sernum)
                               :: filter (keeps (str_toupper alias)) l))
              (after_read r1)) as (S' & _ & W'); auto.
  rewrite writable_after_read. exact W1.
Qed.

Lemma well_formed_entry e : well_formed e -> is_entry (upper_entry e) = true.
Proof.
  unfold well_formed, is_entry, upper_entry. simpl.
  rewrite matches_alias_name, matches_sernum.
  rewrite is_alias_name_toupper, is_sernum_toupper. intros [-> ->]. reflexivity.
Qed.

Lemma lookup_filter_head key v l :
  lookup key ((key, v) :: l) = Some v.
Proof. unfold lookup. simpl. rewrite str_eqb_refl. reflexivity. Qed.

Lemma count_alias_filter key l : count_alias key (filter (keeps key) l) = 0.
Proof.
  unfold count_alias. induction l as [|e l IH]; simpl; [reflexivity|].
  unfold keeps at 1. destruct (str_eqb key (fst e)) eqn:E; simpl; [exact IH|].
  rewrite E. exact IH.
Qed.

Lemma has_alias_false key l :
  has_alias key l = false <-> (forall e, In e l -> fst e <> key).
Proof.
  unfold has_alias. induction l as [|e l IH]; simpl.
  - split; [intros _ e []|reflexivity].
  - rewrite orb_false_iff, IH, str_eqb_neq. split.
    + intros [Hn Hl] x [<-|Hx]; [congruence|auto].
    + intros Hall. split; [|auto].
      intros E. apply (Hall e); [left; reflexivity|congruence].
Qed.

Lemma lookup_none key l : has_alias key l = false -> lookup key l = None.
Proof.
  unfold lookup, has_alias. induction l as [|e l IH]; simpl; [reflexivity|].
  destruct (str_eqb key (fst e)); simpl; [discriminate|exact IH].
Qed.

Lemma has_alias_in key l : has_alias key l = true -> In key (map fst l).
Proof.
  unfold has_alias. induction l as [|e l IH]; simpl; [discriminate|].
  destruct (str_eqb key (fst e)) eqn:E; simpl.
  - apply str_eqb_eq in E. auto.
  - auto.
Qed.

Lemma is_sernum_length_toupper s : is_sernum s = true -> length (str_toupper s) = 5.
Proof.
  intros Hs. unfold str_toupper. rewrite length_map. apply is_sernum_length. exact Hs.
Qed.

(** ** Claims about the alias list *)

(** C1, as stated, fails for an alias too long for the buffers of
    [EasyRegistry.cpp]: the string [AssignAlias] builds for an alias of 250
    characters is cut by [WriteRegSZ], the next read cannot get it back and
    stores the empty default, and after the two assignments there is no
    entry for the alias, which [GetAliasSernum] resolves to the empty
    string. *)
Lemma C1_counterexample :
  let A := repeat "A" 250 in
  let r := mk_registry None true [] in
  let r2 := AssignAlias A (lit "5XARZ") (AssignAlias A (lit "6QMBS") r) in
  matches A regex_alias_name = true
  /\ count_alias A (persisted r2) = 0
  /\ fst (GetAliasSernum A r2) = []
  /\ fst (GetAliasSernum A r2) <> lit "5XARZ".
Proof. vm_compute. repeat split. discriminate. Qed.

(** C1, amended.  For every alias [A] and serial numbers [S1], [S2], on a
    writable registry holding a list [l] of entries, provided the list with
    the new entry for [A] put in front of the others fits the buffers (is
    shorter than 255 characters): after [AssignAlias A S1] and then
    [AssignAlias A S2], the removal done by the second assignment has left
    no entry for [A], the persisted list is the new entry followed by the
    entries of [l] for other aliases, it holds exactly one entry for [A],
    and [GetAliasSernum A] returns [S2] in its stored upper-case form, which
    is [S2] itself when [S2] is written in upper case. *)
Theorem C1_reassign_last_wins (A S1 S2 : str) (l : list (str * str)) (r : registry) :
  matches A regex_alias_name = true ->
  matches S1 regex_sernum = true ->
  matches S2 regex_sernum = true ->
  reg_writable r = true ->
  stored r = join_entries l ->
  Forall (fun e => is_entry e = true) l ->
  fits (join_entries ((str_toupper A, str_toupper S1)
                        :: filter (keeps (str_toupper A)) l)) ->
  let r1 := AssignAlias A S1 r in
  let r2 := AssignAlias A S2 r1 in
  has_alias (str_toupper A) (persisted (RemoveAlias (str_toupper A) r1)) = false
  /\ persisted r2
     = (str_toupper A, str_toupper S2) :: filter (keeps (str_toupper A)) l
  /\ count_alias (str_toupper A) (persisted r2) = 1
  /\ fst (GetAliasSernum A r2) = str_toupper S2
  /\ (str_toupper S2 = S2 -> fst (GetAliasSernum A r2) = S2).
Proof.
  rewrite matches_alias_name, !matches_sernum. intros HA H1 H2 W St Hl Hf r1 r2.
  set (A' := str_toupper A) in *. set (rest := filter (keeps A') l) in *.
  assert (Hrest : Forall (fun e => is_entry e = true) rest)
    by (apply Forall_filter_entries; exact Hl).
  assert (Hent : forall S, is_sernum S = true ->
                   Forall (fun e => is_entry e = true) ((A', str_toupper S) :: rest)).
  { intros S HS. constructor; [|exact Hrest]. unfold is_entry, A'. simpl.
    rewrite is_alias_name_toupper, is_sernum_toupper, HA, HS. reflexivity. }
  assert (Hkeep : filter (keeps A') rest = rest)
    by (apply filter_keeps_id, has_alias_filter).
  destruct (AssignAlias_wf A S1 r l W St Hl Hf) as [St1 W1]. fold r1 A' rest in St1, W1.
  assert (Hrm : filter (keeps A') ((A', str_toupper S1) :: rest) = rest).
  { cbn [filter]. unfold keeps at 1. simpl. rewrite str_eqb_refl. exact Hkeep. }
  assert (Hf2 : fits (join_entries ((A', str_toupper S2)
                                      :: filter (keeps A') ((A', str_toupper S1) :: rest)))).
  { rewrite Hrm. unfold fits in *. rewrite length_join_cons in *.
    rewrite (is_sernum_length_toupper S1 H1) in Hf.
    rewrite (is_sernum_length_toupper S2 H2). exact Hf. }
  destruct (AssignAlias_wf A S2 r1 _ W1 St1 (Hent S1 H1) Hf2) as [St2 W2].
  fold r2 A' in St2, W2. rewrite Hrm in St2.
  assert (P2 : persisted r2 = (A', str_toupper S2) :: rest).
  { unfold persisted. rewrite St2. apply entries_join. apply Hent. exact H2. }
  assert (G : fst (GetAliasSernum A r2) = str_toupper S2).
  { rewrite GetAliasSernum_eq, P2. simpl fst. fold A'.
    rewrite lookup_filter_head. reflexivity. }
  repeat split.
  - destruct (RemoveAlias_wf A' r1 _ W1 St1 (Hent S1 H1)) as [SR _].
    unfold persisted. rewrite SR. unfold A'. rewrite str_toupper_idem. fold A'.
    rewrite Hrm, entries_join by exact Hrest. apply has_alias_filter.
  - exact P2.
  - rewrite P2. unfold count_alias. simpl. rewrite str_eqb_refl. simpl.
    f_equal. apply count_alias_filter.
  - exact G.
  - intros E. rewrite G. exact E.
Qed.

Lemma C1_witness :
  let r := mk_registry (Some (lit "#1=6QMBS,#2=AAAAA")) true [] in
  let r2 := AssignAlias (lit "#1") (lit "5xarz") (AssignAlias (lit "#1") (lit "6VXAT") r) in
  persisted r2 = [(lit "#1", lit "5XARZ"); (lit "#2", lit "AAAAA")]
  /\ count_alias (lit "#1") (persisted r2) = 1
  /\ fst (GetAliasSernum (lit "#1") r2) = lit "5XARZ".
Proof.
  intros r r2.
  assert (Hl : Forall (fun e => is_entry e = true)
                 [(lit "#1", lit "6QMBS"); (lit "#2", lit "AAAAA")])
    by (repeat constructor).
  assert (Hf : fits (join_entries
                       ((str_toupper (lit "#1"), str_toupper (lit "6VXAT"))
                          :: filter (keeps (str_toupper (lit "#1")))
                               [(lit "#1", lit "6QMBS"); (lit "#2", lit "AAAAA")])))
    by (unfold fits; vm_compute; lia).
  destruct (C1_reassign_last_wins (lit "#1") (lit "6VXAT") (lit "5xarz")
              [(lit "#1", lit "6QMBS"); (lit "#2", lit "AAAAA")] r
              eq_refl eq_refl eq_refl eq_refl eq_refl Hl Hf) as (_ & P & C & G & _).
  split; [|split]; [exact P | exact C | exact G].
Defined.

Lemma assign_all_stored l r :
  Forall well_formed l ->
  NoDup (map (fun e => str_toupper (fst e)) l) ->
  reg_writable r = true ->
  stored r = [] ->
  fits (join_entries (map upper_entry l)) ->
  stored (assign_all l r) = join_entries (map upper_entry l)
  /\ reg_writable (assign_all l r) = true.
Proof.
  intros Hl Hd W St. induction l as [|e l IH]; intros Hf; cbn [assign_all fold_right map];
    [auto|].
  inversion Hl as [|e' l' He Hl']; subst. inversion Hd as [|k ks Hk Hd']; subst.
  assert (Hf' : fits (join_entries (map upper_entry l))).
  { unfold fits in *. pose proof (length_join_tail (upper_entry e) (map upper_entry l)).
    cbn [map] in Hf. lia. }
  destruct (IH Hl' Hd' Hf') as [IHs IHw]. clear IH.
  assert (V : Forall (fun x => is_entry x = true) (map upper_entry l)).
  { apply Forall_forall. intros x Hx. apply in_map_iff in Hx.
    destruct Hx as (y & <- & Hy). apply well_formed_entry.
    rewrite Forall_forall in Hl'. auto. }
  assert (Fresh : filter (keeps (str_toupper (fst e))) (map upper_entry l)
                  = map upper_entry l).
  { apply filter_keeps_id.
    destruct (has_alias (str_toupper (fst e)) (map upper_entry l)) eqn:F; [|reflexivity].
    apply has_alias_in in F. rewrite map_map in F. simpl in F. contradiction. }
  destruct (AssignAlias_wf (fst e) (snd e) (assign_all l r) (map upper_entry l))
    as [V' W']; auto.
  - rewrite Fresh. exact Hf.
  - rewrite Fresh in V'. auto.
Qed.

Lemma in_join_entries c l :
  In c (join_entries l) ->
  (exists e, In e l /\ (In c (fst e) \/ In c (snd e))) \/ c = "=" \/ c = ",".
Proof.
  induction l as [|[a s] l IH]; [intros []|].
  rewrite join_entries_cons, !in_app_iff. intros [Ha|[He|[Hs|[Hc|Hl]]]].
  - left. exists (a, s). simpl. auto.
  - simpl in He. destruct He as [<-|[]]. auto.
  - left. exists (a, s). simpl. auto.
  - destruct (is_empty (join_entries l)); simpl in Hc; [destruct Hc|].
    destruct Hc as [<-|[]]. auto.
  - destruct (IH Hl) as [(e & He & Hc)|Hc]; [|auto].
    left. exists e. simpl. auto.
Qed.

Lemma is_alias_name_chars a c :
  is_alias_name a = true -> In c a -> alias_char c = true.
Proof.
  destruct a as [|x a]; [discriminate|]. simpl. intros Ha.
  apply andb_prop in Ha. destruct Ha as [Hx Ha]. intros [<-|Hc].
  - apply alias_first_is_alias_char. exact Hx.
  - rewrite forallb_forall in Ha. auto.
Qed.

Lemma is_sernum_chars s c : is_sernum s = true -> In c s -> sernum_char c = true.
Proof.
  unfold is_sernum. intros Hs. apply andb_prop in Hs. destruct Hs as [_ Hs].
  rewrite forallb_forall in Hs. auto.
Qed.

Lemma join_entries_ends l a s :
  exists v, join_entries (l ++ [(a, s)]) = v ++ s.
Proof.
  induction l as [|[a' s'] l IH].
  - exists (a ++ lit "="). simpl. rewrite <- app_assoc. reflexivity.
  - destruct IH as [v IH]. simpl app. rewrite join_entries_cons, IH.
    eexists. rewrite !app_assoc. reflexivity.
Qed.

Lemma no_trailing_comma l :
  Forall (fun e => is_entry e = true) l ->
  forall v, join_entries l <> v ++ [","].
Proof.
  intros Hl v E.
  destruct (exists_last (l := l)) as (l' & [a s] & ->).
  { intros ->. destruct v; discriminate. }
  apply Forall_app in Hl. destruct Hl as [_ Hl]. inversion Hl as [|e l0 He _]; subst.
  unfold is_entry in He. simpl in He. apply andb_prop in He. destruct He as [_ Hs].
  destruct (join_entries_ends l' a s) as [v' Ev]. rewrite Ev in E.
  destruct (exists_last (l := s)) as (s' & c & ->).
  { intros ->. discriminate. }
  rewrite app_assoc in E. apply app_inj_tail in E. destruct E as [_ ->].
  assert (Hc : sernum_char "," = true).
  { apply (is_sernum_chars _ _ Hs). apply in_or_app. right. left. reflexivity. }
  discriminate.
Qed.

(** C2, as stated, fails for a list too long for the buffers of
    [EasyRegistry.cpp]: thirteen aliases of fourteen characters make a
    string of 272 characters; what is written for them is cut, cannot be
    read back, and the list read is empty. *)
Lemma C2_counterexample :
  let l := map (fun c => (lit "RELAY-MODULE-" ++ [c], lit "6QMBS"))
               (lit "ABCDEFGHIJKLM") in
  let r := mk_registry None true [] in
  forallb (fun e => matches (fst e) regex_alias_name && matches (snd e) regex_sernum) l
  = true
  /\ length (nodup (list_eq_dec ascii_dec) (map fst l)) = length l
  /\ length (join_entries l) = 272
  /\ persisted (assign_all l r) = []
  /\ persisted (assign_all l r) <> l.
Proof. vm_compute. repeat split. discriminate. Qed.

(** C2, amended.  For every list [L] of aliases and serial numbers whose
    aliases are pairwise distinct (as the case-insensitive tokens they are)
    and whose upper-cased [ALIAS=SERNUM] pairs joined by commas fit the
    buffers (are shorter than 255 characters), on a writable registry
    holding nothing: assigning the entries of [L] writes that string, which
    has no space and no trailing comma; the entries read back from it are
    those of [L], upper-cased; and removing one of the aliases rewrites the
    string as the pairs that remain, joined the same way. *)
Theorem C2_save_load_roundtrip (l : list (str * str)) (r : registry) :
  Forall well_formed l ->
  NoDup (map (fun e => str_toupper (fst e)) l) ->
  reg_writable r = true ->
  stored r = [] ->
  let saved := join_entries (map upper_entry l) in
  fits saved ->
  stored (assign_all l r) = saved
  /\ entries saved = map upper_entry l
  /\ persisted (assign_all l r) = map upper_entry l
  /\ (forall c, In c saved -> c <> " ")
  /\ (forall v, saved <> v ++ [","])
  /\ (forall e, In e l ->
        stored (RemoveAlias (fst e) (assign_all l r))
        = join_entries (filter (keeps (str_toupper (fst e))) (map upper_entry l))).
Proof.
  intros Hl Hd W St saved Hf.
  destruct (assign_all_stored l r Hl Hd W St Hf) as [S' W'].
  assert (V : Forall (fun e => is_entry e = true) (map upper_entry l)).
  { apply Forall_forall. intros x Hx. apply in_map_iff in Hx.
    destruct Hx as (y & <- & Hy). apply well_formed_entry.
    rewrite Forall_forall in Hl. auto. }
  assert (P : persisted (assign_all l r) = map upper_entry l).
  { unfold persisted. rewrite S'. apply entries_join. exact V. }
  repeat split.
  - exact S'.
  - apply entries_join. exact V.
  - exact P.
  - intros c Hc ->. apply in_join_entries in Hc.
    destruct Hc as [(e & He & Hc)|[Hc|Hc]]; try discriminate.
    rewrite Forall_forall in V. specialize (V e He).
    unfold is_entry in V. apply andb_prop in V. destruct V as [Va Vs].
    destruct Hc as [Hc|Hc].
    + apply (is_alias_name_chars _ _ Va) in Hc. discriminate.
    + apply (is_sernum_chars _ _ Vs) in Hc. discriminate.
  - apply no_trailing_comma. exact V.
  - intros e He.
    destruct (RemoveAlias_wf (fst e) (assign_all l r) (map upper_entry l) W' S' V)
      as [SR _].
    exact SR.
Qed.

Lemma C2_witness :
  let l := [(lit "#1", lit "6qmbs"); (lit "bench", lit "5XARZ")] in
  let r := mk_registry None true [] in
  stored (assign_all l r) = lit "#1=6QMBS,BENCH=5XARZ"
  /\ entries (lit "#1=6QMBS,BENCH=5XARZ")
     = [(lit "#1", lit "6QMBS"); (lit "BENCH", lit "5XARZ")].
Proof.
  intros l r.
  assert (Hl : Forall well_formed l).
  { repeat constructor. }
  assert (Hd : NoDup (map (fun e => str_toupper (fst e)) l)).
  { repeat constructor; simpl; intuition discriminate. }
  assert (Hf : fits (join_entries (map upper_entry l)))
    by (unfold fits; vm_compute; lia).
  destruct (C2_save_load_roundtrip l r Hl Hd eq_refl eq_refl Hf) as (S' & E & _).
  split; [exact S'|exact E].
Defined.

(** C3, as stated, fails for a token in lower case: with no alias at all in
    the registry, [GetAliasSernum] upper-cases a well-formed serial number
    and so does not return it unchanged. *)
Lemma C3_counterexample :
  let r := mk_registry (Some []) true [] in
  let S := lit "6qmbs" in
  matches S regex_sernum = true
  /\ persisted r = []
  /\ fst (GetAliasSernum S r) = lit "6QMBS"
  /\ fst (GetAliasSernum S r) <> S.
Proof. vm_compute. repeat split; discriminate. Qed.

(** C3, amended.  For every token [S] that matches the serial-number pattern
    (in either case) and, once upper-cased, is the alias of no entry of the
    persisted list, whatever the state of the registry, [GetAliasSernum S]
    returns [S] upper-cased; that is [S] itself when [S] is written in upper
    case. *)
Theorem C3_resolve_serial_number (S : str) (r : registry) :
  matches S regex_sernum = true ->
  (forall e, In e (persisted r) -> fst e <> str_toupper S) ->
  fst (GetAliasSernum S r) = str_toupper S
  /\ (str_toupper S = S -> fst (GetAliasSernum S r) = S).
Proof.
  rewrite matches_sernum. intros HS Hfree.
  assert (G : fst (GetAliasSernum S r) = str_toupper S).
  { rewrite GetAliasSernum_eq. simpl fst.
    rewrite lookup_none by (apply has_alias_false; exact Hfree).
    rewrite is_sernum_toupper, HS. reflexivity. }
  split; [exact G|]. intros E. rewrite G. exact E.
Qed.

Lemma C3_witness :
  let r := mk_registry (Some (lit "#1=6QMBS,BENCH=5XARZ")) false [] in
  fst (GetAliasSernum (lit "6vxat") r) = lit "6VXAT".
Proof.
  intros r.
  refine (proj1 (C3_resolve_serial_number (lit "6vxat") r eq_refl _)).
  intros e He. vm_compute in He.
  destruct He as [<-|[<-|[]]]; discriminate.
Defined.

(** C6, as stated, fails on a registry where the value is missing: the read
    that [RemoveAlias] starts with creates the value, so the store is
    written although no alias is removed. *)
Lemma C6_counterexample :
  let r := mk_registry None true [] in
  persisted r = []
  /\ RemoveAlias (lit "#1") r = mk_registry (Some []) true [DefaultCreated []]
  /\ RemoveAlias (lit "#1") r <> r.
Proof. vm_compute. repeat split. discriminate. Qed.

(** C6, amended.  For every alias [A] that is the alias of no entry of the
    persisted list, whatever the state of the registry: [RemoveAlias A]
    calls [WriteRegSZ] not once and leaves the persisted list as it was; it
    does to the registry what reading it does, that is nothing when the
    value can be read, and the creation of the value as the empty string
    when it cannot and the registry is writable. *)
Theorem C6_remove_absent_alias (A : str) (r : registry) :
  matches A regex_alias_name = true ->
  (forall e, In e (persisted r) -> fst e <> str_toupper A) ->
  writes (reg_log (RemoveAlias A r)) = writes (reg_log r)
  /\ persisted (RemoveAlias A r) = persisted r
  /\ RemoveAlias A r = after_read r
  /\ (RegGetValueW r <> None -> RemoveAlias A r = r)
  /\ (RegGetValueW r = None -> reg_writable r = true ->
      RemoveAlias A r = mk_registry (Some []) true (reg_log r ++ [DefaultCreated []])).
Proof.
  intros _ Hfree. apply has_alias_false in Hfree.
  assert (E : RemoveAlias A r = after_read r).
  { rewrite RemoveAlias_eq, Hfree, andb_false_r. reflexivity. }
  rewrite E. repeat split.
  - apply writes_after_read.
  - apply persisted_after_read.
  - intros Hv. destruct (RegGetValueW r) as [v|] eqn:Ev; [|congruence].
    apply (read_found r v Ev).
  - intros Hv W. destruct (read_missing r Hv) as (_ & _ & ->). rewrite W. reflexivity.
Qed.

Lemma C6_witness :
  let r := mk_registry (Some (lit "#1=6QMBS,BENCH=5XARZ")) true
                       [WriteCalled (lit "#1=6QMBS,BENCH=5XARZ")] in
  RemoveAlias (lit "#2") r = r.
Proof.
  intros r.
  assert (Hfree : forall e, In e (persisted r) -> fst e <> str_toupper (lit "#2")).
  { intros e He. vm_compute in He. destruct He as [<-|[<-|[]]]; discriminate. }
  destruct (C6_remove_absent_alias (lit "#2") r eq_refl Hfree) as (_ & _ & _ & Same & _).
  apply Same. discriminate.
Defined.

(** C7.  Starting from a writable registry that holds nothing (the value is
    missing or empty), after [AssignAlias "#1" "6QMBS"] and then
    [AssignAlias "#2" "5XARZ"] the persisted list is [("#2","5XARZ")]
    followed by [("#1","6QMBS")], and [ListAlias] prints these two entries
    in that order. *)
Theorem C7_assign_prepends (r : registry) :
  reg_writable r = true ->
  stored r = [] ->
  let r2 := AssignAlias (lit "#2") (lit "5XARZ") (AssignAlias (lit "#1") (lit "6QMBS") r) in
  persisted r2 = [(lit "#2", lit "5XARZ"); (lit "#1", lit "6QMBS")]
  /\ stored r2 = lit "#2=5XARZ,#1=6QMBS"
  /\ snd (ListAlias r2) = lit "#2=5XARZ" ++ endl ++ lit "#1=6QMBS".
Proof.
  intros W St r2.
  assert (V : stored r2 = lit "#2=5XARZ,#1=6QMBS").
  { unfold r2.
    destruct (AssignAlias_wf (lit "#1") (lit "6QMBS") r [] W St (Forall_nil _))
      as [V1 W1]; [unfold fits; vm_compute; lia|].
    destruct (AssignAlias_wf (lit "#2") (lit "5XARZ") _ [(lit "#1", lit "6QMBS")] W1 V1)
      as [V2 _]; [repeat constructor|unfold fits; vm_compute; lia|].
    exact V2. }
  assert (P : persisted r2 = [(lit "#2", lit "5XARZ"); (lit "#1", lit "6QMBS")]).
  { unfold persisted. rewrite V. vm_compute. reflexivity. }
  repeat split; [exact P|exact V|].
  rewrite ListAlias_eq, P. reflexivity.
Qed.

Lemma C7_witness :
  let r := mk_registry None true [] in
  snd (ListAlias (AssignAlias (lit "#2") (lit "5XARZ")
                    (AssignAlias (lit "#1") (lit "6QMBS") r)))
  = lit "#2=5XARZ" ++ endl ++ lit "#1=6QMBS".
Proof.
  intros r.
  exact (proj2 (proj2 (C7_assign_prepends r eq_refl eq_refl))).
Defined.

(** ** The command words *)

Lemma alias_not_help : matches (lit "alias") regex_help = false.
Proof. reflexivity. Qed.
Lemma alias_not_enumerate : matches (lit "alias") regex_enumerate = false.
Proof. reflexivity. Qed.
Lemma alias_is_alias : matches (lit "alias") regex_alias = true.
Proof. reflexivity. Qed.

Lemma set_not_help : matches (lit "set") regex_help = false.
Proof. reflexivity. Qed.
Lemma set_not_enumerate : matches (lit "set") regex_enumerate = false.
Proof. reflexivity. Qed.
Lemma set_not_alias : matches (lit "set") regex_alias = false.
Proof. reflexivity. Qed.
Lemma set_is_set : matches (lit "set") regex_set = true.
Proof. reflexivity. Qed.

Lemma Relays_Get_Sernums_found d w :
  usb_relay_device_enumerate d <> [] ->
  Relays_Get_Sernums d w
  = (true, chans_of d,
     mk_world (reg w) (cout w) (cerr w) (calls w ++ enumeration_calls)).
Proof.
  intros Hd. unfold Relays_Get_Sernums, chans_of.
  destruct (usb_relay_device_enumerate d) as [|dev devs]; [congruence|].
  unfold call. simpl. rewrite <- !app_assoc. reflexivity.
Qed.

Lemma Relays_Get_Sernums_empty d w :
  usb_relay_device_enumerate d = [] ->
  Relays_Get_Sernums d w
  = (false, [],
     mk_world (reg w) (cout w) (cerr w)
              (calls w ++ [call_init; call_enumerate; call_exit])).
Proof.
  intros Hd. unfold Relays_Get_Sernums. rewrite Hd.
  unfold call. simpl. rewrite <- !app_assoc. reflexivity.
Qed.

(** C9, as stated, fails when no relay module is attached: [alias] then
    exits with the code of [NO_DEVICES], prints nothing on [cout] and does
    not touch the registry. *)
Lemma C9_counterexample :
  let d := mk_driver 0 [] (fun _ => 0%Z) (fun _ => 0%Z) in
  let w := mk_world (mk_registry None true []) [] [] [] in
  let res := main d (lit "Relay.exe") [lit "alias"] w in
  fst res = (-2)%Z
  /\ cout (snd res) = []
  /\ cerr (snd res) = lit "No devices found"
  /\ reg (snd res) = mk_registry None true [].
Proof. vm_compute. repeat split. Qed.

(** C9, amended.  When the enumeration finds at least one relay module, the
    registry is writable and the persisted value is missing, [alias] with no
    further argument creates the value with the empty string (and does not
    call [WriteRegSZ]), prints "No aliases defined" and exits with code 0.
    When the enumeration finds no relay module, whatever the registry
    holds, [alias] exits with the code of [NO_DEVICES], prints "No devices
    found" on [cerr] and nothing on [cout], and leaves the registry as it
    is, after the three driver calls of the failed enumeration. *)
Theorem C9_alias_on_fresh_registry (d : driver) (strProgName : str) (w : world) :
  let res := main d strProgName [lit "alias"] w in
  (usb_relay_device_enumerate d <> [] ->
   reg_value (reg w) = None ->
   reg_writable (reg w) = true ->
   fst res = 0%Z
   /\ reg_value (reg (snd res)) = Some []
   /\ reg_log (reg (snd res)) = reg_log (reg w) ++ [DefaultCreated []]
   /\ cout (snd res) = cout w ++ lit "No aliases defined" ++ endl
   /\ cerr (snd res) = cerr w)
  /\ (usb_relay_device_enumerate d = [] ->
      fst res = int_of_error NO_DEVICES
      /\ reg (snd res) = reg w
      /\ cout (snd res) = cout w
      /\ cerr (snd res) = cerr w ++ lit "No devices found"
      /\ calls (snd res) = calls w ++ [call_init; call_enumerate; call_exit]).
Proof.
  intros res. split.
  - intros Hd Hv Hw. unfold res, main, parse_args.
    rewrite alias_not_help, alias_not_enumerate, alias_is_alias.
    rewrite (Relays_Get_Sernums_found d w Hd). cbn [length Nat.leb Nat.eqb andb].
    cbn [reg]. rewrite ListAlias_eq.
    assert (Hm : RegGetValueW (reg w) = None)
      by (unfold RegGetValueW; rewrite Hv; reflexivity).
    destruct (read_missing (reg w) Hm) as (St & _ & Ar). rewrite Hw in Ar.
    unfold persisted. rewrite St, entries_nil, Ar.
    cbn. rewrite app_nil_r. auto.
  - intros Hd. unfold res, main, parse_args.
    rewrite alias_not_help, alias_not_enumerate.
    rewrite (Relays_Get_Sernums_empty d w Hd). cbn. auto.
Qed.

Lemma C9_witness :
  let d := mk_driver 0 [(lit "6QMBS", 8%Z)] (fun _ => 1%Z) (fun _ => 0%Z) in
  let d0 := mk_driver 0 [] (fun _ => 0%Z) (fun _ => 0%Z) in
  let w := mk_world (mk_registry None true []) [] [] [] in
  let w1 := mk_world (mk_registry (Some (lit "#1=6QMBS")) true []) [] [] [] in
  (fst (main d (lit "Relay.exe") [lit "alias"] w) = 0%Z
   /\ cout (snd (main d (lit "Relay.exe") [lit "alias"] w))
      = lit "No aliases defined" ++ endl)
  /\ (fst (main d0 (lit "Relay.exe") [lit "alias"] w1) = (-2)%Z
      /\ reg (snd (main d0 (lit "Relay.exe") [lit "alias"] w1)) = reg w1
      /\ cerr (snd (main d0 (lit "Relay.exe") [lit "alias"] w1))
         = lit "No devices found").
Proof.
  intros d d0 w w1. split.
  - assert (Hd : usb_relay_device_enumerate d <> []) by discriminate.
    destruct (C9_alias_on_fresh_registry d (lit "Relay.exe") w) as (Found & _).
    destruct (Found Hd eq_refl eq_refl) as (E & _ & _ & O & _).
    split; [exact E|exact O].
  - destruct (C9_alias_on_fresh_registry d0 (lit "Relay.exe") w1) as (_ & Empty).
    destruct (Empty eq_refl) as (E & R & _ & C & _).
    split; [exact E|]. split; [exact R|exact C].
Defined.

(** ** The arguments of [ALIAS] *)

Lemma regex_match_first s re x :
  heads (run (icase re) (pat re) true s) x ->
  snd x = [] ->
  regex_match s re = Some (mk_smatch [] (fst (fst x)) (snd (fst x)) []).
Proof.
  destruct x as [[u c] rest]. simpl. intros Hh ->.
  apply regex_match_heads. exact Hh.
Qed.

Lemma plus_match c : chr_match true "+" c = true -> c = "+".
Proof. each_char c. Qed.

Lemma minus_match c : chr_match true "-" c = true -> c = "-".
Proof. each_char c. Qed.

Lemma alias_assign_token (plus : bool) a sep sn :
  is_alias_name a = true ->
  cls_match true sep_eq_colon sep = true ->
  is_sernum sn = true ->
  exists m,
    regex_match ((if plus then ["+"] else []) ++ a ++ sep :: sn) regex_alias_assign
    = Some m
    /\ sub m 1 = a /\ sub m 2 = sn.
Proof.
  intros Ha Hsep Hs.
  assert (Hnext : alias_char sep = false).
  { destruct (alias_char sep) eqn:E; auto.
    apply alias_char_not_sep in E. congruence. }
  assert (Hopt : exists u0,
             heads (run true (Opt (Chr "+")) true
                      ((if plus then ["+"] else []) ++ a ++ sep :: sn))
                   (u0, [], a ++ sep :: sn)).
  { destruct plus.
    - exists ["+"]. apply heads_Opt_some. apply heads_Chr. reflexivity.
    - exists []. apply heads_Opt_none.
      destruct a as [|x a]; [discriminate|]. simpl.
      destruct (chr_match true "+" x) eqn:E; [|reflexivity].
      apply plus_match in E. subst x. discriminate. }
  destruct Hopt as [u0 Hopt].
  eexists. split.
  - apply (regex_match_first _ regex_alias_assign
             ([] ++ u0 ++ a ++ [sep] ++ sn ++ [], [] ++ [] ++ [a] ++ [] ++ [sn] ++ [], [])).
    + simpl icase. simpl pat.
      apply (heads_Seq true Bol _ true _ [] []
               ((if plus then ["+"] else []) ++ a ++ sep :: sn)); [apply heads_Bol|].
      apply (heads_Seq true _ _ _ _ u0 [] (a ++ sep :: sn)); [exact Hopt|].
      apply (heads_Seq true _ _ _ _ a [a] (sep :: sn)).
      { apply heads_Grp. apply heads_alias_name; assumption. }
      apply (heads_Seq true _ _ _ _ [sep] [] sn).
      { apply heads_Cls. exact Hsep. }
      apply (heads_Seq true _ _ _ _ sn [sn] []).
      { apply heads_Grp. rewrite <- (app_nil_r sn) at 1. apply heads_sernum. exact Hs. }
      apply heads_Eol.
    + reflexivity.
  - simpl. auto.
Qed.

Lemma alias_remove_token a :
  is_alias_name a = true ->
  regex_match ("-" :: a) regex_alias_assign = None
  /\ exists m, regex_match ("-" :: a) regex_alias_remove = Some m /\ sub m 1 = a.
Proof.
  intros Ha. split.
  - apply regex_match_none. intros u c Hi. simpl icase in Hi. simpl pat in Hi.
    apply in_run_Seq in Hi.
    destruct Hi as (u1 & c1 & s1 & u2 & c2 & H1 & H2 & -> & ->).
    apply in_run_Bol in H1. destruct H1 as (_ & -> & -> & ->).
    apply in_run_Seq in H2.
    destruct H2 as (u1 & c1 & s1 & u3 & c3 & H1 & H2 & -> & ->).
    apply in_run_Opt in H1.
    assert (E1 : s1 = "-" :: a).
    { destruct H1 as [H1|E]; [|inversion E; reflexivity].
      apply in_run_Chr in H1. destruct H1 as (x & E & Mx & _).
      inversion E; subst. apply plus_match in Mx. discriminate. }
    subst s1.
    apply in_run_Seq in H2.
    destruct H2 as (u4 & c4 & s4 & u5 & c5 & H4 & _).
    apply in_run_Grp in H4. destruct H4 as (c' & H4 & _).
    apply in_run_alias_name in H4. destruct H4 as (_ & E & Hu).
    destruct u4 as [|x u4]; [discriminate|]. inversion E; subst.
    simpl in Hu. discriminate.
  - eexists. split.
    + apply (regex_match_first _ regex_alias_remove
               ([] ++ ["-"] ++ a ++ [], [] ++ [] ++ [a] ++ [], [])).
      * simpl icase. simpl pat.
        apply (heads_Seq true Bol _ true _ [] [] ("-" :: a)); [apply heads_Bol|].
        apply (heads_Seq true _ _ _ _ ["-"] [] a).
        { apply heads_Chr. reflexivity. }
        apply (heads_Seq true _ _ _ _ a [a] []).
        { apply heads_Grp. rewrite <- (app_nil_r a) at 1.
          apply heads_alias_name; auto. }
        apply heads_Eol.
      * reflexivity.
    + simpl. reflexivity.
Qed.

Lemma alias_arg_valid t e r :
  valid_alias_token t = true -> alias_arg t (e, r) = (e, alias_token_effect t r).
Proof.
  unfold valid_alias_token, alias_token_effect, alias_arg, matches.
  destruct (regex_match t regex_alias_assign); [reflexivity|].
  destruct (regex_match t regex_alias_remove); [reflexivity|discriminate].
Qed.

Lemma alias_arg_invalid t e r :
  valid_alias_token t = false -> alias_arg t (e, r) = (SYNTAX, r).
Proof.
  unfold valid_alias_token, alias_arg, matches.
  destruct (regex_match t regex_alias_assign); [discriminate|].
  destruct (regex_match t regex_alias_remove); [discriminate|reflexivity].
Qed.

Lemma alias_args_valid todo : forall r,
  Forall (fun t => valid_alias_token t = true) todo ->
  alias_args todo (NONE, r)
  = (NONE, fold_left (fun r t => alias_token_effect t r) todo r).
Proof.
  induction todo as [|t todo IH]; intros r Hv; [reflexivity|].
  inversion Hv as [|t' todo' Ht Hv']; subst. cbn [alias_args fst is_none].
  rewrite alias_arg_valid by exact Ht. apply IH. exact Hv'.
Qed.

Lemma alias_args_stop good bad rest : forall r,
  Forall (fun t => valid_alias_token t = true) good ->
  valid_alias_token bad = false ->
  alias_args (good ++ bad :: rest) (NONE, r)
  = (SYNTAX, fold_left (fun r t => alias_token_effect t r) good r).
Proof.
  induction good as [|t good IH]; intros r Hv Hb.
  - cbn [app alias_args fst is_none].
    rewrite alias_arg_invalid by exact Hb. destruct rest; reflexivity.
  - inversion Hv as [|t' good' Ht Hv']; subst. cbn [app alias_args fst is_none].
    rewrite alias_arg_valid by exact Ht. apply IH; assumption.
Qed.

Lemma alias_tokens_applied toks r :
  fold_left (fun r t => alias_token_effect t r) (rev toks) r
  = fold_right alias_token_effect r toks.
Proof.
  rewrite <- (rev_involutive toks) at 2. rewrite fold_left_rev_right. reflexivity.
Qed.

Lemma alias_assign_shape t m :
  regex_match t regex_alias_assign = Some m ->
  exists (plus : bool) a sep sn,
    is_alias_name a = true /\ (sep = "=" \/ sep = ":") /\ is_sernum sn = true
    /\ t = (if plus then ["+"] else []) ++ a ++ sep :: sn.
Proof.
  intros E. apply regex_match_sound in E. destruct E as (Hi & _).
  simpl icase in Hi. simpl pat in Hi.
  apply in_run_Seq in Hi.
  destruct Hi as (u1 & c1 & s1 & u2 & c2 & H1 & H2 & _ & _).
  apply in_run_Bol in H1. destruct H1 as (_ & -> & -> & ->).
  apply in_run_Seq in H2.
  destruct H2 as (u3 & c3 & s3 & u4 & c4 & H3 & H4 & _ & _).
  apply in_run_Seq in H4.
  destruct H4 as (u5 & c5 & s5 & u6 & c6 & H5 & H6 & _ & _).
  apply in_run_Grp in H5. destruct H5 as (c' & H5 & _).
  apply in_run_alias_name in H5. destruct H5 as (_ & E5 & Ha).
  apply in_run_Seq in H6.
  destruct H6 as (u7 & c7 & s7 & u8 & c8 & H7 & H8 & _ & _).
  apply in_run_Cls in H7. destruct H7 as (x & E7 & Mx & _ & _).
  apply eq_colon_match in Mx.
  apply in_run_Seq in H8.
  destruct H8 as (u9 & c9 & s9 & u10 & c10 & H9 & H10 & _ & _).
  apply in_run_Grp in H9. destruct H9 as (c'' & H9 & _).
  apply in_run_sernum in H9. destruct H9 as (_ & E9 & Hs).
  apply in_run_Eol in H10. destruct H10 as (E10 & _).
  rewrite E10, app_nil_r in E9. rewrite E9 in E7. rewrite E7 in E5.
  apply in_run_Opt in H3. destruct H3 as [H3|H3].
  - apply in_run_Chr in H3. destruct H3 as (y & Et & My & _ & _).
    apply plus_match in My. subst y. exists true, u5, x, u9.
    rewrite Et, E5. auto.
  - inversion H3; subst. exists false, u5, x, u9. auto.
Qed.

Lemma alias_remove_shape t m :
  regex_match t regex_alias_remove = Some m ->
  exists a, is_alias_name a = true /\ t = "-" :: a.
Proof.
  intros E. apply regex_match_sound in E. destruct E as (Hi & _).
  simpl icase in Hi. simpl pat in Hi.
  apply in_run_Seq in Hi.
  destruct Hi as (u1 & c1 & s1 & u2 & c2 & H1 & H2 & _ & _).
  apply in_run_Bol in H1. destruct H1 as (_ & -> & -> & ->).
  apply in_run_Seq in H2.
  destruct H2 as (u3 & c3 & s3 & u4 & c4 & H3 & H4 & _ & _).
  apply in_run_Chr in H3. destruct H3 as (y & Et & My & _ & _).
  apply minus_match in My. subst y.
  apply in_run_Seq in H4.
  destruct H4 as (u5 & c5 & s5 & u6 & c6 & H5 & H6 & _ & _).
  apply in_run_Grp in H5. destruct H5 as (c' & H5 & _).
  apply in_run_alias_name in H5. destruct H5 as (_ & E5 & Ha).
  apply in_run_Eol in H6. destruct H6 as (E6 & _).
  rewrite E6, app_nil_r in E5. exists u5. rewrite Et, E5. auto.
Qed.

(** The two patterns of [ALIAS] accept the tokens of the two shapes and no
    other. *)
Lemma valid_alias_token_shape t : valid_alias_token t = true <-> alias_token t.
Proof.
  unfold valid_alias_token, matches. split.
  - destruct (regex_match t regex_alias_assign) as [m|] eqn:E1.
    + intros _.
      destruct (alias_assign_shape t m E1) as (plus & a & sep & sn & Ha & Hsep & Hs & ->).
      apply assign_token; assumption.
    + destruct (regex_match t regex_alias_remove) as [m|] eqn:E2; [|discriminate].
      intros _. destruct (alias_remove_shape t m E2) as (a & Ha & ->).
      apply remove_token; assumption.
  - intros [plus a sep sn Ha Hsep Hs|a Ha].
    + assert (Hsep' : cls_match true sep_eq_colon sep = true)
        by (destruct Hsep as [-> | ->]; reflexivity).
      destruct (alias_assign_token plus a sep sn Ha Hsep' Hs) as (m & E & _).
      rewrite E. reflexivity.
    + destruct (alias_remove_token a Ha) as (_ & m & E & _).
      rewrite E. apply orb_true_r.
Qed.

Lemma Forall_alias_token toks :
  Forall alias_token toks -> Forall (fun t => valid_alias_token t = true) toks.
Proof.
  intros Hv. rewrite Forall_forall in *. intros t Ht.
  apply valid_alias_token_shape. apply (Hv t Ht).
Qed.

(** C8, as stated, fails when no relay module is attached: the arguments of
    [alias] are then not looked at, so an ill-formed argument yields the code
    of [NO_DEVICES] rather than that of [SYNTAX], and the assignment to its
    right is not applied. *)
Lemma C8_counterexample :
  let d := mk_driver 0 [] (fun _ => 0%Z) (fun _ => 0%Z) in
  let w := mk_world (mk_registry None true []) [] [] [] in
  let res := main d (lit "Relay.exe") [lit "alias"; lit "oops!"; lit "+#1=6QMBS"] w in
  valid_alias_token (lit "oops!") = false
  /\ valid_alias_token (lit "+#1=6QMBS") = true
  /\ fst res = (-2)%Z
  /\ fst res <> int_of_error SYNTAX
  /\ reg (snd res) = mk_registry None true [].
Proof. vm_compute. repeat split. discriminate. Qed.

(** C8, amended.  The arguments that [alias] accepts are exactly those of
    the two shapes, [+ALIAS=SERNUM] (the [+] may be left out, [:] may stand
    for [=]) and [-ALIAS]; the first assigns and the second removes.  When
    the enumeration finds at least one relay module, the arguments are
    applied from the last one to the first; when all are of these shapes
    the aliases are listed afterwards and the exit code is 0; otherwise the
    arguments to the right of the last one that is of neither shape have
    been applied and stay so, none to its left is applied, nothing is
    listed and the exit code is that of [SYNTAX].  When the enumeration
    finds no relay module, the arguments are not looked at: whatever they
    are, the registry is left as it is and the exit code is that of
    [NO_DEVICES]. *)
Theorem C8_alias_arguments (d : driver) (strProgName : str) (w : world) :
  (forall t, valid_alias_token t = true <-> alias_token t)
  /\ (forall (plus : bool) a sep sn r,
         matches a regex_alias_name = true ->
         sep = "=" \/ sep = ":" ->
         matches sn regex_sernum = true ->
         let t := (if plus then ["+"] else []) ++ a ++ sep :: sn in
         valid_alias_token t = true /\ alias_token_effect t r = AssignAlias a sn r)
  /\ (forall a r,
         matches a regex_alias_name = true ->
         valid_alias_token ("-" :: a) = true
         /\ alias_token_effect ("-" :: a) r = RemoveAlias a r)
  /\ (usb_relay_device_enumerate d <> [] ->
      forall toks,
        toks <> [] ->
        Forall alias_token toks ->
        let r' := fold_right alias_token_effect (reg w) toks in
        let res := main d strProgName (lit "alias" :: toks) w in
        fst res = 0%Z
        /\ reg (snd res) = after_read r'
        /\ cout (snd res) = cout w ++ snd (ListAlias r')
        /\ cerr (snd res) = cerr w)
  /\ (usb_relay_device_enumerate d <> [] ->
      forall pre bad suf,
        ~ alias_token bad ->
        Forall alias_token suf ->
        let res := main d strProgName (lit "alias" :: pre ++ bad :: suf) w in
        fst res = int_of_error SYNTAX
        /\ reg (snd res) = fold_right alias_token_effect (reg w) suf
        /\ cout (snd res) = cout w
        /\ cerr (snd res) = cerr w ++ lit "Syntax error")
  /\ (usb_relay_device_enumerate d = [] ->
      forall toks,
        main d strProgName (lit "alias" :: toks) w
        = (int_of_error NO_DEVICES,
           mk_world (reg w) (cout w) (cerr w ++ lit "No devices found")
                    (calls w ++ [call_init; call_enumerate; call_exit]))).
Proof.
  split; [exact valid_alias_token_shape|].
  split; [|split; [|split; [|split]]].
  - intros plus a sep sn r Ha Hsep Hs t.
    rewrite matches_alias_name in Ha. rewrite matches_sernum in Hs.
    assert (Hsep' : cls_match true sep_eq_colon sep = true)
      by (destruct Hsep as [-> | ->]; reflexivity).
    destruct (alias_assign_token plus a sep sn Ha Hsep' Hs) as (m & E & E1 & E2).
    fold t in E. unfold valid_alias_token, alias_token_effect, alias_arg, matches.
    rewrite E, E1, E2. auto.
  - intros a r Ha. rewrite matches_alias_name in Ha.
    destruct (alias_remove_token a Ha) as (E0 & m & E & E1).
    unfold valid_alias_token, alias_token_effect, alias_arg, matches.
    rewrite E0, E, E1. auto.
  - intros Hd toks Hne Hv r' res. apply Forall_alias_token in Hv.
    unfold res, main, parse_args.
    rewrite alias_not_help, alias_not_enumerate, alias_is_alias.
    rewrite (Relays_Get_Sernums_found d w Hd).
    destruct toks as [|t toks]; [congruence|].
    cbn [length Nat.leb Nat.eqb andb reg].
    rewrite alias_args_valid by (apply Forall_rev; exact Hv).
    rewrite alias_tokens_applied. fold r'.
    cbn [is_none set_reg reg]. rewrite ListAlias_eq.
    cbn [print set_reg reg cout cerr calls locals0 error is_none no_flags is_help
         is_enumerate is_set is_query error_sernum error_message eprint fst snd
         int_of_error].
    rewrite app_nil_r. auto.
  - intros Hd pre bad suf Hb Hv res. apply Forall_alias_token in Hv.
    assert (Hb' : valid_alias_token bad = false).
    { destruct (valid_alias_token bad) eqn:E; [|reflexivity].
      destruct Hb. apply valid_alias_token_shape. exact E. }
    unfold res, main, parse_args.
    rewrite alias_not_help, alias_not_enumerate, alias_is_alias.
    rewrite (Relays_Get_Sernums_found d w Hd).
    assert (Hl : Nat.eqb (length (lit "alias" :: pre ++ bad :: suf)) 1 = false).
    { simpl. rewrite length_app. simpl. apply Nat.eqb_neq. lia. }
    rewrite Hl. cbn [length Nat.leb andb reg].
    rewrite rev_app_distr. simpl rev. rewrite <- app_assoc. simpl app.
    rewrite alias_args_stop; [|apply Forall_rev; exact Hv|exact Hb'].
    rewrite alias_tokens_applied. cbn. auto.
  - intros Hd toks. unfold main, parse_args.
    rewrite alias_not_help, alias_not_enumerate.
    rewrite (Relays_Get_Sernums_empty d w Hd). reflexivity.
Qed.

Lemma C8_witness :
  let d := mk_driver 0 [(lit "6QMBS", 8%Z)] (fun _ => 1%Z) (fun _ => 0%Z) in
  let w := mk_world (mk_registry None true []) [] [] [] in
  let res :=
    main d (lit "Relay.exe")
         [lit "alias"; lit "#3=6VXAT"; lit "oops!"; lit "+#1=6QMBS"; lit "-#1";
          lit "+#2=5xarz"] w in
  fst res = (-1)%Z
  /\ reg_value (reg (snd res)) = Some (lit "#1=6QMBS,#2=5XARZ")
  /\ cout (snd res) = [].
Proof.
  intros d w res.
  assert (Hd : usb_relay_device_enumerate d <> []) by discriminate.
  destruct (C8_alias_arguments d (lit "Relay.exe") w) as (Shape & _ & _ & _ & Stop & _).
  destruct (Stop Hd [lit "#3=6VXAT"] (lit "oops!")
                 [lit "+#1=6QMBS"; lit "-#1"; lit "+#2=5xarz"])
    as (E & R & O & _).
  - intros Hb. apply Shape in Hb. discriminate Hb.
  - repeat constructor; apply Shape; reflexivity.
  - split; [exact E|]. split; [|exact O].
    assert (R' : reg (snd res)
                 = fold_right alias_token_effect (reg w)
                     [lit "+#1=6QMBS"; lit "-#1"; lit "+#2=5xarz"]) by exact R.
    rewrite R'. vm_compute. reflexivity.
Defined.

(** ** The arguments of [SET] *)

Lemma eq_match c : chr_match true "=" c = true -> c = "=".
Proof. each_char c. Qed.

Lemma colon_match c : chr_match true ":" c = true -> c = ":".
Proof. each_char c. Qed.

Lemma ch_set_shape t :
  matches t regex_ch_set = true -> exists d w, t = d :: "=" :: w.
Proof.
  unfold matches. destruct (regex_match t regex_ch_set) as [m|] eqn:E; [|discriminate].
  intros _. apply regex_match_sound in E. destruct E as (Hi & _).
  simpl icase in Hi. simpl pat in Hi.
  apply in_run_Seq in Hi.
  destruct Hi as (u1 & c1 & s1 & u2 & c2 & H1 & H2 & _ & _).
  apply in_run_Bol in H1. destruct H1 as (_ & -> & -> & ->).
  apply in_run_Seq in H2.
  destruct H2 as (u3 & c3 & s3 & u4 & c4 & H3 & H4 & _ & _).
  apply in_run_Grp in H3. destruct H3 as (c' & H3 & _).
  apply in_run_Cls in H3. destruct H3 as (x & -> & _ & _ & _).
  apply in_run_Seq in H4.
  destruct H4 as (u5 & c5 & s5 & u6 & c6 & H5 & _).
  apply in_run_Chr in H5. destruct H5 as (y & -> & My & _).
  apply eq_match in My. subst y. eauto.
Qed.

Lemma ch_set_not_device t :
  matches t regex_ch_set = true -> not_device_token t.
Proof.
  intros Hm. destruct (ch_set_shape t Hm) as (d & w & ->). split.
  - rewrite matches_alias_name. simpl.
    change (alias_char "=") with false. simpl. apply andb_false_r.
  - unfold matches. rewrite regex_match_none; [reflexivity|].
    intros u c Hi. simpl icase in Hi. simpl pat in Hi.
    apply in_run_Seq in Hi.
    destruct Hi as (u1 & c1 & s1 & u2 & c2 & H1 & H2 & _ & _).
    apply in_run_Bol in H1. destruct H1 as (_ & -> & -> & ->).
    apply in_run_Seq in H2.
    destruct H2 as (u3 & c3 & s3 & u4 & c4 & H3 & H4 & _ & _).
    apply in_run_Grp in H3. destruct H3 as (c' & H3 & _).
    apply in_run_alias_name in H3. destruct H3 as (_ & E & Hu).
    apply in_run_Seq in H4.
    destruct H4 as (u5 & c5 & s5 & u6 & c6 & H5 & _).
    apply in_run_Chr in H5. destruct H5 as (y & -> & My & _).
    apply colon_match in My. subst y.
    destruct u3 as [|x [|x' u3]]; [discriminate| |].
    + inversion E.
    + inversion E; subst. simpl in Hu.
      change (alias_char "=") with false in Hu. simpl in Hu.
      rewrite andb_false_r in Hu. discriminate.
Qed.

Lemma set_arg_no_device chans t l r :
  not_device_token t -> cur_sn l = [] ->
  set_arg chans t (l, r) = (set_error SYNTAX l, r).
Proof.
  intros [Ha Hp] Hc. unfold set_arg. unfold matches in Ha, Hp.
  destruct (regex_match t regex_alias_name); [discriminate|].
  destruct (regex_match t regex_sernum_pattern); [discriminate|].
  rewrite Hc. simpl. destruct (regex_match t regex_ch_set); reflexivity.
Qed.

Lemma for_args_stopped step todo st :
  is_none (error (fst st)) = false -> for_args step todo st = st.
Proof. intros E. destruct todo; simpl; [reflexivity|]. rewrite E. reflexivity. Qed.

Lemma set_args_no_device chans t todo r :
  not_device_token t ->
  for_args (set_arg chans) (t :: todo) (locals0, r) = (set_error SYNTAX locals0, r).
Proof.
  intros Ht. cbn [for_args fst error locals0 is_none].
  rewrite set_arg_no_device by (auto; reflexivity).
  apply for_args_stopped. reflexivity.
Qed.

(** C10, as stated, fails when no relay module is attached: the command
    then ends with the code of [NO_DEVICES], not with that of [SYNTAX]. *)
Lemma C10_counterexample :
  let d := mk_driver 0 [] (fun _ => 0%Z) (fun _ => 0%Z) in
  let w := mk_world (mk_registry None true []) [] [] [] in
  let res := main d (lit "Relay.exe") [lit "set"; lit "1=ON"] w in
  matches (lit "1=ON") regex_ch_set = true
  /\ fst res = (-2)%Z
  /\ fst res <> int_of_error SYNTAX
  /\ cerr (snd res) = lit "No devices found".
Proof. vm_compute. repeat split. discriminate. Qed.

(** C10, amended.  In a [set] command whose arguments hold a [CH=STATE]
    token with no device token (serial number, alias or [TOKEN:PATTERN])
    before it: when the enumeration finds at least one relay module the
    command ends with the code of [SYNTAX], having made only the calls of
    the enumeration and left the registry alone; when it finds none the
    command ends with the code of [NO_DEVICES]; in both cases no call that
    switches a relay is made. *)
Theorem C10_state_before_device (d : driver) (strProgName : str) (w : world)
    (pre : list str) (t : str) (post : list str) :
  matches t regex_ch_set = true ->
  Forall not_device_token pre ->
  let res := main d strProgName (lit "set" :: pre ++ t :: post) w in
  (usb_relay_device_enumerate d <> [] ->
     fst res = int_of_error SYNTAX
     /\ cerr (snd res) = cerr w ++ lit "Syntax error"
     /\ cout (snd res) = cout w
     /\ reg (snd res) = reg w
     /\ calls (snd res) = calls w ++ enumeration_calls)
  /\ (usb_relay_device_enumerate d = [] -> fst res = int_of_error NO_DEVICES)
  /\ filter is_switch_call (calls (snd res)) = filter is_switch_call (calls w).
Proof.
  intros Ht Hpre res.
  assert (Hfirst : exists t0 todo, pre ++ t :: post = t0 :: todo /\ not_device_token t0).
  { destruct pre as [|p pre].
    - exists t, post. split; [reflexivity|]. apply ch_set_not_device. exact Ht.
    - inversion Hpre; subst. exists p, (pre ++ t :: post). auto. }
  destruct Hfirst as (t0 & todo & E & Ht0).
  assert (Found : usb_relay_device_enumerate d <> [] ->
                  res = (int_of_error SYNTAX,
                         mk_world (reg w) (cout w) (cerr w ++ lit "Syntax error")
                                  (calls w ++ enumeration_calls))).
  { intros Hd. unfold res, main, parse_args. rewrite E.
    rewrite set_not_help, set_not_enumerate, set_not_alias, set_is_set.
    rewrite (Relays_Get_Sernums_found d w Hd).
    cbn [length Nat.ltb Nat.leb andb reg].
    rewrite set_args_no_device by exact Ht0. reflexivity. }
  assert (Empty : usb_relay_device_enumerate d = [] ->
                  res = (int_of_error NO_DEVICES,
                         mk_world (reg w) (cout w) (cerr w ++ lit "No devices found")
                                  (calls w ++ [call_init; call_enumerate; call_exit]))).
  { intros Hd. unfold res, main, parse_args. rewrite E.
    rewrite set_not_help, set_not_enumerate.
    rewrite (Relays_Get_Sernums_empty d w Hd). reflexivity. }
  split; [|split].
  - intros Hd. rewrite (Found Hd). simpl. auto.
  - intros Hd. rewrite (Empty Hd). reflexivity.
  - destruct (usb_relay_device_enumerate d) as [|dev devs] eqn:Hd.
    + rewrite (Empty eq_refl). simpl. rewrite filter_app. simpl. apply app_nil_r.
    + rewrite Found by discriminate. simpl. rewrite filter_app. simpl. apply app_nil_r.
Qed.

Lemma C10_witness :
  let d := mk_driver 0 [(lit "6QMBS", 8%Z)] (fun _ => 1%Z) (fun _ => 0%Z) in
  let w := mk_world (mk_registry None true []) [] [] [] in
  let res := main d (lit "Relay.exe") [lit "set"; lit "1=ON"; lit "6QMBS"; lit "2=OFF"] w in
  fst res = (-1)%Z /\ calls (snd res) = enumeration_calls.
Proof.
  intros d w res.
  destruct (C10_state_before_device d (lit "Relay.exe") w [] (lit "1=ON")
              [lit "6QMBS"; lit "2=OFF"] eq_refl (Forall_nil _)) as (Found & _ & _).
  destruct Found as (E & _ & _ & _ & C); [discriminate|].
  split; [exact E|exact C].
Defined.

(** ** Patterns of [SET] *)


Lemma pattern_chars c :
  cls_match true T_LOGIC_BITS c = true ->
  In c (lit "0Ll1HhXx_.").
Proof.
  destruct c as [[] [] [] [] [] [] [] []]; vm_compute; try discriminate; intros _;
    tauto.
Qed.

Lemma str_ltb_irrefl s : str_ltb s s = false.
Proof.
  induction s as [|c s IH]; simpl; [reflexivity|].
  unfold char_ltb. rewrite Nat.ltb_irrefl. exact IH.
Qed.

Lemma module_set_single sernum ch st inner :
  module_set sernum ch st [(sernum, inner)]
  = [(sernum, map_put char_ltb ch st inner)].
Proof.
  unfold module_set. simpl. rewrite ?str_ltb_irrefl. simpl.
  rewrite ?str_ltb_irrefl. reflexivity.
Qed.


Lemma channel_key j : j < 200 -> nat_of_ascii (channel_char j) = 49 + j.
Proof.
  intros Hj. unfold channel_char. change (nat_of_ascii "1") with 49.
  apply nat_ascii_embedding. lia.
Qed.

Lemma channel_key_lt j k : j < k -> k < 200 -> char_ltb (channel_char j) (channel_char k) = true.
Proof.
  intros Hjk Hk. unfold char_ltb. rewrite !channel_key by lia.
  apply Nat.ltb_lt. lia.
Qed.

Arguments channel_char : simpl never.

Lemma pattern_module_keys pattern : forall j k,
  j + length pattern <= k -> k < 200 ->
  Forall (fun kv => char_ltb (fst kv) (channel_char k) = true)
         (pattern_module j pattern).
Proof.
  induction pattern as [|c pattern IH]; intros j k Hk Hb; simpl; constructor.
  - simpl in *. apply channel_key_lt; lia.
  - apply IH; simpl in Hk; lia.
Qed.





Lemma to_size_t_int n : (0 <= n < 2 ^ 31)%Z -> to_size_t n = n.
Proof. intros Hn. unfold to_size_t. apply Z.mod_small. lia. Qed.



Lemma Is_Sernum_Present_nonempty sernum chans :
  Is_Sernum_Present sernum chans = true -> sernum <> [] /\ chans <> [].
Proof.
  unfold Is_Sernum_Present. destruct sernum; [discriminate|].
  destruct chans; [discriminate|]. split; discriminate.
Qed.




(** [set 6QMBS:011XX0X] on a module of 6 channels. *)
Example set_pattern_too_long :
  let d := mk_driver 0 [(lit "6QMBS", 6%Z)] (fun _ => 7%Z) (fun _ => 0%Z) in
  let w := mk_world (mk_registry None true []) [] [] [] in
  let res := main d (lit "Relay.exe") [lit "set"; lit "6QMBS:011XX0X"] w in
  fst res = int_of_error INVALID_CHANNEL /\ calls (snd res) = enumeration_calls.
Proof. vm_compute. split; reflexivity. Qed.

(** ** Queries *)

(** C4 at a failing input: on a module enumerated with 4 channels,
    [query 6QMBS@8] is accepted, prints no bit for channel 8 and ends with
    code 0, where [set 6QMBS 8=ON] ends with the code of [INVALID_CHANNEL];
    [query 6QMBS@11111], whose digits all name channel 1, is the one that is
    refused.  The test made on a query list is on its length. *)
Theorem C4_query_digit_above_count :
  let d := mk_driver 0 [(lit "6QMBS", 4%Z)] (fun _ => 7%Z) (fun _ => 15%Z) in
  let w := mk_world (mk_registry None true []) [] [] [] in
  let query8 := main d (lit "Relay.exe") [lit "query"; lit "6QMBS@8"] w in
  let set8 := main d (lit "Relay.exe") [lit "set"; lit "6QMBS"; lit "8=ON"] w in
  let query1 := main d (lit "Relay.exe") [lit "query"; lit "6QMBS@11111"] w in
  fst query8 = int_of_error NONE
  /\ cout (snd query8) = lit " "
  /\ cerr (snd query8) = []
  /\ fst set8 = int_of_error INVALID_CHANNEL
  /\ fst query1 = int_of_error INVALID_CHANNEL.
Proof. vm_compute. repeat split. Qed.

(** ** The examples of the README *)

(** [Relay.exe list] *)
Example readme_list :
  cout (snd (relay ["list"%string] fresh)) = lit "6QMBS(8),5XARZ(8),6VXAT(4)".
Proof. vm_compute. reflexivity. Qed.

(** [Relay.exe query 6QMBS@1456]: bits 1, 4, 5 and 6 of the status
    [0b001011], in the order asked for. *)
Example readme_query_channels :
  cout (snd (relay ["query"; "6QMBS@1456"]%string fresh)) = lit "1100 ".
Proof. vm_compute. reflexivity. Qed.

(** [Relay.exe set 6QMBS:011XX0 5XARZ 1=1 5=1]: the modules are visited in
    the order of their serial numbers. *)
Example readme_set_two_modules :
  let res := relay ["set"; "6QMBS:011XX0"; "5XARZ"; "1=1"; "5=1"]%string fresh in
  fst res = 0%Z
  /\ calls (snd res)
     = enumeration_calls
       ++ [call_init;
           call_open_with_serial_number (lit "5XARZ") 5;
           call_open_one_relay_channel 2 1; call_open_one_relay_channel 2 5;
           call_close 2;
           call_open_with_serial_number (lit "6QMBS") 5;
           call_close_one_relay_channel 1 1; call_open_one_relay_channel 1 2;
           call_open_one_relay_channel 1 3; call_close_one_relay_channel 1 6;
           call_close 1;
           call_exit].
Proof. vm_compute. split; reflexivity. Qed.

(** [Relay.exe alias #1=6QMBS #2=5XARZ], then [set #1:011XX0 #2 1=1 5=1]
    and [alias -#1 -#2]. *)
Example readme_alias :
  let w1 := snd (relay ["alias"; "#1=6QMBS"; "#2=5XARZ"]%string fresh) in
  let w2 := snd (relay ["set"; "#1:011XX0"; "#2"; "1=1"; "5=1"]%string w1) in
  let w3 := snd (relay ["alias"; "-#1"; "-#2"]%string w2) in
  cout w1 = lit "#1=6QMBS" ++ endl ++ lit "#2=5XARZ"
  /\ filter is_switch_call (calls w2)
     = [call_open_one_relay_channel 2 1; call_open_one_relay_channel 2 5;
        call_close_one_relay_channel 1 1; call_open_one_relay_channel 1 2;
        call_open_one_relay_channel 1 3; call_close_one_relay_channel 1 6]
  /\ reg_value (reg w3) = Some []
  /\ cout w3 = cout w1 ++ lit "No aliases defined" ++ endl.
Proof. vm_compute. repeat split. Qed.

(** * Further properties *)

(** ** What the functions leave alone *)

Lemma world_eta w : mk_world (reg w) (cout w) (cerr w) (calls w) = w.
Proof. destruct w; reflexivity. Qed.

Section StdMapFacts.
Variables K V : Type.
Variable ltb : K -> K -> bool.

Lemma in_map_put (k : K) (v : V) (m : list (K * V)) (k' : K) (v' : V) :
  In (k', v') (map_put ltb k v m) ->
  (k' = k /\ v' = v) \/ In (k', v') m \/ (v' = v /\ exists v0, In (k', v0) m).
Proof.
  induction m as [|[k0 v0] m IH]; simpl.
  - intros [E|[]]. inversion E. auto.
  - destruct (ltb k k0).
    + intros [E|Hi]; [inversion E; auto|auto].
    + destruct (ltb k0 k).
      * intros [E|Hi]; [inversion E; auto|].
        destruct (IH Hi) as [?|[?|(? & v1 & ?)]]; eauto 6.
      * intros [E|Hi]; [inversion E; subst; eauto 6|auto].
Qed.

Lemma map_get_in (k : K) (m : list (K * V)) (v : V) : map_get ltb k m = Some v -> exists k', In (k', v) m.
Proof.
  induction m as [|[k0 v0] m IH]; simpl; [discriminate|].
  destruct (ltb k k0 || ltb k0 k).
  - intros E. destruct (IH E) as [k' Hi]. eauto.
  - intros E. inversion E; subst. eauto.
Qed.
End StdMapFacts.

Lemma module_keys_in m :
  module_keys m = true <->
  (forall sn inner ch st, In (sn, inner) m -> In (ch, st) inner ->
     ascii_in RELAY_IDX_MIN RELAY_IDX_MAX ch = true).
Proof.
  unfold module_keys, channel_keys. rewrite forallb_forall. split.
  - intros Hm sn inner ch st Hi Hc. specialize (Hm _ Hi). simpl in Hm.
    rewrite forallb_forall in Hm. apply (Hm _ Hc).
  - intros Hm [sn inner] Hi. simpl. apply forallb_forall. intros [ch st] Hc.
    simpl. eapply Hm; eauto.
Qed.

Lemma module_reset_keys sn m :
  module_keys m = true -> module_keys (module_reset sn m) = true.
Proof.
  rewrite !module_keys_in. intros Hm s inner ch st Hi Hc. unfold module_reset in Hi.
  apply in_map_put in Hi. destruct Hi as [[_ ->]|[Hi|(-> & _)]]; try destruct Hc.
  eapply Hm; eauto.
Qed.

Lemma module_set_keys sn ch st m :
  ascii_in RELAY_IDX_MIN RELAY_IDX_MAX ch = true ->
  module_keys m = true -> module_keys (module_set sn ch st m) = true.
Proof.
  rewrite !module_keys_in. intros Hch Hm s inner c v Hi Hc. unfold module_set in Hi.
  assert (Hnew : forall c' v',
             In (c', v')
                (map_put char_ltb ch st
                   match map_get str_ltb sn m with Some i => i | None => [] end) ->
             ascii_in RELAY_IDX_MIN RELAY_IDX_MAX c' = true).
  { intros c' v' Hn. apply in_map_put in Hn.
    assert (Hold : forall v0,
               In (c', v0) match map_get str_ltb sn m with Some i => i | None => [] end ->
               ascii_in RELAY_IDX_MIN RELAY_IDX_MAX c' = true).
    { intros v0 H0. destruct (map_get str_ltb sn m) as [i|] eqn:G; [|destruct H0].
      apply map_get_in in G. destruct G as [k' Hk]. eapply Hm; eauto. }
    destruct Hn as [[-> _]|[Hn|(_ & v0 & Hn)]]; eauto. }
  apply in_map_put in Hi. destruct Hi as [[_ ->]|[Hi|(-> & _)]]; eauto.
Qed.

Lemma channel_char_in_range j :
  j < 8 -> ascii_in RELAY_IDX_MIN RELAY_IDX_MAX (channel_char j) = true.
Proof.
  intros Hj. do 8 (destruct j as [|j]; [reflexivity|]). lia.
Qed.

Lemma set_pattern_keys sn pattern : forall j m,
  j + length pattern <= 8 ->
  module_keys m = true -> module_keys (set_pattern sn j pattern m) = true.
Proof.
  induction pattern as [|c pattern IH]; intros j m Hj Hm; simpl; [exact Hm|].
  simpl in Hj. apply IH; [lia|]. apply module_set_keys; [|exact Hm].
  apply channel_char_in_range. lia.
Qed.

(** The captures of the two argument patterns of [SET]. *)
Lemma sernum_pattern_captures arg m :
  regex_match arg regex_sernum_pattern = Some m ->
  is_alias_name (sub m 1) = true /\ is_pattern (sub m 2) = true.
Proof.
  intros E. apply regex_match_sound in E. destruct E as (Hi & _).
  simpl icase in Hi. simpl pat in Hi.
  apply in_run_Seq in Hi.
  destruct Hi as (u1 & c1 & s1 & u2 & c2 & H1 & H2 & _ & Ec).
  apply in_run_Bol in H1. destruct H1 as (_ & -> & -> & ->).
  apply in_run_Seq in H2.
  destruct H2 as (u3 & c3 & s3 & u4 & c4 & H3 & H4 & _ & ->).
  apply in_run_Grp in H3. destruct H3 as (c' & H3 & ->).
  apply in_run_alias_name in H3. destruct H3 as (-> & _ & Ha).
  apply in_run_Seq in H4.
  destruct H4 as (u5 & c5 & s5 & u6 & c6 & H5 & H6 & _ & ->).
  apply in_run_Chr in H5. destruct H5 as (y & _ & _ & _ & ->).
  apply in_run_Seq in H6.
  destruct H6 as (u7 & c7 & s7 & u8 & c8 & H7 & H8 & _ & ->).
  apply in_run_Grp in H7. destruct H7 as (c'' & H7 & ->).
  apply in_run_Rep in H7. destruct H7 as (-> & _ & Hb & Hlo & Hhi).
  apply in_run_Eol in H8. destruct H8 as (_ & _ & -> & _).
  unfold sub. rewrite Ec. simpl. split; [exact Ha|].
  unfold is_pattern. rewrite Hb. specialize (Hhi 8 eq_refl).
  apply Nat.leb_le in Hlo. apply Nat.leb_le in Hhi. rewrite Hlo, Hhi. reflexivity.
Qed.

Lemma channel_digit c : cls_match true T_CHANNELS c = ascii_in "1" "8" c.
Proof. each_char c. Qed.

Lemma ch_set_captures arg m :
  regex_match arg regex_ch_set = Some m ->
  exists c, sub m 1 = [c] /\ ascii_in "1" "8" c = true.
Proof.
  intros E. apply regex_match_sound in E. destruct E as (Hi & _).
  simpl icase in Hi. simpl pat in Hi.
  apply in_run_Seq in Hi.
  destruct Hi as (u1 & c1 & s1 & u2 & c2 & H1 & H2 & _ & Ec).
  apply in_run_Bol in H1. destruct H1 as (_ & -> & -> & ->).
  apply in_run_Seq in H2.
  destruct H2 as (u3 & c3 & s3 & u4 & c4 & H3 & H4 & _ & ->).
  apply in_run_Grp in H3. destruct H3 as (c' & H3 & ->).
  apply in_run_Cls in H3. destruct H3 as (x & _ & Mx & -> & ->).
  unfold sub. rewrite Ec. simpl. exists x. rewrite <- channel_digit. auto.
Qed.

Lemma is_pattern_length p : is_pattern p = true -> 1 <= length p <= 8.
Proof.
  unfold is_pattern. intros Hp. apply andb_prop in Hp. destruct Hp as [Hl _].
  apply andb_prop in Hl. destruct Hl as [Hlo Hhi].
  apply Nat.leb_le in Hlo. apply Nat.leb_le in Hhi. lia.
Qed.

(** [GetAliasSernum] reads the registry and does nothing else to it. *)
Lemma GetAliasSernum_reg token r : snd (GetAliasSernum token r) = after_read r.
Proof. rewrite GetAliasSernum_eq. reflexivity. Qed.

Lemma read_only_refl r : read_only r r.
Proof. repeat split. Qed.

Lemma read_only_after_read r r' : read_only r r' -> read_only r (after_read r').
Proof.
  intros (P & W & F). repeat split.
  - rewrite persisted_after_read. exact P.
  - rewrite writes_after_read. exact W.
  - rewrite writable_after_read. exact F.
Qed.

Lemma set_arg_frame chans arg l r :
  module_keys (module l) = true ->
  module_keys (module (fst (set_arg chans arg (l, r)))) = true
  /\ (snd (set_arg chans arg (l, r)) = r
      \/ snd (set_arg chans arg (l, r)) = after_read r).
Proof.
  intros Hm. unfold set_arg.
  destruct (regex_match arg regex_alias_name) as [m1|].
  { rewrite GetAliasSernum_eq. cbn [set_cur_sn cur_sn].
    match goal with |- context [if ?b then _ else _] => destruct b end;
      cbn [fst snd module set_bad_sernum]; auto. }
  destruct (regex_match arg regex_sernum_pattern) as [m2|] eqn:E2.
  { rewrite GetAliasSernum_eq. cbn [set_cur_sn cur_sn].
    destruct (sernum_pattern_captures arg m2 E2) as [_ Hp].
    apply is_pattern_length in Hp.
    match goal with |- context [if Is_Sernum_Present ?s ?c then _ else _] =>
      destruct (Is_Sernum_Present s c) end; cbn [fst snd module set_bad_sernum]; auto.
    match goal with |- context [if Z.leb ?a ?b then _ else _] =>
      destruct (Z.leb a b) end; cbn [fst snd module set_module set_error]; auto.
    split; [|auto]. apply set_pattern_keys; [rewrite Nat.add_0_l; lia|].
    apply module_reset_keys. exact Hm. }
  destruct (regex_match arg regex_ch_set) as [m3|] eqn:E3;
    [|cbn [fst snd module set_error]; auto].
  destruct (ch_set_captures arg m3 E3) as (c & Ec & Hc).
  destruct (negb (is_empty (cur_sn l))); [|cbn [fst snd module set_error]; auto].
  cbv zeta.
  set (l1 := if negb (map_contains str_ltb (cur_sn l) (module l))
             then set_module (module_reset (cur_sn l) (module l)) l else l).
  assert (H1 : module_keys (module l1) = true).
  { unfold l1. destruct (negb (map_contains str_ltb (cur_sn l) (module l))); [|exact Hm].
    cbn [module set_module]. apply module_reset_keys. exact Hm. }
  match goal with |- context [if Z.leb ?a ?b then _ else _] =>
    destruct (Z.leb a b) end; cbn [fst snd module set_module set_error]; auto.
  split; [|auto]. apply module_set_keys; [|exact H1]. rewrite Ec. exact Hc.
Qed.

Lemma query_arg_frame chans arg l r :
  module (fst (query_arg chans arg (l, r))) = module l
  /\ (snd (query_arg chans arg (l, r)) = r
      \/ snd (query_arg chans arg (l, r)) = after_read r).
Proof.
  unfold query_arg.
  destruct (regex_match arg regex_query_chlist) as [m1|].
  { rewrite GetAliasSernum_eq.
    match goal with |- context [if Is_Sernum_Present ?s ?c then _ else _] =>
      destruct (Is_Sernum_Present s c) end; cbn [fst snd module set_bad_sernum]; auto.
    match goal with |- context [if Z.leb ?a ?b then _ else _] =>
      destruct (Z.leb a b) end; cbn [fst snd module push_query set_error]; auto. }
  destruct (regex_match arg regex_alias_name) as [m2|];
    [|cbn [fst snd module set_error]; auto].
  rewrite GetAliasSernum_eq.
  match goal with |- context [if Is_Sernum_Present ?s ?c then _ else _] =>
    destruct (Is_Sernum_Present s c) end; cbn [fst snd module push_query set_bad_sernum]; auto.
Qed.

Lemma for_args_set_frame chans todo : forall l r,
  module_keys (module l) = true ->
  module_keys (module (fst (for_args (set_arg chans) todo (l, r)))) = true
  /\ read_only r (snd (for_args (set_arg chans) todo (l, r))).
Proof.
  induction todo as [|arg todo IH]; intros l r Hm; cbn [for_args fst snd].
  - split; [exact Hm|apply read_only_refl].
  - destruct (is_none (error l)); [|split; [exact Hm|apply read_only_refl]].
    destruct (set_arg_frame chans arg l r Hm) as [Hk Hr].
    destruct (set_arg chans arg (l, r)) as [l1 r1]. cbn [fst snd] in *.
    destruct (IH l1 r1 Hk) as [Hk' (P & W & F)]. split; [exact Hk'|].
    destruct Hr as [-> | ->]; [repeat split; assumption|].
    repeat split.
    + rewrite P. apply persisted_after_read.
    + rewrite W. apply writes_after_read.
    + rewrite F. apply writable_after_read.
Qed.

Lemma for_args_query_frame chans todo : forall l r,
  module (fst (for_args (query_arg chans) todo (l, r))) = module l
  /\ read_only r (snd (for_args (query_arg chans) todo (l, r))).
Proof.
  induction todo as [|arg todo IH]; intros l r; cbn [for_args fst snd].
  - split; [reflexivity|apply read_only_refl].
  - destruct (is_none (error l)); [|split; [reflexivity|apply read_only_refl]].
    destruct (query_arg_frame chans arg l r) as [Hk Hr].
    destruct (query_arg chans arg (l, r)) as [l1 r1]. cbn [fst snd] in *.
    destruct (IH l1 r1) as [Hk' (P & W & F)]. split; [congruence|].
    destruct Hr as [-> | ->]; [repeat split; assumption|].
    repeat split.
    + rewrite P. apply persisted_after_read.
    + rewrite W. apply writes_after_read.
    + rewrite F. apply writable_after_read.
Qed.

(** ** What the driver functions add to the world *)

Lemma grows_refl P w : grows P w w.
Proof.
  repeat split; [exists []|exists []]; rewrite ?app_nil_r; auto.
Qed.

Lemma grows_trans P w1 w2 w3 : grows P w1 w2 -> grows P w2 w3 -> grows P w1 w3.
Proof.
  intros (R1 & E1 & [o1 O1] & n1 & C1 & P1) (R2 & E2 & [o2 O2] & n2 & C2 & P2).
  repeat split; try congruence.
  - exists (o1 ++ o2). rewrite O2, O1, app_assoc. reflexivity.
  - exists (n1 ++ n2). rewrite C2, C1, app_assoc, forallb_app, P1, P2. auto.
Qed.

Lemma grows_weaken (P Q : drv_call -> bool) w w' :
  (forall c, P c = true -> Q c = true) -> grows P w w' -> grows Q w w'.
Proof.
  intros HPQ (R & E & O & n & C & Hn). repeat split; auto.
  exists n. split; [exact C|]. rewrite forallb_forall in *. auto.
Qed.

Lemma grows_call P c w : P c = true -> grows P w (call c w).
Proof.
  intros Hc. repeat split; [exists []; simpl; rewrite app_nil_r; reflexivity|].
  exists [c]. simpl. rewrite Hc. auto.
Qed.

Lemma grows_print P s w : grows P w (print s w).
Proof.
  repeat split; [exists s; reflexivity|]. exists []. simpl. rewrite app_nil_r. auto.
Qed.

Lemma grows_fold (A : Type) P (f : world -> A -> world) (ok : A -> Prop) l :
  (forall w a, ok a -> grows P w (f w a)) ->
  Forall ok l -> forall w, grows P w (fold_left f l w).
Proof.
  intros Hf Hl. induction Hl as [|a l Ha Hl IH]; intros w; simpl.
  - apply grows_refl.
  - eapply grows_trans; [apply Hf; exact Ha|apply IH].
Qed.

Lemma no_switch_in_range c : no_switch c = true -> call_in_range c = true.
Proof. destruct c; simpl; auto; discriminate. Qed.

Lemma grows_filter w w' :
  grows no_switch w w' ->
  filter is_switch_call (calls w') = filter is_switch_call (calls w).
Proof.
  intros (_ & _ & _ & n & -> & Hn). rewrite filter_app.
  replace (filter is_switch_call n) with (@nil drv_call); [apply app_nil_r|].
  symmetry. induction n as [|c n IH]; simpl in *; [reflexivity|].
  apply andb_prop in Hn. destruct Hn as [Hc Hn]. unfold no_switch in Hc.
  destruct (is_switch_call c); [discriminate|auto].
Qed.

(** *** The driver functions *)

Lemma Relays_Get_Sernums_grows d w :
  grows no_switch w (snd (Relays_Get_Sernums d w)).
Proof.
  unfold Relays_Get_Sernums.
  destruct (usb_relay_device_enumerate d); cbn [snd];
    repeat (eapply grows_trans; [|apply grows_call; reflexivity]); apply grows_refl.
Qed.

Lemma Relays_Set_channel_grows hHandle e w :
  ascii_in RELAY_IDX_MIN RELAY_IDX_MAX (fst e) = true ->
  grows call_in_range w (Relays_Set_channel hHandle e w).
Proof.
  destruct e as [ch st]. cbn [fst]. intros Hch. unfold Relays_Set_channel.
  destruct ch as [[] [] [] [] [] [] [] []]; try discriminate Hch;
    destruct st; cbn; try apply grows_refl; apply grows_call; reflexivity.
Qed.

Lemma Relays_Set_module_grows d chans e w :
  channel_keys (snd e) = true ->
  grows call_in_range w (Relays_Set_module d chans e w).
Proof.
  destruct e as [sernum m]. cbn [snd]. intros Hm. unfold Relays_Set_module.
  match goal with |- context [call (call_open_with_serial_number ?s ?n) w] =>
    set (w1 := call (call_open_with_serial_number s n) w) end.
  assert (G1 : grows call_in_range w w1) by (apply grows_call; reflexivity).
  match goal with |- context [if ?b then _ else _] => destruct b end; [|exact G1].
  eapply grows_trans; [exact G1|].
  eapply grows_trans; [|apply grows_call; reflexivity].
  apply (grows_fold _ _ _
           (fun e => ascii_in RELAY_IDX_MIN RELAY_IDX_MAX (fst e) = true)).
  - intros w0 a Ha. apply Relays_Set_channel_grows. exact Ha.
  - apply Forall_forall. unfold channel_keys in Hm. rewrite forallb_forall in Hm.
    exact Hm.
Qed.

Lemma Relays_Set_grows d modules chans w :
  module_keys modules = true ->
  grows call_in_range w (snd (Relays_Set d modules chans w)).
Proof.
  intros Hm. unfold Relays_Set.
  destruct (Z.eqb (usb_relay_init d) 0); cbn [snd]; [|apply grows_call; reflexivity].
  eapply grows_trans; [|apply grows_call; reflexivity].
  eapply grows_trans;
    [|apply (grows_fold _ _ _ (fun e => channel_keys (snd e) = true))].
  - apply grows_call. reflexivity.
  - intros w0 a Ha. apply Relays_Set_module_grows. exact Ha.
  - apply Forall_forall. unfold module_keys in Hm. rewrite forallb_forall in Hm.
    exact Hm.
Qed.

(** [Relays_Set] fails only when the driver does not initialize, and then
    it has made no other call. *)
Lemma Relays_Set_result d modules chans w :
  fst (Relays_Set d modules chans w) = NONE
  \/ Relays_Set d modules chans w = (NO_DRIVER_INIT, call call_init w).
Proof.
  unfold Relays_Set. destruct (Z.eqb (usb_relay_init d) 0); auto.
Qed.

Lemma Relays_Enumerate_loop_grows devs : forall w,
  grows no_switch w (Relays_Enumerate_loop devs w).
Proof.
  induction devs as [|[serial_number type] next IH]; intros w; simpl;
    [apply grows_refl|].
  eapply grows_trans; [|apply IH].
  destruct (is_empty next); [|eapply grows_trans; [|apply grows_print]];
    (eapply grows_trans; [|apply grows_print]); apply grows_print.
Qed.

Lemma Relays_Enumerate_grows d w :
  grows no_switch w (snd (Relays_Enumerate d w)).
Proof.
  unfold Relays_Enumerate.
  destruct (Z.eqb (usb_relay_init d) 0); cbn [snd]; [|apply grows_call; reflexivity].
  destruct (usb_relay_device_enumerate d) as [|dev devs] eqn:E; cbn [snd].
  - repeat (eapply grows_trans; [|apply grows_call; reflexivity]). apply grows_refl.
  - do 2 (eapply grows_trans; [|apply grows_call; reflexivity]).
    eapply grows_trans; [|apply Relays_Enumerate_loop_grows].
    repeat (eapply grows_trans; [|apply grows_call; reflexivity]). apply grows_refl.
Qed.

Lemma Relays_Query_char_grows status num_channels c w :
  grows no_switch w (Relays_Query_char status num_channels c w).
Proof.
  unfold Relays_Query_char.
  repeat match goal with |- context [if ?b then _ else _] => destruct b end;
    try apply grows_refl; apply grows_print.
Qed.

Lemma Relays_Query_one_grows d chans Q st :
  grows no_switch (snd st) (snd (Relays_Query_one d chans Q st)).
Proof.
  destruct st as [e w]. unfold Relays_Query_one. cbn [snd].
  match goal with |- context [if Z.ltb 0 ?n then _ else _] => destruct (Z.ltb 0 n) end;
    cbn [snd]; [|apply grows_refl].
  eapply grows_trans; [|apply grows_print].
  match goal with |- context [call (call_open_with_serial_number ?s ?n) w] =>
    set (w1 := call (call_open_with_serial_number s n) w) end.
  assert (G1 : grows no_switch w w1) by (apply grows_call; reflexivity).
  match goal with |- context [if negb ?b then _ else _] => destruct (negb b) end;
    [|exact G1].
  eapply grows_trans; [exact G1|].
  eapply grows_trans; [|apply grows_call; reflexivity].
  eapply grows_trans; [|apply (grows_fold _ _ _ (fun _ => True))].
  - apply grows_call. reflexivity.
  - intros w0 a _. apply Relays_Query_char_grows.
  - apply Forall_forall. auto.
Qed.

Lemma Relays_Query_fold_grows d chans queries : forall st,
  grows no_switch (snd st)
        (snd (fold_left (fun st Q => Relays_Query_one d chans Q st) queries st)).
Proof.
  induction queries as [|Q queries IH]; intros st; simpl; [apply grows_refl|].
  eapply grows_trans; [apply Relays_Query_one_grows|apply IH].
Qed.

Lemma Relays_Query_grows d queries chans w :
  grows no_switch w (snd (Relays_Query d queries chans w)).
Proof.
  unfold Relays_Query.
  destruct (Z.eqb (usb_relay_init d) 0); cbn [snd]; [|apply grows_call; reflexivity].
  pose proof (Relays_Query_fold_grows d chans queries (NONE, call call_init w)) as G.
  destruct (fold_left _ queries (NONE, call call_init w)) as [e w1]. cbn [snd] in *.
  eapply grows_trans; [|apply grows_call; reflexivity].
  eapply grows_trans; [|exact G]. apply grows_call. reflexivity.
Qed.

Lemma PrintUsage_grows P strProgName w : grows P w (PrintUsage strProgName w).
Proof. unfold PrintUsage. apply grows_print. Qed.

(** *** The command line *)

Lemma grows_talks P w w' : grows P w w' -> talks P w w'.
Proof. intros (_ & H). exact H. Qed.

Lemma talks_grows P w1 w2 w3 : talks P w1 w2 -> grows P w2 w3 -> talks P w1 w3.
Proof.
  intros (E1 & [o1 O1] & n1 & C1 & P1) (_ & E2 & [o2 O2] & n2 & C2 & P2).
  repeat split; try congruence.
  - exists (o1 ++ o2). rewrite O2, O1, app_assoc. reflexivity.
  - exists (n1 ++ n2). rewrite C2, C1, app_assoc, forallb_app, P1, P2. auto.
Qed.

Lemma talks_set_reg P w w' r : talks P w w' -> talks P w (set_reg r w').
Proof. intros H. exact H. Qed.

Lemma talks_print P w w' s : talks P w w' -> talks P w (print s w').
Proof.
  intros (E & [o O] & C). repeat split; auto.
  exists (o ++ s). simpl. rewrite O, app_assoc. reflexivity.
Qed.

Lemma talks_eprint P w w' s :
  talks P w w' ->
  exists new, calls (eprint s w') = calls w ++ new /\ forallb P new = true.
Proof. intros (_ & _ & C). exact C. Qed.

(** What [parse_args] does besides choosing the command: it prints on
    [cout] only, makes no call that switches a relay, schedules channels
    ['1'] to ['8'] only and, unless the command is [ALIAS], at most reads
    the registry. *)
Lemma parse_args_frame d args w :
  talks no_switch w (snd (parse_args d args w))
  /\ module_keys (module (snd (fst (fst (parse_args d args w))))) = true
  /\ (not_alias_command args ->
      read_only (reg w) (reg (snd (parse_args d args w)))).
Proof.
  assert (T0 : talks no_switch w w) by (apply grows_talks, grows_refl).
  unfold parse_args. destruct args as [|cmd rest].
  { cbn [fst snd]. split; [exact T0|]. split; [reflexivity|].
    intros _. apply read_only_refl. }
  destruct (matches cmd regex_help).
  { destruct (Nat.eqb (length (cmd :: rest)) 1); cbn [fst snd];
      (split; [exact T0|]; split; [reflexivity|]; intros _; apply read_only_refl). }
  destruct (matches cmd regex_enumerate).
  { destruct (Nat.eqb (length (cmd :: rest)) 1); cbn [fst snd];
      (split; [exact T0|]; split; [reflexivity|]; intros _; apply read_only_refl). }
  pose proof (Relays_Get_Sernums_grows d w) as G.
  destruct (Relays_Get_Sernums d w) as [[found chans] w1]. cbn [snd] in G.
  assert (T1 : talks no_switch w w1) by (apply grows_talks; exact G).
  assert (R1 : reg w1 = reg w) by (apply G).
  destruct found;
    [|cbn [fst snd]; split; [exact T1|]; split; [reflexivity|];
      intros _; rewrite R1; apply read_only_refl].
  destruct (matches cmd regex_alias) eqn:Ea.
  { cbn [andb length Nat.leb].
    destruct (Nat.eqb (S (length rest)) 1).
    - destruct (ListAlias (reg w1)) as [r out]. cbn [fst snd module locals0].
      split; [apply talks_print, talks_set_reg; exact T1|].
      split; [reflexivity|]. cbn [not_alias_command]. congruence.
    - destruct (alias_args (rev rest) (NONE, reg w1)) as [e r].
      destruct (is_none e).
      + cbn [reg set_reg]. destruct (ListAlias r) as [r' out].
        cbn [fst snd module locals0].
        split; [apply talks_print, talks_set_reg; exact T1|].
        split; [reflexivity|]. cbn [not_alias_command]. congruence.
      + cbn [fst snd module locals0 set_error].
        split; [exact T1|]. split; [reflexivity|].
        cbn [not_alias_command]. congruence. }
  cbn [andb].
  destruct (matches cmd regex_set && Nat.ltb 1 (length (cmd :: rest))).
  { destruct (for_args_set_frame chans rest locals0 (reg w1) eq_refl) as [Hk Hr].
    destruct (for_args (set_arg chans) rest (locals0, reg w1)) as [l r].
    cbn [fst snd] in *. split; [exact T1|]. split; [exact Hk|].
    intros _. cbn [reg set_reg]. rewrite <- R1. exact Hr. }
  destruct (matches cmd regex_query).
  { destruct (for_args_query_frame chans rest locals0 (reg w1)) as [Hk Hr].
    destruct (for_args (query_arg chans) rest (locals0, reg w1)) as [l r].
    cbn [fst snd] in *. split; [exact T1|]. split; [rewrite Hk; reflexivity|].
    intros _. cbn [reg set_reg]. rewrite <- R1. exact Hr. }
  cbn [fst snd module locals0 set_error].
  split; [exact T1|]. split; [reflexivity|].
  intros _. rewrite R1. apply read_only_refl.
Qed.

(** What [main] runs once the command line is parsed. *)
Lemma main_eq d strProgName args w :
  main d strProgName args w
  = let p := parse_args d args w in
    let f := fst (fst (fst p)) in
    let l := snd (fst (fst p)) in
    let chans := snd (fst p) in
    let ew :=
      if is_none (error l) then
        if is_help f then (error l, PrintUsage strProgName (snd p))
        else if is_enumerate f then Relays_Enumerate d (snd p)
        else if is_set f then Relays_Set d (module l) chans (snd p)
        else if is_query f then Relays_Query d (queries l) chans (snd p)
        else (error l, snd p)
      else (error l, snd p) in
    (int_of_error (fst ew), eprint (error_message (fst ew) (error_sernum l)) (snd ew)).
Proof.
  unfold main. destruct (parse_args d args w) as [[[f l] chans] w1]. cbn [fst snd].
  destruct (if is_none (error l) then _ else _) as [e w2]. reflexivity.
Qed.

(** The world [main] leaves before the final message, and its error. *)
Lemma main_dispatch d strProgName args w :
  exists e w2,
    main d strProgName args w
    = (int_of_error e,
       eprint (error_message e (error_sernum (snd (fst (fst (parse_args d args w)))))) w2)
    /\ grows call_in_range (snd (parse_args d args w)) w2
    /\ (e <> NONE -> grows no_switch (snd (parse_args d args w)) w2).
Proof.
  rewrite main_eq. cbv zeta.
  destruct (parse_args_frame d args w) as (_ & Hk & _).
  set (p := parse_args d args w) in *.
  set (l := snd (fst (fst p))) in *. set (f := fst (fst (fst p))).
  destruct (is_none (error l)) eqn:En.
  - destruct (is_help f).
    { eexists _, _. split; [reflexivity|]. cbn [fst snd].
      split; [apply PrintUsage_grows|]. intros _. apply PrintUsage_grows. }
    destruct (is_enumerate f).
    { eexists _, _. split; [reflexivity|].
      pose proof (Relays_Enumerate_grows d (snd p)) as G.
      split; [|intros _; exact G].
      eapply grows_weaken; [apply no_switch_in_range|exact G]. }
    destruct (is_set f).
    { eexists _, _. split; [reflexivity|].
      split; [apply Relays_Set_grows; exact Hk|].
      intros Hne. destruct (Relays_Set_result d (module l) (snd (fst p)) (snd p))
        as [E|E]; [congruence|].
      rewrite E. cbn [snd]. apply grows_call. reflexivity. }
    destruct (is_query f).
    { eexists _, _. split; [reflexivity|].
      pose proof (Relays_Query_grows d (queries l) (snd (fst p)) (snd p)) as G.
      split; [|intros _; exact G].
      eapply grows_weaken; [apply no_switch_in_range|exact G]. }
    eexists _, _. split; [reflexivity|]. cbn [fst snd].
    split; [apply grows_refl|]. intros _. apply grows_refl.
  - eexists _, _. split; [reflexivity|]. cbn [fst snd].
    split; [apply grows_refl|]. intros _. apply grows_refl.
Qed.

Lemma int_of_error_zero e : int_of_error e = 0%Z <-> e = NONE.
Proof. destruct e; simpl; split; intros E; try reflexivity; try discriminate. Qed.

Lemma error_message_empty e sn : error_message e sn = [] <-> e = NONE.
Proof.
  destruct e; simpl; split; intros E; try reflexivity; try discriminate.
Qed.

(** X16.  Whatever the driver, the arguments and the registry, the program
    only adds calls to the log of the driver, never makes an all-channel
    call, and every one-channel call it makes names a channel from 1 to
    8. *)
Theorem main_calls_in_range (d : driver) (strProgName : str) (args : list str)
    (w : world) :
  exists new,
    calls (snd (main d strProgName args w)) = calls w ++ new
    /\ forallb call_in_range new = true.
Proof.
  destruct (main_dispatch d strProgName args w) as (e & w2 & -> & G & _).
  destruct (parse_args_frame d args w) as (T & _ & _).
  cbn [snd]. apply (talks_eprint call_in_range w w2).
  eapply talks_grows; [|exact G].
  destruct T as (E & O & n & C & Hn). repeat split; auto.
  exists n. split; [exact C|]. rewrite forallb_forall in *.
  intros c Hc. apply no_switch_in_range. auto.
Qed.

(** X17.  A run that returns a code other than 0 has switched no relay:
    the arguments of [SET] are all checked before the first module is
    opened. *)
Theorem main_failure_switches_nothing (d : driver) (strProgName : str)
    (args : list str) (w : world) :
  fst (main d strProgName args w) <> 0%Z ->
  filter is_switch_call (calls (snd (main d strProgName args w)))
  = filter is_switch_call (calls w).
Proof.
  destruct (main_dispatch d strProgName args w) as (e & w2 & -> & _ & G).
  destruct (parse_args_frame d args w) as (T & _ & _).
  cbn [fst snd]. intros Hne.
  assert (He : e <> NONE) by (intros ->; apply Hne; reflexivity).
  specialize (G He).
  destruct (talks_grows _ _ _ _ T G) as (_ & _ & n & C & Hn).
  cbn [eprint calls]. rewrite C, filter_app.
  replace (filter is_switch_call n) with (@nil drv_call); [apply app_nil_r|].
  symmetry. clear C. induction n as [|c n IH]; simpl in *; [reflexivity|].
  apply andb_prop in Hn. destruct Hn as [Hc Hn]. unfold no_switch in Hc.
  destruct (is_switch_call c); [discriminate|auto].
Qed.

Lemma main_failure_switches_nothing_witness :
  let res := relay ["set"; "6QMBS"; "2=ON"; "5XARZ:1111"; "6VXAT"; "8=ON"]%string fresh in
  fst res = (-5)%Z /\ filter is_switch_call (calls (snd res)) = [].
Proof.
  intros res. split; [reflexivity|].
  apply (main_failure_switches_nothing bench (lit "Relay.exe")
           (map lit ["set"; "6QMBS"; "2=ON"; "5XARZ:1111"; "6VXAT"; "8=ON"]%string)
           fresh).
  vm_compute. discriminate.
Defined.

(** X18.  The exit code is the code of one of the errors, what the run
    adds to [cerr] is the message of that error, and nothing is added to
    [cerr] exactly when the exit code is 0. *)
Theorem main_error_message (d : driver) (strProgName : str) (args : list str)
    (w : world) :
  exists e sn,
    fst (main d strProgName args w) = int_of_error e
    /\ cerr (snd (main d strProgName args w)) = cerr w ++ error_message e sn
    /\ (cerr (snd (main d strProgName args w)) = cerr w
        <-> fst (main d strProgName args w) = 0%Z).
Proof.
  destruct (main_dispatch d strProgName args w) as (e & w2 & -> & G & _).
  destruct (parse_args_frame d args w) as ((E1 & _) & _ & _).
  destruct G as (_ & E2 & _).
  exists e, (error_sernum (snd (fst (fst (parse_args d args w))))).
  cbn [fst snd eprint cerr]. rewrite E2, E1.
  split; [reflexivity|]. split; [reflexivity|].
  rewrite int_of_error_zero, <- error_message_empty. split.
  - intros E. apply (app_inv_head (cerr w)). rewrite app_nil_r. exact E.
  - intros ->. apply app_nil_r.
Qed.

(** X19.  A run whose first argument is not the [ALIAS] command leaves
    the list of aliases as it was and does not call [WriteRegSZ]. *)
Theorem main_registry_read_only (d : driver) (strProgName : str) (args : list str)
    (w : world) :
  not_alias_command args ->
  persisted (reg (snd (main d strProgName args w))) = persisted (reg w)
  /\ writes (reg_log (reg (snd (main d strProgName args w)))) = writes (reg_log (reg w)).
Proof.
  intros Hc.
  destruct (main_dispatch d strProgName args w) as (e & w2 & -> & G & _).
  destruct (parse_args_frame d args w) as (_ & _ & R).
  destruct (R Hc) as (P & W & _). destruct G as (E & _).
  cbn [snd eprint reg]. rewrite E. auto.
Qed.

Lemma main_registry_read_only_witness :
  let w := mk_world (mk_registry (Some (lit "#1=6QMBS")) true []) [] [] [] in
  let res := relay ["set"; "#1:01"]%string w in
  persisted (reg (snd res)) = [(lit "#1", lit "6QMBS")]
  /\ writes (reg_log (reg (snd res))) = [].
Proof.
  intros w res.
  destruct (main_registry_read_only bench (lit "Relay.exe")
              (map lit ["set"; "#1:01"]%string) w eq_refl) as (P & W).
  split; [exact P|exact W].
Defined.

(** ** Words of the patterns *)

Lemma in_all_chars c : In c all_chars.
Proof.
  unfold all_chars. apply in_map_iff. exists (nat_of_ascii c).
  split; [apply ascii_nat_embedding|]. apply in_seq.
  pose proof (nat_ascii_bounded c). lia.
Qed.

(** Under [icase] a character of a pattern stands for its two cases. *)
Lemma chr_match_icase a c :
  chr_match true a c = Ascii.eqb (toupper a) (toupper c).
Proof.
  assert (T : forallb (fun a => forallb (fun c =>
                Bool.eqb (chr_match true a c) (Ascii.eqb (toupper a) (toupper c)))
                all_chars) all_chars = true) by (vm_compute; reflexivity).
  rewrite forallb_forall in T. specialize (T a (in_all_chars a)).
  rewrite forallb_forall in T. specialize (T c (in_all_chars c)).
  apply Bool.eqb_prop in T. exact T.
Qed.

Lemma matches_iff s re :
  matches s re = true <-> exists u c, In (u, c, []) (run (icase re) (pat re) true s).
Proof.
  unfold matches. split.
  - destruct (regex_match s re) as [m|] eqn:E; [|discriminate]. intros _.
    apply regex_match_sound in E. destruct E as [Hi _]. eauto.
  - intros (u & c & Hi). unfold regex_match.
    destruct (filter ends_input (run (icase re) (pat re) true s))
      as [|[[u' c'] rest'] tl] eqn:F; [|reflexivity].
    assert (Hf : In (u, c, []) (filter ends_input (run (icase re) (pat re) true s)))
      by (apply filter_In; split; [exact Hi|reflexivity]).
    rewrite F in Hf. destruct Hf.
Qed.

Lemma in_run_Alt ic r1 r2 bol s x :
  In x (run ic (Alt r1 r2) bol s) <-> In x (run ic r1 bol s) \/ In x (run ic r2 bol s).
Proof. simpl. apply in_app_iff. Qed.

Lemma in_run_word w : forall bol s u c rest,
  w <> [] ->
  (In (u, c, rest) (run true (word w) bol s) <->
   s = u ++ rest /\ c = [] /\ length u = length w /\ str_toupper u = str_toupper w).
Proof.
  induction w as [|a w IH]; intros bol s u c rest Hw; [congruence|].
  destruct w as [|b w].
  - cbn [word]. rewrite in_run_Chr. split.
    + intros (x & -> & Mx & -> & ->). rewrite chr_match_icase in Mx.
      apply Ascii.eqb_eq in Mx. simpl. rewrite Mx. auto.
    + intros (-> & -> & Hl & Hu). destruct u as [|x [|y u]]; try discriminate.
      exists x. simpl in Hu. inversion Hu as [Hx]. rewrite chr_match_icase, Hx.
      rewrite Ascii.eqb_refl. auto.
  - change (word (a :: b :: w)) with (Seq (Chr a) (word (b :: w))).
    rewrite in_run_Seq. split.
    + intros (u1 & c1 & s1 & u2 & c2 & H1 & H2 & -> & ->).
      apply in_run_Chr in H1. destruct H1 as (x & -> & Mx & -> & ->).
      apply IH in H2; [|discriminate]. destruct H2 as (-> & -> & Hl & Hu).
      rewrite chr_match_icase in Mx. apply Ascii.eqb_eq in Mx.
      cbn [app length str_toupper map] in *. unfold str_toupper in Hu.
      rewrite Hl, Hu, Mx. auto.
    + intros (-> & -> & Hl & Hu). destruct u as [|x u]; [discriminate|].
      cbn [length str_toupper map] in Hl, Hu. inversion Hu as [[Hx Hu']].
      exists [x], [], (u ++ rest), u, []. split; [|split; [|auto]].
      * apply in_run_Chr. exists x. rewrite chr_match_icase, Hx, Ascii.eqb_refl. auto.
      * apply IH; [discriminate|]. cbn [length]. auto.
Qed.

(** A pattern [^(?:...)$]. *)
Lemma matches_anchored r s :
  matches s (mk (Seq Bol (Seq r Eol)) true) = true
  <-> exists c, In (s, c, []) (run true r true s).
Proof.
  rewrite matches_iff. simpl icase. simpl pat. split.
  - intros (u & c & Hi). apply in_run_Seq in Hi.
    destruct Hi as (u1 & c1 & s1 & u2 & c2 & H1 & H2 & -> & ->).
    apply in_run_Bol in H1. destruct H1 as (_ & -> & -> & ->).
    apply in_run_Seq in H2.
    destruct H2 as (u1 & c1 & s1 & u3 & c3 & H1 & H2 & -> & ->).
    apply in_run_Eol in H2. destruct H2 as (-> & -> & -> & _).
    pose proof (run_sound _ _ _ _ _ _ _ H1) as Es. rewrite app_nil_r in Es. subst u1.
    eauto.
  - intros (c & Hi). exists ([] ++ s ++ []), ([] ++ c ++ []).
    apply in_run_Seq. exists [], [], s, (s ++ []), (c ++ []).
    split; [apply in_run_Bol; auto|]. split; [|auto].
    apply in_run_Seq. exists s, c, [], [], [].
    split; [exact Hi|]. split; [apply in_run_Eol; auto|auto].
Qed.

Lemma whole_word w s c :
  w <> [] ->
  (In (s, c, []) (run true (word w) true s)
   <-> c = [] /\ str_eqb (str_toupper s) (str_toupper w) = true).
Proof.
  intros Hw. rewrite in_run_word by exact Hw. rewrite str_eqb_eq. split.
  - intros (_ & -> & _ & E). auto.
  - intros (-> & E). rewrite app_nil_r. repeat split; auto.
    apply (f_equal (@length ascii)) in E. unfold str_toupper in E.
    rewrite !length_map in E. exact E.
Qed.

Ltac word_cases :=
  repeat first
    [ rewrite in_run_Alt
    | rewrite whole_word by discriminate ].

Lemma matches_on_vals s :
  matches s regex_on_vals = word_in s ["ON"; "1"; "H"; "NO"]%string.
Proof.
  apply eq_true_iff_eq. unfold regex_on_vals, on_words. rewrite matches_anchored.
  unfold word_in. cbn [existsb]. rewrite !orb_true_iff. split.
  - intros (c & Hi). revert Hi. word_cases. intuition auto.
  - intros Hw. exists []. word_cases. intuition (auto; discriminate).
Qed.

Lemma matches_off_vals s :
  matches s regex_off_vals = word_in s ["OFF"; "0"; "L"; "NC"]%string.
Proof.
  apply eq_true_iff_eq. unfold regex_off_vals, off_words. rewrite matches_anchored.
  unfold word_in. cbn [existsb]. rewrite !orb_true_iff. split.
  - intros (c & Hi). revert Hi. word_cases. intuition auto.
  - intros Hw. exists []. word_cases. intuition (auto; discriminate).
Qed.

(** X2.  [get_state] on a text gives [H] for [ON], [1], [H] and [NO], it
    gives [L] for [OFF], [0], [L] and [NC], the text taken as a whole and
    in either case, and [X] for every other text. *)
Theorem get_state_words (status : str) :
  get_state status
  = if word_in status ["ON"; "1"; "H"; "NO"]%string then H
    else if word_in status ["OFF"; "0"; "L"; "NC"]%string then L
    else X.
Proof. unfold get_state. rewrite matches_on_vals, matches_off_vals. reflexivity. Qed.

Lemma matches_enumerate s :
  matches s regex_enumerate = word_in s ["ENUM"; "ENUMERATE"; "L"; "LIST"]%string.
Proof.
  apply eq_true_iff_eq. unfold regex_enumerate. rewrite matches_anchored.
  unfold word_in. cbn [existsb]. rewrite !orb_true_iff. split.
  - intros (c & Hi). revert Hi. word_cases. intuition auto.
  - intros Hw. exists []. word_cases. intuition (auto; discriminate).
Qed.

Lemma matches_set s : matches s regex_set = word_in s ["SET"]%string.
Proof.
  apply eq_true_iff_eq. unfold regex_set. rewrite matches_anchored.
  unfold word_in. cbn [existsb]. rewrite !orb_true_iff. split.
  - intros (c & Hi). revert Hi. word_cases. intuition auto.
  - intros Hw. exists []. word_cases. intuition (auto; discriminate).
Qed.

Lemma matches_query s : matches s regex_query = word_in s ["Q"; "QUERY"]%string.
Proof.
  apply eq_true_iff_eq. unfold regex_query. rewrite matches_anchored.
  unfold word_in. cbn [existsb]. rewrite !orb_true_iff. split.
  - intros (c & Hi). revert Hi. word_cases. intuition auto.
  - intros Hw. exists []. word_cases. intuition (auto; discriminate).
Qed.

Lemma matches_alias s : matches s regex_alias = word_in s ["ALIAS"]%string.
Proof.
  apply eq_true_iff_eq. unfold regex_alias. rewrite matches_anchored.
  unfold word_in. cbn [existsb]. rewrite !orb_true_iff. split.
  - intros (c & Hi). revert Hi. word_cases. intuition auto.
  - intros Hw. exists []. word_cases. intuition (auto; discriminate).
Qed.

(** ** The command words, read directly *)

Lemma toupper_slash x : toupper x = "/" -> x = "/".
Proof. each_char x. Qed.

Lemma toupper_minus x : toupper x = "-" -> x = "-".
Proof. each_char x. Qed.

Lemma word_in_iff s ws :
  word_in s ws = true
  <-> In (str_toupper s) (map (fun w => str_toupper (lit w)) ws).
Proof.
  unfold word_in. rewrite existsb_exists, in_map_iff. split.
  - intros (w & Hw & E). apply str_eqb_eq in E. eauto.
  - intros (w & E & Hw). exists w. rewrite str_eqb_eq. auto.
Qed.

Lemma str_toupper_length s w : str_toupper s = w -> length s = length w.
Proof. intros <-. unfold str_toupper. rewrite length_map. reflexivity. Qed.

Lemma help_words bol t u c :
  In (u, c, [])
     (run true (Seq (Alt (word (lit "H")) (Alt (word (lit "Help")) (word (lit "?")))) Eol)
          bol t)
  <-> u = t /\ c = [] /\ word_in t ["H"; "HELP"; "?"]%string = true.
Proof.
  rewrite in_run_Seq, word_in_iff. simpl map. split.
  - intros (u1 & c1 & s1 & u2 & c2 & H1 & H2 & -> & ->).
    apply in_run_Eol in H2. destruct H2 as (-> & -> & -> & _).
    rewrite !in_run_Alt, !in_run_word in H1 by discriminate.
    rewrite !app_nil_r in *.
    destruct H1 as [(-> & -> & _ & E)|[(-> & -> & _ & E)|(-> & -> & _ & E)]];
      rewrite E; simpl; auto 10.
  - intros (-> & -> & Hw).
    exists t, [], [], [], []. rewrite !app_nil_r.
    split; [|split; [apply in_run_Eol; auto|auto]].
    rewrite !in_run_Alt, !in_run_word by discriminate. rewrite !app_nil_r.
    destruct Hw as [E|[E|[E|[]]]]; symmetry in E;
      pose proof (str_toupper_length _ _ E); auto 10.
Qed.

Lemma help_prefix s u c rest :
  In (u, c, rest) (run true (Opt (Alt (word (lit "/")) (word (lit "-")))) true s)
  <-> c = []
      /\ ((u = [] /\ rest = s)
          \/ exists x, (x = "/" \/ x = "-") /\ u = [x] /\ s = x :: rest).
Proof.
  rewrite in_run_Opt, in_run_Alt, !in_run_word by discriminate. split.
  - intros [[(-> & -> & Hl & E)|(-> & -> & Hl & E)]|E].
    + destruct u as [|x [|y u]]; try discriminate. inversion E as [Ex].
      apply toupper_slash in Ex. subst x. split; [reflexivity|]. right.
      exists "/". auto.
    + destruct u as [|x [|y u]]; try discriminate. inversion E as [Ex].
      apply toupper_minus in Ex. subst x. split; [reflexivity|]. right.
      exists "-". auto.
    + inversion E; subst. auto.
  - intros (-> & [[-> ->]|(x & Hx & -> & ->)]); [auto|].
    left. destruct Hx as [-> | ->]; [left|right]; repeat split.
Qed.

Lemma matches_help s :
  matches s regex_help
  = word_in s ["H"; "HELP"; "?"; "/H"; "/HELP"; "/?"; "-H"; "-HELP"; "-?"]%string.
Proof.
  apply eq_true_iff_eq. rewrite matches_iff. unfold regex_help.
  simpl icase. simpl pat.
  change (Chr "?") with (word (lit "?")).
  change (Chr "/") with (word (lit "/")).
  change (Chr "-") with (word (lit "-")).
  rewrite word_in_iff. simpl map. split.
  - intros (u & c & Hi). apply in_run_Seq in Hi.
    destruct Hi as (u1 & c1 & s1 & u2 & c2 & H1 & H2 & -> & ->).
    apply in_run_Bol in H1. destruct H1 as (_ & -> & -> & ->).
    apply in_run_Seq in H2.
    destruct H2 as (u1 & c1 & s1 & u3 & c3 & H1 & H2 & -> & ->).
    apply help_prefix in H1. apply help_words in H2.
    destruct H2 as (-> & -> & Hw). rewrite word_in_iff in Hw. simpl map in Hw.
    destruct H1 as (-> & [[-> ->]|(x & Hx & -> & ->)]).
    + simpl in *. tauto.
    + cbn [str_toupper map].
      change (map toupper s1) with (str_toupper s1).
      destruct Hx as [-> | ->]; simpl toupper;
        destruct Hw as [E|[E|[E|[]]]]; rewrite <- E; simpl; auto 12.
  - intros Hw.
    assert (Plain : word_in s ["H"; "HELP"; "?"]%string = true ->
                    exists u c,
                      In (u, c, [])
                         (run true
                            (Seq Bol
                               (Seq (Opt (Alt (word (lit "/")) (word (lit "-"))))
                                  (Seq (Alt (word (lit "H"))
                                          (Alt (word (lit "Help")) (word (lit "?"))))
                                     Eol))) true s)).
    { intros Hp. exists ([] ++ [] ++ s), ([] ++ [] ++ []).
      apply in_run_Seq. exists [], [], s, ([] ++ s), ([] ++ []).
      split; [apply in_run_Bol; auto|]. split; [|auto].
      apply in_run_Seq. exists [], [], s, s, [].
      split; [apply help_prefix; auto|]. split; [|auto].
      apply help_words. auto. }
    assert (Pre : forall x s1,
               s = x :: s1 -> x = "/" \/ x = "-" ->
               word_in s1 ["H"; "HELP"; "?"]%string = true ->
               exists u c,
                 In (u, c, [])
                    (run true
                       (Seq Bol
                          (Seq (Opt (Alt (word (lit "/")) (word (lit "-"))))
                             (Seq (Alt (word (lit "H"))
                                     (Alt (word (lit "Help")) (word (lit "?"))))
                                Eol))) true s)).
    { intros x s1 -> Hx Hp. exists ([] ++ [x] ++ s1), ([] ++ [] ++ []).
      apply in_run_Seq. exists [], [], (x :: s1), ([x] ++ s1), ([] ++ []).
      split; [apply in_run_Bol; auto|]. split; [|auto].
      apply in_run_Seq. exists [x], [], s1, s1, [].
      split; [apply help_prefix; split; [reflexivity|]; right; exists x; auto|].
      split; [|auto]. apply help_words. auto. }
    assert (Split : forall y W,
               str_toupper s = y :: W ->
               exists x s1, s = x :: s1 /\ toupper x = y /\ str_toupper s1 = W).
    { intros y W E. destruct s as [|x s1]; [discriminate|].
      inversion E. eauto. }
    destruct Hw as [E|[E|[E|[E|[E|[E|[E|[E|[E|[]]]]]]]]]]; symmetry in E.
    1-3: apply Plain; rewrite word_in_iff; simpl map; rewrite E; simpl; auto.
    1-3: destruct (Split _ _ E) as (x & s1 & Es & Ex & E1);
         apply toupper_slash in Ex;
         apply (Pre x s1 Es); [auto|];
         rewrite word_in_iff; simpl map; rewrite E1; simpl; auto.
    1-3: destruct (Split _ _ E) as (x & s1 & Es & Ex & E1);
         apply toupper_minus in Ex;
         apply (Pre x s1 Es); [auto|];
         rewrite word_in_iff; simpl map; rewrite E1; simpl; auto.
Qed.

(** X1.  The command word is compared as a whole and without regard to
    case.  Help is [H], [HELP] or [?], alone or after one [/] or [-]; the
    list command is [ENUM], [ENUMERATE], [L] or [LIST]; then [SET], [Q] or
    [QUERY], and [ALIAS].  No other text is one of these commands. *)
Theorem command_words (cmd : str) :
  matches cmd regex_help
  = word_in cmd ["H"; "HELP"; "?"; "/H"; "/HELP"; "/?"; "-H"; "-HELP"; "-?"]%string
  /\ matches cmd regex_enumerate = word_in cmd ["ENUM"; "ENUMERATE"; "L"; "LIST"]%string
  /\ matches cmd regex_set = word_in cmd ["SET"]%string
  /\ matches cmd regex_query = word_in cmd ["Q"; "QUERY"]%string
  /\ matches cmd regex_alias = word_in cmd ["ALIAS"]%string.
Proof.
  split; [apply matches_help|]. split; [apply matches_enumerate|].
  split; [apply matches_set|]. split; [apply matches_query|apply matches_alias].
Qed.

(** ** Serial numbers and alias names *)

Lemma sernum_char_is_alias_first c :
  sernum_char c = true -> alias_first_char c = true.
Proof. each_char c. Qed.

(** ** The orders of the two maps *)

Lemma char_ltb_trans a b c :
  char_ltb a b = true -> char_ltb b c = true -> char_ltb a c = true.
Proof. unfold char_ltb. rewrite !Nat.ltb_lt. lia. Qed.

Lemma char_ltb_total a b :
  char_ltb a b = false -> char_ltb b a = false -> a = b.
Proof.
  unfold char_ltb. rewrite !Nat.ltb_ge. intros H1 H2.
  rewrite <- (ascii_nat_embedding a), <- (ascii_nat_embedding b). f_equal. lia.
Qed.

Lemma char_ltb_asym a b : char_ltb a b = true -> char_ltb b a = false.
Proof. unfold char_ltb. rewrite Nat.ltb_lt, Nat.ltb_ge. lia. Qed.

Lemma str_ltb_trans a : forall b c,
  str_ltb a b = true -> str_ltb b c = true -> str_ltb a c = true.
Proof.
  induction a as [|x a IH]; intros [|y b] [|z c]; simpl; try discriminate; auto.
  destruct (char_ltb x y) eqn:Exy.
  - intros _. destruct (char_ltb y z) eqn:Eyz.
    + intros _. rewrite (char_ltb_trans x y z Exy Eyz). reflexivity.
    + destruct (char_ltb z y) eqn:Ezy; [discriminate|].
      rewrite (char_ltb_total y z Eyz Ezy) in Exy. rewrite Exy. reflexivity.
  - destruct (char_ltb y x) eqn:Eyx; [discriminate|].
    pose proof (char_ltb_total x y Exy Eyx) as ->.
    destruct (char_ltb y z); [reflexivity|].
    destruct (char_ltb z y); [discriminate|]. apply IH.
Qed.

Lemma str_ltb_total a : forall b,
  str_ltb a b = false -> str_ltb b a = false -> a = b.
Proof.
  induction a as [|x a IH]; intros [|y b]; simpl; try discriminate; auto.
  destruct (char_ltb x y) eqn:Exy; [discriminate|].
  destruct (char_ltb y x) eqn:Eyx; [discriminate|].
  intros H1 H2. rewrite (char_ltb_total x y Exy Eyx). f_equal. apply IH; assumption.
Qed.

Section Increasing.
Variables K V : Type.
Variable ltb : K -> K -> bool.
Hypothesis ltb_trans : forall a b c, ltb a b = true -> ltb b c = true -> ltb a c = true.
Hypothesis ltb_total : forall a b, ltb a b = false -> ltb b a = false -> a = b.

Lemma map_put_increasing (k : K) (v : V) (m : list (K * V)) :
  increasing ltb m -> increasing ltb (map_put ltb k v m).
Proof.
  induction m as [|[k0 v0] m IH]; intros Hm; cbn [map_put].
  - cbn. auto.
  - destruct Hm as [Hall Hs]. cbn [fst] in Hall.
    destruct (ltb k k0) eqn:E1.
    + cbn [increasing fst]. split; [|split; assumption].
      constructor; [exact E1|].
      rewrite Forall_forall in *. intros e He.
      apply (ltb_trans _ k0); [exact E1|]. apply (Hall e He).
    + destruct (ltb k0 k) eqn:E2.
      * cbn [increasing fst]. split; [|apply IH; exact Hs].
        rewrite Forall_forall in *. intros [k1 v1] He. cbn [fst].
        apply in_map_put in He.
        destruct He as [[-> _]|[He|(_ & v2 & He)]];
          [exact E2|apply (Hall _ He)|apply (Hall _ He)].
      * cbn [increasing fst]. split; assumption.
Qed.

(** On an increasing list, what is found under a key. *)
Lemma map_get_put_same (k : K) (v : V) (m : list (K * V)) :
  ltb k k = false -> map_get ltb k (map_put ltb k v m) = Some v.
Proof.
  intros Hk. induction m as [|[k0 v0] m IH]; simpl.
  - rewrite Hk. reflexivity.
  - destruct (ltb k k0) eqn:E1; simpl.
    + rewrite Hk. reflexivity.
    + destruct (ltb k0 k) eqn:E2; simpl.
      * rewrite E1, E2. simpl. exact IH.
      * rewrite E1, E2. reflexivity.
Qed.
End Increasing.

Lemma module_increasing_in (m : MODULE_SET) sn inner :
  Forall (fun e => increasing char_ltb (snd e)) m ->
  map_get str_ltb sn m = Some inner -> increasing char_ltb inner.
Proof.
  intros Hm G. apply map_get_in in G. destruct G as [k' Hi].
  rewrite Forall_forall in Hm. apply (Hm _ Hi).
Qed.

Lemma forall_map_put (P : MODULE -> Prop) sn inner (m : MODULE_SET) :
  P inner -> Forall (fun e => P (snd e)) m ->
  Forall (fun e => P (snd e)) (map_put str_ltb sn inner m).
Proof.
  intros Hi Hm. rewrite Forall_forall in *. intros [k v] He.
  apply in_map_put in He. destruct He as [[_ ->]|[He|(-> & _)]]; auto.
Qed.

Lemma module_reset_sorted sn m :
  module_set_sorted m -> module_set_sorted (module_reset sn m).
Proof.
  intros [Ho Hi]. split.
  - apply map_put_increasing; [apply str_ltb_trans|exact Ho].
  - apply (forall_map_put (increasing char_ltb)); [exact I|exact Hi].
Qed.

Lemma module_set_sorted_put sn ch st m :
  module_set_sorted m -> module_set_sorted (module_set sn ch st m).
Proof.
  intros [Ho Hi]. unfold module_set. split.
  - apply map_put_increasing; [apply str_ltb_trans|exact Ho].
  - apply (forall_map_put (increasing char_ltb)); [|exact Hi].
    apply map_put_increasing; [apply char_ltb_trans|].
    destruct (map_get str_ltb sn m) as [i|] eqn:G; [|exact I].
    apply (module_increasing_in m sn i Hi G).
Qed.

Lemma set_pattern_sorted sn pattern : forall j m,
  module_set_sorted m -> module_set_sorted (set_pattern sn j pattern m).
Proof.
  induction pattern as [|c pattern IH]; intros j m Hm; simpl; [exact Hm|].
  apply IH. apply module_set_sorted_put. exact Hm.
Qed.

Lemma set_arg_sorted chans arg l r :
  module_set_sorted (module l) ->
  module_set_sorted (module (fst (set_arg chans arg (l, r)))).
Proof.
  intros Hm. unfold set_arg.
  destruct (regex_match arg regex_alias_name) as [m1|].
  { destruct (GetAliasSernum (sub m1 1) r) as [sernum r1]. cbn [set_cur_sn cur_sn].
    match goal with |- context [if ?b then _ else _] => destruct b end;
      cbn [fst module set_bad_sernum]; exact Hm. }
  destruct (regex_match arg regex_sernum_pattern) as [m2|].
  { destruct (GetAliasSernum (sub m2 1) r) as [sernum r1]. cbn [set_cur_sn cur_sn].
    match goal with |- context [if Is_Sernum_Present ?s ?c then _ else _] =>
      destruct (Is_Sernum_Present s c) end; cbn [fst module set_bad_sernum]; auto.
    match goal with |- context [if Z.leb ?a ?b then _ else _] =>
      destruct (Z.leb a b) end; cbn [fst module set_module set_error]; auto.
    apply set_pattern_sorted, module_reset_sorted. exact Hm. }
  destruct (regex_match arg regex_ch_set) as [m3|];
    [|cbn [fst module set_error]; exact Hm].
  destruct (negb (is_empty (cur_sn l))); [|cbn [fst module set_error]; exact Hm].
  cbv zeta.
  set (l1 := if negb (map_contains str_ltb (cur_sn l) (module l))
             then set_module (module_reset (cur_sn l) (module l)) l else l).
  assert (H1 : module_set_sorted (module l1)).
  { unfold l1. destruct (negb (map_contains str_ltb (cur_sn l) (module l))); [|exact Hm].
    cbn [module set_module]. apply module_reset_sorted. exact Hm. }
  match goal with |- context [if Z.leb ?a ?b then _ else _] =>
    destruct (Z.leb a b) end; cbn [fst module set_module set_error]; auto.
  apply module_set_sorted_put. exact H1.
Qed.

Lemma for_args_set_sorted chans todo : forall l r,
  module_set_sorted (module l) ->
  module_set_sorted (module (fst (for_args (set_arg chans) todo (l, r)))).
Proof.
  induction todo as [|arg todo IH]; intros l r Hm; cbn [for_args fst]; [exact Hm|].
  destruct (is_none (error l)); [|exact Hm].
  pose proof (set_arg_sorted chans arg l r Hm) as H1.
  destruct (set_arg chans arg (l, r)) as [l1 r1]. apply IH. exact H1.
Qed.

Lemma set_schedules_once (chans : MODULE_CHANNELS) (args : list str) (r : registry) :
  module_set_sorted (module (fst (for_args (set_arg chans) args (locals0, r)))).
Proof.
  apply for_args_set_sorted. split; [exact I|constructor].
Qed.

(** ** Channels that exist *)

Lemma in_map_put_total (K V : Type) (ltb : K -> K -> bool)
    (k : K) (v : V) (m : list (K * V)) (k' : K) (v' : V) :
  (forall a b, ltb a b = false -> ltb b a = false -> a = b) ->
  In (k', v') (map_put ltb k v m) -> (k' = k /\ v' = v) \/ In (k', v') m.
Proof.
  intros Ht. induction m as [|[k0 v0] m IH]; simpl.
  - intros [E|[]]. inversion E. auto.
  - destruct (ltb k k0) eqn:E1.
    + intros [E|Hi]; [inversion E; auto|auto].
    + destruct (ltb k0 k) eqn:E2.
      * intros [E|Hi]; [inversion E; auto|]. destruct (IH Hi); auto.
      * intros [E|Hi]; [|auto]. inversion E; subst.
        left. split; [|reflexivity]. symmetry. apply Ht; assumption.
Qed.

Lemma map_get_in_total (K V : Type) (ltb : K -> K -> bool)
    (k : K) (m : list (K * V)) (v : V) :
  (forall a b, ltb a b = false -> ltb b a = false -> a = b) ->
  map_get ltb k m = Some v -> In (k, v) m.
Proof.
  intros Ht. induction m as [|[k0 v0] m IH]; simpl; [discriminate|].
  destruct (ltb k k0) eqn:E1; simpl; [auto|].
  destruct (ltb k0 k) eqn:E2; simpl; [auto|].
  intros E. inversion E; subst. left. f_equal. apply Ht; assumption.
Qed.

Lemma module_reset_exist chans sn m :
  channels_exist chans m -> channels_exist chans (module_reset sn m).
Proof.
  intros Hm s inner ch st Hi Hc. unfold module_reset in Hi.
  apply in_map_put_total in Hi; [|apply str_ltb_total].
  destruct Hi as [[_ ->]|Hi]; [destruct Hc|]. eapply Hm; eauto.
Qed.

Lemma module_set_exist chans sn ch st m :
  (1 <= channel_number ch <= Relays_Get_NumChannels sn chans)%Z ->
  channels_exist chans m -> channels_exist chans (module_set sn ch st m).
Proof.
  intros Hch Hm s inner c v Hi Hc. unfold module_set in Hi.
  apply in_map_put_total in Hi; [|apply str_ltb_total].
  destruct Hi as [[-> ->]|Hi]; [|eapply Hm; eauto].
  apply in_map_put_total in Hc; [|apply char_ltb_total].
  destruct Hc as [[-> _]|Hc]; [exact Hch|].
  destruct (map_get str_ltb sn m) as [i|] eqn:G; [|destruct Hc].
  apply map_get_in_total in G; [|apply str_ltb_total]. eapply Hm; eauto.
Qed.

Lemma channel_number_char j : j < 200 -> channel_number (channel_char j) = (Z.of_nat j + 1)%Z.
Proof.
  intros Hj. unfold channel_number. rewrite channel_key by exact Hj.
  change (nat_of_ascii "0") with 48. lia.
Qed.

Lemma set_pattern_exist chans sn pattern : forall j m,
  j + length pattern < 200 ->
  (Z.of_nat (j + length pattern) <= Relays_Get_NumChannels sn chans)%Z ->
  channels_exist chans m -> channels_exist chans (set_pattern sn j pattern m).
Proof.
  induction pattern as [|c pattern IH]; intros j m Hb Hj Hm; simpl; [exact Hm|].
  simpl in Hb, Hj. apply IH; [lia|rewrite <- Nat.add_succ_comm in Hj; exact Hj|].
  apply module_set_exist; [|exact Hm]. rewrite channel_number_char by lia. lia.
Qed.

Lemma NumChannels_range chans sernum :
  counts_ok chans -> (0 <= Relays_Get_NumChannels sernum chans < 2 ^ 31)%Z.
Proof.
  intros Hc. unfold Relays_Get_NumChannels.
  destruct (negb (is_empty sernum)); [|lia].
  induction Hc as [|s chans Hs Hc IH]; simpl; [lia|].
  destruct (str_eqb (sn s) sernum); [exact Hs|exact IH].
Qed.

Lemma channel_number_digit c :
  ascii_in "1" "8" c = true -> (1 <= channel_number c <= 8)%Z.
Proof.
  destruct c as [[] [] [] [] [] [] [] []]; try discriminate; intros _;
    vm_compute; split; discriminate.
Qed.

Lemma set_arg_exist chans arg l r :
  counts_ok chans ->
  channels_exist chans (module l) ->
  channels_exist chans (module (fst (set_arg chans arg (l, r)))).
Proof.
  intros Hc Hm. unfold set_arg.
  destruct (regex_match arg regex_alias_name) as [m1|].
  { destruct (GetAliasSernum (sub m1 1) r) as [sernum r1]. cbn [set_cur_sn cur_sn].
    match goal with |- context [if ?b then _ else _] => destruct b end;
      cbn [fst module set_bad_sernum]; exact Hm. }
  destruct (regex_match arg regex_sernum_pattern) as [m2|] eqn:E2.
  { destruct (GetAliasSernum (sub m2 1) r) as [sernum r1]. cbn [set_cur_sn cur_sn].
    destruct (sernum_pattern_captures arg m2 E2) as [_ Hp].
    apply is_pattern_length in Hp.
    match goal with |- context [if Is_Sernum_Present ?s ?c then _ else _] =>
      destruct (Is_Sernum_Present s c) end; cbn [fst module set_bad_sernum]; auto.
    rewrite to_size_t_int by (apply NumChannels_range; exact Hc).
    match goal with |- context [if Z.leb ?a ?b then _ else _] =>
      destruct (Z.leb a b) eqn:El end; cbn [fst module set_module set_error]; auto.
    apply Z.leb_le in El.
    apply set_pattern_exist; [lia|rewrite Nat.add_0_l; exact El|].
    apply module_reset_exist. exact Hm. }
  destruct (regex_match arg regex_ch_set) as [m3|] eqn:E3;
    [|cbn [fst module set_error]; exact Hm].
  destruct (ch_set_captures arg m3 E3) as (c & Ec & Hd).
  destruct (negb (is_empty (cur_sn l))); [|cbn [fst module set_error]; exact Hm].
  cbv zeta.
  set (l1 := if negb (map_contains str_ltb (cur_sn l) (module l))
             then set_module (module_reset (cur_sn l) (module l)) l else l).
  assert (H1 : channels_exist chans (module l1)).
  { unfold l1. destruct (negb (map_contains str_ltb (cur_sn l) (module l))); [|exact Hm].
    cbn [module set_module]. apply module_reset_exist. exact Hm. }
  assert (C1 : cur_sn l1 = cur_sn l).
  { unfold l1. destruct (negb (map_contains str_ltb (cur_sn l) (module l))); reflexivity. }
  rewrite Ec. cbn [hd].
  match goal with |- context [if Z.leb ?a ?b then _ else _] =>
    destruct (Z.leb a b) eqn:El end; cbn [fst module set_module set_error]; auto.
  apply Z.leb_le in El. apply module_set_exist; [|exact H1].
  rewrite C1. pose proof (channel_number_digit c Hd). unfold channel_number in *. lia.
Qed.

Lemma for_args_set_exist chans todo : forall l r,
  counts_ok chans ->
  channels_exist chans (module l) ->
  channels_exist chans (module (fst (for_args (set_arg chans) todo (l, r)))).
Proof.
  induction todo as [|arg todo IH]; intros l r Hc Hm; cbn [for_args fst]; [exact Hm|].
  destruct (is_none (error l)); [|exact Hm].
  pose proof (set_arg_exist chans arg l r Hc Hm) as H1.
  destruct (set_arg chans arg (l, r)) as [l1 r1]. apply IH; assumption.
Qed.

(** ** The arguments of [QUERY] *)

Lemma rep_complete p : forall u lo hi rest,
  forallb p u = true ->
  lo <= length u ->
  (forall h, hi = Some h -> length u <= h) ->
  In (u, rest) (rep p lo hi (u ++ rest)).
Proof.
  induction u as [|x u IH]; intros lo hi rest Hu Hlo Hhi.
  - simpl in Hlo. assert (lo = 0) by lia. subst lo.
    destruct rest as [|y rest]; simpl; [auto|].
    destruct (p y && hi_open hi); [apply in_or_app; right|]; simpl; auto.
  - simpl in Hu. apply andb_prop in Hu. destruct Hu as [Px Hu].
    cbn [app rep]. rewrite Px. cbn [andb].
    assert (Ho : hi_open hi = true).
    { destruct hi as [[|h]|]; auto. specialize (Hhi 0 eq_refl). simpl in Hhi. lia. }
    rewrite Ho. apply in_or_app. left. apply in_map_iff.
    exists (u, rest). split; [reflexivity|]. apply IH; [exact Hu|simpl in Hlo; lia|].
    intros h Eh. destruct hi as [h'|]; [|discriminate]. simpl in Eh.
    inversion Eh; subst. specialize (Hhi h' eq_refl). simpl in Hhi. lia.
Qed.

Lemma in_run_Rep_iff ic cs lo hi bol s u c rest :
  In (u, c, rest) (run ic (Rep cs lo hi) bol s) <->
  c = [] /\ s = u ++ rest /\ forallb (cls_match ic cs) u = true
  /\ lo <= length u /\ (forall h, hi = Some h -> length u <= h).
Proof.
  split; [apply in_run_Rep|].
  intros (-> & -> & Hu & Hlo & Hhi). simpl. apply in_map_iff.
  exists (u, rest). split; [reflexivity|]. apply rep_complete; assumption.
Qed.

Lemma in_run_alias_name_iff bol s u c rest :
  In (u, c, rest) (run true T_ALIAS_NAME bol s) <->
  c = [] /\ s = u ++ rest /\ is_alias_name u = true.
Proof.
  split; [apply in_run_alias_name|].
  intros (-> & -> & Hu). destruct u as [|x u]; [discriminate|].
  simpl in Hu. apply andb_prop in Hu. destruct Hu as [Hx Hu].
  unfold T_ALIAS_NAME. apply in_run_Seq.
  exists [x], [], (u ++ rest), u, []. split; [|split; [|auto]].
  - apply in_run_Cls. exists x. auto.
  - apply in_run_Rep_iff. repeat split; auto; [simpl; lia|discriminate].
Qed.

(** Where the last separator of a text is. *)
Lemma last_separator (sep : ascii -> bool) : forall a a' x x' b b',
  a ++ x :: b = a' ++ x' :: b' ->
  sep x = true -> sep x' = true ->
  forallb (fun y => negb (sep y)) b = true ->
  forallb (fun y => negb (sep y)) b' = true ->
  a = a' /\ x = x' /\ b = b'.
Proof.
  induction a as [|y a IH]; intros [|y' a'] x x' b b' E Hx Hx' Hb Hb'; simpl in E.
  - inversion E. auto.
  - inversion E; subst. rewrite forallb_app in Hb. simpl in Hb.
    rewrite Hx' in Hb. simpl in Hb. rewrite andb_false_r in Hb. discriminate.
  - inversion E; subst. rewrite forallb_app in Hb'. simpl in Hb'.
    rewrite Hx in Hb'. simpl in Hb'. rewrite andb_false_r in Hb'. discriminate.
  - inversion E; subst. destruct (IH a' x x' b b') as (-> & -> & ->); auto.
Qed.

Lemma digit_not_separator c :
  cls_match true T_CHANNELS c = true -> negb (cls_match true sep_at_colon c) = true.
Proof. each_char c. Qed.

Lemma is_chlist_parts q :
  is_chlist q = true ->
  1 <= length q <= 8 /\ forallb (cls_match true T_CHANNELS) q = true.
Proof.
  unfold is_chlist. intros Hq. apply andb_prop in Hq. destruct Hq as [Hl Hd].
  apply andb_prop in Hl. destruct Hl as [Hlo Hhi].
  apply Nat.leb_le in Hlo. apply Nat.leb_le in Hhi. auto.
Qed.

Lemma chlist_no_separator q :
  forallb (cls_match true T_CHANNELS) q = true ->
  forallb (fun y => negb (cls_match true sep_at_colon y)) q = true.
Proof.
  rewrite !forallb_forall. intros Hq c Hc. apply digit_not_separator. auto.
Qed.

(** The matches of the pattern of [QUERY] on a whole argument. *)
Lemma in_run_query_chlist s u c :
  In (u, c, []) (run true (pat regex_query_chlist) true s) <->
  exists a sep q,
    s = a ++ sep :: q /\ u = s /\ c = [a; q]
    /\ is_alias_name a = true /\ cls_match true sep_at_colon sep = true
    /\ is_chlist q = true.
Proof.
  simpl pat. split.
  - intros Hi. apply in_run_Seq in Hi.
    destruct Hi as (u1 & c1 & s1 & u2 & c2 & H1 & H2 & -> & ->).
    apply in_run_Bol in H1. destruct H1 as (_ & -> & -> & ->).
    apply in_run_Seq in H2.
    destruct H2 as (u3 & c3 & s3 & u4 & c4 & H3 & H4 & -> & ->).
    apply in_run_Grp in H3. destruct H3 as (c' & H3 & ->).
    apply in_run_alias_name in H3. destruct H3 as (-> & -> & Ha).
    apply in_run_Seq in H4.
    destruct H4 as (u5 & c5 & s5 & u6 & c6 & H5 & H6 & -> & ->).
    apply in_run_Cls in H5. destruct H5 as (x & -> & Mx & -> & ->).
    apply in_run_Seq in H6.
    destruct H6 as (u7 & c7 & s7 & u8 & c8 & H7 & H8 & -> & ->).
    apply in_run_Grp in H7. destruct H7 as (c'' & H7 & ->).
    apply in_run_Rep in H7. destruct H7 as (-> & -> & Hq & Hlo & Hhi).
    apply in_run_Eol in H8. destruct H8 as (-> & -> & -> & _).
    specialize (Hhi 8 eq_refl). rewrite app_nil_r in *.
    exists u3, x, u7. repeat split; auto.
    unfold is_chlist. rewrite Hq.
    apply Nat.leb_le in Hlo. apply Nat.leb_le in Hhi. rewrite Hlo, Hhi. reflexivity.
  - intros (a & sep & q & -> & -> & -> & Ha & Hsep & Hq).
    apply is_chlist_parts in Hq. destruct Hq as [Hl Hq].
    apply in_run_Seq. exists [], [], (a ++ sep :: q), (a ++ sep :: q), [a; q].
    split; [apply in_run_Bol; auto|]. split; [|auto].
    apply in_run_Seq. exists a, [a], (sep :: q), (sep :: q), [q].
    split; [apply in_run_Grp; exists []; split; [|reflexivity];
            apply in_run_alias_name_iff; auto|].
    split; [|auto].
    apply in_run_Seq. exists [sep], [], q, q, [q].
    split; [apply in_run_Cls; exists sep; auto|]. split; [|auto].
    apply in_run_Seq. exists q, [q], [], [], [].
    split; [|split; [apply in_run_Eol; auto|rewrite app_nil_r; auto]].
    apply in_run_Grp. exists []. split; [|reflexivity].
    apply in_run_Rep_iff. rewrite app_nil_r. repeat split; auto; try lia.
    intros h E. inversion E; subst. lia.
Qed.

(** An argument [ALIAS@LIST] or [ALIAS:LIST] is read as the alias before
    its last separator and the list after it. *)
Lemma query_chlist_token a sep q :
  is_alias_name a = true ->
  cls_match true sep_at_colon sep = true ->
  is_chlist q = true ->
  exists m,
    regex_match (a ++ sep :: q) regex_query_chlist = Some m
    /\ sub m 1 = a /\ sub m 2 = q.
Proof.
  intros Ha Hsep Hq.
  destruct (regex_match (a ++ sep :: q) regex_query_chlist) as [m|] eqn:E.
  - exists m. split; [reflexivity|].
    apply regex_match_sound in E. destruct E as [Hi _].
    apply in_run_query_chlist in Hi.
    destruct Hi as (a' & sep' & q' & Es & _ & Ec & _ & Hsep' & Hq').
    apply is_chlist_parts in Hq. apply is_chlist_parts in Hq'.
    destruct (last_separator (cls_match true sep_at_colon) a a' sep sep' q q' Es)
      as (-> & _ & ->); auto; try (apply chlist_no_separator; tauto).
    unfold sub. rewrite Ec. auto.
  - assert (M : matches (a ++ sep :: q) regex_query_chlist = true).
    { apply matches_iff. eexists _, _. apply in_run_query_chlist.
      exists a, sep, q. auto 10. }
    unfold matches in M. rewrite E in M. discriminate.
Qed.

(** ** What a token resolves to *)

Lemma lookup_in key l v : lookup key l = Some v -> In (key, v) l.
Proof.
  unfold lookup. induction l as [|[a s] l IH]; simpl; [discriminate|].
  destruct (str_eqb key a) eqn:E.
  - simpl. intros Ev. inversion Ev; subst. apply str_eqb_eq in E. subst. auto.
  - intros Ev. auto.
Qed.

Lemma GetAliasSernum_shape token r :
  fst (GetAliasSernum token r) = [] \/ is_sernum (fst (GetAliasSernum token r)) = true.
Proof.
  rewrite GetAliasSernum_eq. cbn [fst].
  destruct (lookup (str_toupper token) (persisted r)) as [sernum|] eqn:E.
  - right. apply lookup_in in E. pose proof (entries_valid (stored r)) as Hv.
    rewrite Forall_forall in Hv. specialize (Hv _ E). unfold is_entry in Hv.
    apply andb_prop in Hv. apply Hv.
  - destruct (is_sernum (str_toupper token)) eqn:Es; auto.
Qed.

Lemma szRelaySN_of_sernum sernum :
  is_sernum sernum = true -> str_toupper sernum = sernum ->
  szRelaySN_of sernum = sernum.
Proof.
  intros Hs Hu. unfold szRelaySN_of. rewrite firstn_all2; [exact Hu|].
  rewrite (is_sernum_length sernum Hs). lia.
Qed.

Lemma present_sernum token r chans :
  Is_Sernum_Present (fst (GetAliasSernum token r)) chans = true ->
  is_sernum (fst (GetAliasSernum token r)) = true.
Proof.
  intros Hp. destruct (GetAliasSernum_shape token r) as [E|E]; [|exact E].
  rewrite E in Hp. discriminate.
Qed.

(** ** [Relays_Query] on one module *)

Lemma query_chars status n q : forall w,
  forallb (ascii_in "1" "8") q = true ->
  fold_left (fun w c => Relays_Query_char status n c w) q w
  = mk_world (reg w)
      (cout w ++ flat_map (fun c => if Z.leb (channel_number c) n
                                    then [status_bit status (channel_number c)]
                                    else []) q)
      (cerr w) (calls w).
Proof.
  induction q as [|c q IH]; intros w Hq; simpl.
  - rewrite app_nil_r. destruct w; reflexivity.
  - simpl in Hq. apply andb_prop in Hq. destruct Hq as [Hc Hq].
    rewrite IH by exact Hq. unfold Relays_Query_char. rewrite Hc.
    pose proof (channel_number_digit c Hc) as Hn. unfold channel_number in *.
    assert (H1 : Z.leb 1 (Z.of_nat (nat_of_ascii c) - Z.of_nat (nat_of_ascii "0")) = true)
      by (apply Z.leb_le; lia).
    rewrite H1. cbn [andb]. unfold status_bit.
    destruct (Z.leb (Z.of_nat (nat_of_ascii c) - Z.of_nat (nat_of_ascii "0")) n);
      [|reflexivity].
    destruct (Z.testbit status _); cbn [print reg cout cerr calls];
      rewrite <- app_assoc; reflexivity.
Qed.

Lemma NumChannels_loop sernum chans :
  sernum <> [] ->
  Relays_Get_NumChannels_loop sernum chans = Relays_Get_NumChannels sernum chans.
Proof. intros Hs. destruct sernum; [congruence|reflexivity]. Qed.

Lemma Relays_Query_single d chans sernum chlist w n :
  is_sernum sernum = true ->
  str_toupper sernum = sernum ->
  Relays_Get_NumChannels sernum chans = n ->
  (0 < n)%Z ->
  usb_relay_init d = 0%Z ->
  usb_relay_device_open_with_serial_number d sernum <> 0%Z ->
  forallb (ascii_in "1" "8") (if is_empty chlist then all_channels n else chlist)
  = true ->
  Relays_Query d [mk_query sernum chlist] chans w
  = (NONE,
     mk_world (reg w)
       (cout w
        ++ query_text
             (usb_relay_device_get_status d
                (usb_relay_device_open_with_serial_number d sernum))
             n (if is_empty chlist then all_channels n else chlist))
       (cerr w) (calls w ++ query_calls d sernum)).
Proof.
  intros Hs Hu Hn Hpos Hinit Hh Hq.
  assert (Hne : sernum <> []) by (destruct sernum; [discriminate|discriminate]).
  unfold Relays_Query. rewrite Hinit. cbn [Z.eqb fold_left].
  unfold Relays_Query_one. cbn [q_sn q].
  destruct sernum as [|c0 s0] eqn:Es; [congruence|]. cbn [is_empty negb].
  rewrite <- Es in *. rewrite (szRelaySN_of_sernum sernum Hs Hu).
  rewrite (NumChannels_loop sernum chans Hne), Hn.
  assert (L1 : Z.ltb n 1 = false) by (apply Z.ltb_ge; lia).
  assert (L2 : Z.ltb 0 n = true) by (apply Z.ltb_lt; lia).
  rewrite L1, L2. cbn [andb].
  apply Z.eqb_neq in Hh. rewrite Hh. cbn [negb].
  rewrite query_chars by exact Hq.
  unfold query_text, query_calls, call, print. cbn [reg cout cerr calls].
  rewrite <- !app_assoc. reflexivity.
Qed.

(** ** The [QUERY] command *)

Lemma query_not_help : matches (lit "query") regex_help = false.
Proof. reflexivity. Qed.
Lemma query_not_enumerate : matches (lit "query") regex_enumerate = false.
Proof. reflexivity. Qed.
Lemma query_not_alias : matches (lit "query") regex_alias = false.
Proof. reflexivity. Qed.
Lemma query_not_set : matches (lit "query") regex_set = false.
Proof. reflexivity. Qed.
Lemma query_is_query : matches (lit "query") regex_query = true.
Proof. reflexivity. Qed.

Lemma present_enumerated d sernum :
  Is_Sernum_Present sernum (chans_of d) = true -> usb_relay_device_enumerate d <> [].
Proof.
  intros Hp E. destruct (Is_Sernum_Present_nonempty _ _ Hp) as [_ Hc].
  apply Hc. unfold chans_of. rewrite E. reflexivity.
Qed.

Lemma parse_query d w arg :
  usb_relay_device_enumerate d <> [] ->
  parse_args d [lit "query"; arg] w
  = (let '(l, r) := query_arg (chans_of d) arg (locals0, reg w) in
     (mk_flags false false (is_none (error l)) false, l, chans_of d,
      mk_world r (cout w) (cerr w) (calls w ++ enumeration_calls))).
Proof.
  intros Hd. unfold parse_args.
  rewrite query_not_help, query_not_enumerate, query_not_alias, query_not_set,
    query_is_query.
  rewrite (Relays_Get_Sernums_found d w Hd).
  cbn [length Nat.ltb Nat.leb andb reg for_args fst error locals0 is_none].
  destruct (query_arg (chans_of d) arg (locals0, reg w)) as [l r].
  cbn [fst]. destruct (is_none (error l)); reflexivity.
Qed.

Lemma chlist_digits q :
  is_chlist q = true -> forallb (ascii_in "1" "8") q = true.
Proof.
  intros Hq. apply is_chlist_parts in Hq. destruct Hq as [_ Hq].
  rewrite forallb_forall in *. intros c Hc. rewrite <- channel_digit. auto.
Qed.

(** X14.  [query T@CH] or [query T:CH] for a token [T] resolving to an
    enumerated module of [n] channels that the driver opens, [CH] being one
    to eight digits from 1 to 8.  When [CH] has at most [n] digits the
    program returns 0 and prints, for every digit of [CH] in turn that is
    at most [n], the bit of that channel in the status word, and nothing
    for a digit above [n], then a space; the module is opened, read once
    and closed.  When [CH] has more than [n] digits it returns the code of
    [INVALID_CHANNEL] and makes no call after the enumeration. *)
Theorem query_channel_list (d : driver) (strProgName : str) (w : world)
    (T : str) (sep : ascii) (CH sernum : str) (n : Z) :
  matches T regex_alias_name = true ->
  sep = "@" \/ sep = ":" ->
  is_chlist CH = true ->
  fst (GetAliasSernum T (reg w)) = sernum ->
  str_toupper sernum = sernum ->
  Is_Sernum_Present sernum (chans_of d) = true ->
  Relays_Get_NumChannels sernum (chans_of d) = n ->
  (0 <= n < 2 ^ 31)%Z ->
  usb_relay_init d = 0%Z ->
  usb_relay_device_open_with_serial_number d sernum <> 0%Z ->
  let res := main d strProgName [lit "query"; T ++ sep :: CH] w in
  let status :=
    usb_relay_device_get_status d (usb_relay_device_open_with_serial_number d sernum) in
  (Z.of_nat (length CH) <= n ->
     fst res = 0
     /\ cout (snd res) = cout w ++ query_text status n CH
     /\ cerr (snd res) = cerr w
     /\ calls (snd res) = calls w ++ enumeration_calls ++ query_calls d sernum)%Z
  /\ (n < Z.of_nat (length CH) ->
        fst res = int_of_error INVALID_CHANNEL
        /\ cout (snd res) = cout w
        /\ cerr (snd res) = cerr w ++ lit "Invalid channel specified"
        /\ calls (snd res) = calls w ++ enumeration_calls)%Z.
Proof.
  rewrite matches_alias_name. intros Ha Hsep Hq Hg Hu Hp Hn Hint Hinit Hh res status.
  assert (Hsep' : cls_match true sep_at_colon sep = true)
    by (destruct Hsep as [-> | ->]; reflexivity).
  destruct (query_chlist_token T sep CH Ha Hsep' Hq) as (m & Em & E1 & E2).
  assert (Hs : is_sernum sernum = true).
  { rewrite <- Hg in *. apply (present_sernum T (reg w) (chans_of d)). exact Hp. }
  assert (E : parse_args d [lit "query"; T ++ sep :: CH] w
              = (if Z.leb (Z.of_nat (length CH)) n
                 then (mk_flags false false true false,
                       mk_locals NONE [] [] [] [mk_query sernum CH])
                 else (mk_flags false false false false,
                       mk_locals INVALID_CHANNEL [] [] [] []),
                 chans_of d,
                 mk_world (after_read (reg w)) (cout w) (cerr w)
                          (calls w ++ enumeration_calls))).
  { rewrite (parse_query d w _ (present_enumerated d sernum Hp)).
    unfold query_arg. rewrite Em, E1, E2, GetAliasSernum_eq.
    rewrite GetAliasSernum_eq in Hg. cbn [fst] in Hg. rewrite Hg, Hp, Hn.
    rewrite to_size_t_int by exact Hint.
    destruct (Z.leb (Z.of_nat (length CH)) n); reflexivity. }
  unfold res, main. rewrite E. clear E. split.
  - intros Hle. assert (Hpos : (0 < n)%Z).
    { apply is_chlist_parts in Hq. lia. }
    apply Z.leb_le in Hle. rewrite Hle.
    cbn [error is_none is_help is_enumerate is_set is_query queries].
    rewrite (Relays_Query_single d (chans_of d) sernum CH _ n Hs Hu Hn Hpos Hinit Hh).
    + assert (Hne : is_empty CH = false).
      { apply is_chlist_parts in Hq. destruct CH; [simpl in Hq; lia|reflexivity]. }
      rewrite Hne. cbn. rewrite app_nil_r, <- app_assoc. auto.
    + assert (Hne : is_empty CH = false).
      { apply is_chlist_parts in Hq. destruct CH; [simpl in Hq; lia|reflexivity]. }
      rewrite Hne. apply chlist_digits. exact Hq.
  - intros Hgt. apply Z.leb_gt in Hgt. rewrite Hgt. cbn. auto.
Qed.

Lemma query_channel_list_witness :
  let res := relay ["query"; "6QMBS@1456"]%string fresh in
  fst res = 0%Z /\ cout (snd res) = lit "1100 ".
Proof.
  intros res.
  destruct (query_channel_list bench (lit "Relay.exe") fresh (lit "6QMBS") "@"
              (lit "1456") (lit "6QMBS") 8 eq_refl (or_introl eq_refl) eq_refl
              eq_refl eq_refl eq_refl eq_refl) as (F & _).
  - lia.
  - reflexivity.
  - discriminate.
  - destruct F as (E & O & _); [simpl; lia|]. split; [exact E|exact O].
Defined.

Lemma all_channels_digits n :
  (0 <= n <= 8)%Z -> forallb (ascii_in "1" "8") (all_channels n) = true.
Proof.
  intros Hn. assert (Hc : In n [0; 1; 2; 3; 4; 5; 6; 7; 8]%Z) by (simpl; lia).
  simpl in Hc.
  repeat (destruct Hc as [<-|Hc]; [reflexivity|]). destruct Hc.
Qed.

Lemma query_text_all status n :
  (0 <= n <= 8)%Z ->
  query_text status n (all_channels n)
  = map (fun i => status_bit status (Z.of_nat i)) (seq 1 (Z.to_nat n)) ++ lit " ".
Proof.
  intros Hn. unfold query_text. f_equal. unfold all_channels.
  assert (Hb : forall i, In i (seq 1 (Z.to_nat n)) -> 1 <= i <= 8).
  { intros i Hi. apply in_seq in Hi. lia. }
  assert (Hk : forall i, In i (seq 1 (Z.to_nat n)) -> (Z.of_nat i <= n)%Z).
  { intros i Hi. apply in_seq in Hi. lia. }
  induction (seq 1 (Z.to_nat n)) as [|i l IH]; [reflexivity|].
  cbn [map flat_map].
  assert (Ei : channel_number (ascii_of_nat (nat_of_ascii "0" + i)) = Z.of_nat i).
  { unfold channel_number. change (nat_of_ascii "0") with 48.
    rewrite nat_ascii_embedding by (specialize (Hb i (or_introl eq_refl)); lia). lia. }
  rewrite Ei. pose proof (Hk i (or_introl eq_refl)) as Hi. apply Z.leb_le in Hi.
  rewrite Hi. cbn [app]. f_equal. apply IH.
  - intros j Hj. apply Hb. right. exact Hj.
  - intros j Hj. apply Hk. right. exact Hj.
Qed.

(** X15.  [query T] without channel list, for a token resolving to an
    enumerated module of [n] channels, [n] from 1 to 8, that the driver
    opens: the program returns 0 and prints the status bits of the channels
    1 to [n] in that order, then a space. *)
Theorem query_all_channels (d : driver) (strProgName : str) (w : world)
    (T sernum : str) (n : Z) :
  matches T regex_alias_name = true ->
  matches T regex_query_chlist = false ->
  fst (GetAliasSernum T (reg w)) = sernum ->
  str_toupper sernum = sernum ->
  Is_Sernum_Present sernum (chans_of d) = true ->
  Relays_Get_NumChannels sernum (chans_of d) = n ->
  (1 <= n <= 8)%Z ->
  usb_relay_init d = 0%Z ->
  usb_relay_device_open_with_serial_number d sernum <> 0%Z ->
  let res := main d strProgName [lit "query"; T] w in
  let status :=
    usb_relay_device_get_status d (usb_relay_device_open_with_serial_number d sernum) in
  fst res = 0%Z
  /\ cout (snd res)
     = cout w ++ map (fun i => status_bit status (Z.of_nat i)) (seq 1 (Z.to_nat n))
       ++ lit " "
  /\ cerr (snd res) = cerr w
  /\ calls (snd res) = calls w ++ enumeration_calls ++ query_calls d sernum.
Proof.
  intros Ha Hnl Hg Hu Hp Hn Hint Hinit Hh res status.
  assert (Hs : is_sernum sernum = true).
  { rewrite <- Hg in *. apply (present_sernum T (reg w) (chans_of d)). exact Hp. }
  assert (E : parse_args d [lit "query"; T] w
              = (mk_flags false false true false,
                 mk_locals NONE [] [] [] [mk_query sernum []],
                 chans_of d,
                 mk_world (after_read (reg w)) (cout w) (cerr w)
                          (calls w ++ enumeration_calls))).
  { rewrite (parse_query d w _ (present_enumerated d sernum Hp)).
    unfold query_arg. unfold matches in Hnl, Ha.
    destruct (regex_match T regex_query_chlist); [discriminate|].
    destruct (regex_match T regex_alias_name) as [m|] eqn:Em; [|discriminate].
    apply regex_match_sound in Em. destruct Em as (Hi & _).
    apply in_whole in Hi. destruct Hi as (c' & _ & _ & Eg).
    unfold sub. rewrite Eg. cbn [nth].
    rewrite GetAliasSernum_eq. rewrite GetAliasSernum_eq in Hg. cbn [fst] in Hg.
    rewrite Hg, Hp. reflexivity. }
  unfold res, main. rewrite E. clear E.
  cbn [error is_none is_help is_enumerate is_set is_query queries].
  rewrite (Relays_Query_single d (chans_of d) sernum [] _ n Hs Hu Hn); try assumption;
    try lia.
  - cbn [is_empty]. rewrite query_text_all by lia.
    cbn. rewrite app_nil_r, <- !app_assoc. auto.
  - cbn [is_empty]. apply all_channels_digits. lia.
Qed.

Lemma query_all_channels_witness :
  let res := relay ["query"; "6VXAT"]%string fresh in
  fst res = 0%Z /\ cout (snd res) = lit "0000 ".
Proof.
  intros res.
  destruct (query_all_channels bench (lit "Relay.exe") fresh (lit "6VXAT")
              (lit "6VXAT") 4 eq_refl eq_refl eq_refl eq_refl eq_refl eq_refl)
    as (E & O & _).
  - lia.
  - reflexivity.
  - discriminate.
  - split; [exact E|exact O].
Defined.

(** ** [SET] with [CH=STATE] *)

Lemma in_run_logics bol s u c :
  In (u, c, []) (run true T_LOGICS bol s)
  <-> u = s /\ c = []
      /\ word_in s ["ON"; "1"; "H"; "NO"; "OFF"; "0"; "L"; "NC"]%string = true.
Proof.
  unfold T_LOGICS. rewrite word_in_iff. simpl map.
  rewrite !in_run_Alt, !in_run_word by discriminate. rewrite !app_nil_r. split.
  - intros Hi.
    repeat (destruct Hi as [(-> & -> & _ & E)|Hi];
            [rewrite E; simpl; auto 12|]).
    destruct Hi as (-> & -> & _ & E). rewrite E. simpl. auto 12.
  - intros (-> & -> & Hw). simpl in Hw.
    repeat (destruct Hw as [E|Hw];
            [symmetry in E; pose proof (str_toupper_length _ _ E); auto 12|]).
    destruct Hw.
Qed.

Lemma ch_set_token t m :
  regex_match t regex_ch_set = Some m ->
  exists ch state,
    t = ch :: "=" :: state /\ sub m 1 = [ch] /\ sub m 2 = state
    /\ ascii_in "1" "8" ch = true /\ get_state state <> X.
Proof.
  intros E. apply regex_match_sound in E. destruct E as (Hi & _).
  pose proof (run_sound _ _ _ _ _ _ _ Hi) as Es. rewrite app_nil_r in Es.
  simpl icase in Hi. simpl pat in Hi.
  apply in_run_Seq in Hi.
  destruct Hi as (u1 & c1 & s1 & u2 & c2 & H1 & H2 & Eu & Ec).
  apply in_run_Bol in H1. destruct H1 as (_ & -> & -> & ->).
  apply in_run_Seq in H2.
  destruct H2 as (u3 & c3 & s3 & u4 & c4 & H3 & H4 & -> & ->).
  apply in_run_Grp in H3. destruct H3 as (c' & H3 & ->).
  apply in_run_Cls in H3. destruct H3 as (x & _ & Mx & -> & ->).
  apply in_run_Seq in H4.
  destruct H4 as (u5 & c5 & s5 & u6 & c6 & H5 & H6 & -> & ->).
  apply in_run_Chr in H5. destruct H5 as (y & _ & My & -> & ->).
  apply eq_match in My. subst y.
  apply in_run_Seq in H6.
  destruct H6 as (u7 & c7 & s7 & u8 & c8 & H7 & H8 & -> & ->).
  apply in_run_Grp in H7. destruct H7 as (c'' & H7 & ->).
  apply in_run_Eol in H8. destruct H8 as (-> & -> & -> & _).
  apply in_run_logics in H7. destruct H7 as (-> & -> & Hw).
  exists x, s5. unfold sub. rewrite Ec, Es, Eu. simpl. rewrite app_nil_r.
  repeat split; auto.
  - rewrite <- channel_digit. exact Mx.
  - unfold get_state. rewrite matches_on_vals, matches_off_vals.
    unfold word_in in *. cbn [existsb] in *.
    repeat match goal with
           | |- context [str_eqb ?a ?b] => destruct (str_eqb a b)
           end; simpl in *; discriminate.
Qed.

Lemma Relays_Set_one d chans sernum ch st w :
  sernum <> [] ->
  ascii_in "1" "8" ch = true ->
  usb_relay_init d = 0%Z ->
  usb_relay_device_open_with_serial_number d (szRelaySN_of sernum) <> 0%Z ->
  Relays_Set d [(sernum, [(ch, st)])] chans w
  = (NONE,
     mk_world (reg w) (cout w) (cerr w)
       (calls w
        ++ [call_init;
            call_open_with_serial_number (szRelaySN_of sernum)
              (length (szRelaySN_of sernum))]
        ++ switch_call (usb_relay_device_open_with_serial_number d (szRelaySN_of sernum))
             st (channel_number ch)
        ++ [call_close (usb_relay_device_open_with_serial_number d (szRelaySN_of sernum));
            call_exit])).
Proof.
  intros Hs Hc Hinit Hh. unfold Relays_Set. rewrite Hinit. cbn [Z.eqb fold_left].
  unfold Relays_Set_module. destruct sernum as [|c0 s0]; [congruence|].
  cbn [is_empty]. apply Z.eqb_neq in Hh. rewrite Hh. cbn [negb fold_left].
  unfold Relays_Set_channel.
  assert (H0 : Ascii.eqb ch RELAY_IDX_ALL = false).
  { destruct ch as [[] [] [] [] [] [] [] []]; try discriminate Hc; reflexivity. }
  rewrite H0.
  replace (Z.of_nat (nat_of_ascii ch) - Z.of_nat (nat_of_ascii RELAY_IDX_MIN) + 1)%Z
    with (channel_number ch)
    by (unfold channel_number; change (nat_of_ascii RELAY_IDX_MIN) with 49;
        change (nat_of_ascii "0") with 48; lia).
  destruct st; unfold call, switch_call; cbn [reg cout cerr calls app];
    rewrite <- ?app_assoc; reflexivity.
Qed.

Lemma alias_name_capture T m :
  regex_match T regex_alias_name = Some m -> sub m 1 = T.
Proof.
  intros E. apply regex_match_sound in E. destruct E as (Hi & _).
  apply in_whole in Hi. destruct Hi as (c' & _ & _ & Eg). unfold sub.
  rewrite Eg. reflexivity.
Qed.

(** A serial number or alias alone makes its module the current one. *)
Lemma set_arg_device chans T l r :
  matches T regex_alias_name = true ->
  set_arg chans T (l, r)
  = (let l1 := set_cur_sn (fst (GetAliasSernum T r)) l in
     if Is_Sernum_Present (fst (GetAliasSernum T r)) chans then l1
     else set_bad_sernum (fst (GetAliasSernum T r)) l1,
     after_read r).
Proof.
  unfold matches. intros Ha. unfold set_arg.
  destruct (regex_match T regex_alias_name) as [m|] eqn:E; [|discriminate Ha].
  rewrite (alias_name_capture T m E), GetAliasSernum_eq. cbn [fst set_cur_sn cur_sn].
  match goal with |- context [Is_Sernum_Present ?s chans] =>
    destruct (Is_Sernum_Present s chans) end; reflexivity.
Qed.

(** [CH=STATE] on the current module, when nothing is scheduled yet. *)
Lemma set_arg_state chans ch state sernum r :
  matches (ch :: "=" :: state) regex_ch_set = true ->
  sernum <> [] ->
  set_arg chans (ch :: "=" :: state) (mk_locals NONE [] sernum [] [], r)
  = (if Z.leb (channel_number ch) (Relays_Get_NumChannels sernum chans)
     then mk_locals NONE [] sernum [(sernum, [(ch, get_state state)])] []
     else mk_locals INVALID_CHANNEL [] sernum [(sernum, [])] [],
     r).
Proof.
  intros Ht Hs. pose proof (ch_set_not_device _ Ht) as [N1 N2].
  unfold matches in Ht, N1, N2. unfold set_arg.
  destruct (regex_match (ch :: "=" :: state) regex_alias_name) eqn:E2;
    [discriminate N1|].
  destruct (regex_match (ch :: "=" :: state) regex_sernum_pattern) eqn:E3;
    [discriminate N2|].
  destruct (regex_match (ch :: "=" :: state) regex_ch_set) as [m4|] eqn:E4;
    [|discriminate Ht].
  destruct (ch_set_token _ _ E4) as (ch' & state' & Et & S1 & S2 & Hd & Hx).
  injection Et as <- <-. rewrite S1, S2.
  cbn [cur_sn module error error_sernum queries hd].
  destruct sernum as [|c0 s0] eqn:Esn; [congruence|]. rewrite <- Esn in *.
  assert (Hne : negb (is_empty sernum) = true) by (rewrite Esn; reflexivity).
  rewrite Hne. cbn [map_contains map_get negb set_module module cur_sn].
  fold (channel_number ch).
  destruct (Z.leb (channel_number ch) (Relays_Get_NumChannels sernum chans));
    [|reflexivity].
  unfold module_reset. cbn [map_put]. rewrite module_set_single. reflexivity.
Qed.

Lemma ch_set_state t ch state :
  t = ch :: "=" :: state -> matches t regex_ch_set = true ->
  ascii_in "1" "8" ch = true /\ get_state state <> X.
Proof.
  intros -> Ht. unfold matches in Ht.
  destruct (regex_match (ch :: "=" :: state) regex_ch_set) as [m|] eqn:E;
    [|discriminate Ht].
  destruct (ch_set_token _ _ E) as (ch' & state' & Et & _ & _ & Hd & Hx).
  injection Et as <- <-. auto.
Qed.

(** X11.  [set T ch=state] for a token [T] resolving to an enumerated module
    of [n] channels that the driver opens.  The state of a [ch=state]
    argument is never [X].  When the channel is at most [n] the program
    returns 0 and, after the enumeration, initialises the driver, opens
    the module, makes the one call that opens (for an on word) or closes
    (for an off word) that channel, closes the module and the driver.
    When the channel is above [n] it returns the code of
    [INVALID_CHANNEL], prints [Invalid channel specified] and makes no
    call after the enumeration. *)
Theorem set_channel_state (d : driver) (strProgName : str) (w : world)
    (T : str) (ch : ascii) (state sernum : str) (n : Z) :
  matches T regex_alias_name = true ->
  matches (ch :: "=" :: state) regex_ch_set = true ->
  fst (GetAliasSernum T (reg w)) = sernum ->
  Is_Sernum_Present sernum (chans_of d) = true ->
  Relays_Get_NumChannels sernum (chans_of d) = n ->
  usb_relay_init d = 0%Z ->
  usb_relay_device_open_with_serial_number d (szRelaySN_of sernum) <> 0%Z ->
  let res := main d strProgName [lit "set"; T; ch :: "=" :: state] w in
  let hHandle := usb_relay_device_open_with_serial_number d (szRelaySN_of sernum) in
  get_state state <> X
  /\ (channel_number ch <= n ->
      fst res = 0
      /\ cerr (snd res) = cerr w
      /\ calls (snd res)
         = calls w ++ enumeration_calls
           ++ [call_init;
               call_open_with_serial_number (szRelaySN_of sernum)
                 (length (szRelaySN_of sernum))]
           ++ switch_call hHandle (get_state state) (channel_number ch)
           ++ [call_close hHandle; call_exit])%Z
  /\ (n < channel_number ch ->
      fst res = int_of_error INVALID_CHANNEL
      /\ cerr (snd res) = cerr w ++ lit "Invalid channel specified"
      /\ calls (snd res) = calls w ++ enumeration_calls)%Z.
Proof.
  intros Ha Ht Hg Hp Hn Hinit Hh res hHandle.
  destruct (ch_set_state _ ch state eq_refl Ht) as [Hd Hx].
  destruct (Is_Sernum_Present_nonempty _ _ Hp) as [Hs _].
  split; [exact Hx|].
  assert (E : parse_args d [lit "set"; T; ch :: "=" :: state] w
              = (mk_flags false false false (Z.leb (channel_number ch) n),
                 if Z.leb (channel_number ch) n
                 then mk_locals NONE [] sernum [(sernum, [(ch, get_state state)])] []
                 else mk_locals INVALID_CHANNEL [] sernum [(sernum, [])] [],
                 chans_of d,
                 mk_world (after_read (reg w)) (cout w) (cerr w)
                          (calls w ++ enumeration_calls))).
  { unfold parse_args.
    rewrite set_not_help, set_not_enumerate, set_not_alias, set_is_set.
    rewrite (Relays_Get_Sernums_found d w (present_enumerated d sernum Hp)).
    cbn [length Nat.ltb Nat.leb andb reg for_args fst error locals0 is_none].
    rewrite (set_arg_device (chans_of d) T locals0 (reg w) Ha), Hg, Hp.
    cbn [set_cur_sn locals0 error error_sernum module queries fst is_none].
    rewrite (set_arg_state (chans_of d) ch state sernum _ Ht Hs), Hn.
    destruct (Z.leb (channel_number ch) n); reflexivity. }
  unfold res, main. rewrite E. clear E. split.
  - intros Hle. apply Z.leb_le in Hle. rewrite Hle.
    cbn [error is_none is_help is_enumerate is_set module].
    rewrite (Relays_Set_one d (chans_of d) sernum ch _ _ Hs Hd Hinit Hh).
    cbn. rewrite app_nil_r, <- !app_assoc. auto.
  - intros Hgt. apply Z.leb_gt in Hgt. rewrite Hgt. cbn. auto.
Qed.

Lemma set_channel_state_witness :
  let res := relay ["set"; "5XARZ"; "5=on"]%string fresh in
  fst res = 0%Z
  /\ calls (snd res)
     = enumeration_calls
       ++ [call_init; call_open_with_serial_number (lit "5XARZ") 5;
           call_open_one_relay_channel 2 5; call_close 2; call_exit].
Proof.
  intros res.
  destruct (set_channel_state bench (lit "Relay.exe") fresh (lit "5XARZ") "5"
              (lit "on") (lit "5XARZ") 8 eq_refl eq_refl eq_refl eq_refl eq_refl
              eq_refl) as (_ & F & _).
  - discriminate.
  - destruct F as (E & _ & C); [vm_compute; discriminate|].
    split; [exact E|exact C].
Defined.

(** ** More on the alias list *)

(** X20.  [GetAliasSernum], whatever the registry holds: the result is the
    serial number of the first entry whose alias is the token in upper
    case; without such an entry it is the token in upper case when that is
    a serial number, and empty otherwise.  The result is empty or a serial
    number.  The list of aliases is left as it was and [WriteRegSZ] is not
    called. *)
Theorem resolve_token (token : str) (r : registry) :
  let sernum := fst (GetAliasSernum token r) in
  sernum
  = match lookup (str_toupper token) (persisted r) with
    | Some s => s
    | None => if matches (str_toupper token) regex_sernum then str_toupper token else []
    end
  /\ (sernum = [] \/ matches sernum regex_sernum = true)
  /\ persisted (snd (GetAliasSernum token r)) = persisted r
  /\ writes (reg_log (snd (GetAliasSernum token r))) = writes (reg_log r).
Proof.
  cbv zeta. split; [|split; [|split]].
  - rewrite GetAliasSernum_eq, matches_sernum. reflexivity.
  - rewrite matches_sernum. apply GetAliasSernum_shape.
  - rewrite GetAliasSernum_reg. apply persisted_after_read.
  - rewrite GetAliasSernum_reg. apply writes_after_read.
Qed.

Lemma filter_keeps_cons key v l :
  filter (keeps key) ((key, v) :: l) = filter (keeps key) l.
Proof. cbn [filter]. unfold keeps at 1. simpl. rewrite str_eqb_refl. reflexivity. Qed.

Lemma filter_keeps_twice key l :
  filter (keeps key) (filter (keeps key) l) = filter (keeps key) l.
Proof. apply filter_keeps_id, has_alias_filter. Qed.

Lemma entry_of A S :
  matches A regex_alias_name = true -> matches S regex_sernum = true ->
  is_entry (str_toupper A, str_toupper S) = true.
Proof.
  intros HA HS. apply (well_formed_entry (A, S)). split; assumption.
Qed.

(** X21.  On a writable registry holding a list of entries, provided the
    list with the new entry fits the buffers: assigning an alias and then
    removing it leaves what removing it alone leaves, and leaves the stored
    string as it was when the alias had no entry. *)
Theorem assign_then_remove (A S : str) (l : list (str * str)) (r : registry) :
  matches A regex_alias_name = true ->
  matches S regex_sernum = true ->
  reg_writable r = true ->
  stored r = join_entries l ->
  Forall (fun e => is_entry e = true) l ->
  fits (join_entries ((str_toupper A, str_toupper S)
                        :: filter (keeps (str_toupper A)) l)) ->
  stored (RemoveAlias A (AssignAlias A S r)) = stored (RemoveAlias A r)
  /\ (has_alias (str_toupper A) l = false ->
      stored (RemoveAlias A (AssignAlias A S r)) = stored r).
Proof.
  intros HA HS W St Hl Hf.
  destruct (AssignAlias_wf A S r l W St Hl Hf) as [S1 W1].
  assert (Hl1 : Forall (fun e => is_entry e = true)
                  ((str_toupper A, str_toupper S) :: filter (keeps (str_toupper A)) l)).
  { constructor; [apply entry_of; assumption|apply Forall_filter_entries; exact Hl]. }
  destruct (RemoveAlias_wf A (AssignAlias A S r) _ W1 S1 Hl1) as [S2 _].
  rewrite filter_keeps_cons, filter_keeps_twice in S2.
  destruct (RemoveAlias_wf A r l W St Hl) as [S3 _].
  split; [congruence|].
  intros Hn. rewrite S2, St, filter_keeps_id by exact Hn. reflexivity.
Qed.

Lemma assign_then_remove_witness :
  let r := mk_registry (Some (lit "#2=5XARZ")) true [] in
  stored (RemoveAlias (lit "#1") (AssignAlias (lit "#1") (lit "6qmbs") r))
  = lit "#2=5XARZ".
Proof.
  intros r.
  assert (Hl : Forall (fun e => is_entry e = true) [(lit "#2", lit "5XARZ")])
    by (repeat constructor).
  destruct (assign_then_remove (lit "#1") (lit "6qmbs") [(lit "#2", lit "5XARZ")] r
              eq_refl eq_refl eq_refl eq_refl Hl) as (_ & E).
  - unfold fits. vm_compute. lia.
  - apply E. reflexivity.
Defined.

Lemma lookup_keeps key other l :
  key <> other -> lookup key (filter (keeps other) l) = lookup key l.
Proof.
  intros Hne. unfold lookup. f_equal.
  induction l as [|[a s] l IH]; [reflexivity|]. cbn [filter find fst].
  unfold keeps at 1. cbn [fst]. destruct (str_eqb other a) eqn:Eo; cbn [negb].
  - apply str_eqb_eq in Eo. subst a.
    apply str_eqb_neq in Hne. rewrite Hne. exact IH.
  - cbn [find fst]. destruct (str_eqb key a); [reflexivity|exact IH].
Qed.

Lemma lookup_other key other v l :
  key <> other -> lookup key ((other, v) :: l) = lookup key l.
Proof.
  intros Hne. unfold lookup. cbn [find fst].
  apply str_eqb_neq in Hne. rewrite Hne. reflexivity.
Qed.

(** X22.  On a writable registry holding a list of entries, provided the
    list with the new entry fits the buffers: assigning or removing an
    alias [A] does not change what a token [B] resolves to, when [B] in
    upper case is not [A] in upper case. *)
Theorem other_aliases_unchanged (A S B : str) (l : list (str * str)) (r : registry) :
  matches A regex_alias_name = true ->
  matches S regex_sernum = true ->
  str_toupper B <> str_toupper A ->
  reg_writable r = true ->
  stored r = join_entries l ->
  Forall (fun e => is_entry e = true) l ->
  fits (join_entries ((str_toupper A, str_toupper S)
                        :: filter (keeps (str_toupper A)) l)) ->
  fst (GetAliasSernum B (AssignAlias A S r)) = fst (GetAliasSernum B r)
  /\ fst (GetAliasSernum B (RemoveAlias A r)) = fst (GetAliasSernum B r).
Proof.
  intros HA HS Hne W St Hl Hf.
  destruct (AssignAlias_wf A S r l W St Hl Hf) as [S1 _].
  destruct (RemoveAlias_wf A r l W St Hl) as [S2 _].
  assert (Hk : Forall (fun e => is_entry e = true) (filter (keeps (str_toupper A)) l))
    by (apply Forall_filter_entries; exact Hl).
  assert (P : persisted r = l) by (unfold persisted; rewrite St; apply entries_join, Hl).
  assert (P1 : persisted (AssignAlias A S r)
               = (str_toupper A, str_toupper S) :: filter (keeps (str_toupper A)) l).
  { unfold persisted. rewrite S1. apply entries_join.
    constructor; [apply entry_of; assumption|exact Hk]. }
  assert (P2 : persisted (RemoveAlias A r) = filter (keeps (str_toupper A)) l).
  { unfold persisted. rewrite S2. apply entries_join. exact Hk. }
  rewrite !GetAliasSernum_eq. cbn [fst].
  rewrite P, P1, P2, lookup_other, lookup_keeps by exact Hne. auto.
Qed.

Lemma other_aliases_unchanged_witness :
  let r := mk_registry (Some (lit "#2=5XARZ")) true [] in
  fst (GetAliasSernum (lit "#2") (AssignAlias (lit "#1") (lit "6qmbs") r)) = lit "5XARZ".
Proof.
  intros r.
  assert (Hl : Forall (fun e => is_entry e = true) [(lit "#2", lit "5XARZ")])
    by (repeat constructor).
  destruct (other_aliases_unchanged (lit "#1") (lit "6qmbs") (lit "#2")
              [(lit "#2", lit "5XARZ")] r eq_refl eq_refl) as (E & _).
  - discriminate.
  - reflexivity.
  - reflexivity.
  - exact Hl.
  - unfold fits. vm_compute. lia.
  - exact E.
Defined.

Lemma NoDup_filter_fst (f : str * str -> bool) l :
  NoDup (map fst l) -> NoDup (map fst (filter f l)).
Proof.
  induction l as [|e l IH]; simpl; [auto|]. intros Hd.
  inversion Hd as [|k ks Hk Hd']; subst.
  destruct (f e); simpl; [|auto]. constructor; [|auto].
  intros Hi. apply Hk. apply in_map_iff in Hi. destruct Hi as (x & Ex & Hx).
  apply filter_In in Hx. apply in_map_iff. exists x. tauto.
Qed.

Lemma not_in_keeps key l : ~ In key (map fst (filter (keeps key) l)).
Proof.
  intros Hi. apply in_map_iff in Hi. destruct Hi as ([a s] & Ea & Hx).
  apply filter_In in Hx. destruct Hx as [_ Hk]. simpl in Ea. subst a.
  unfold keeps in Hk. simpl in Hk. rewrite str_eqb_refl in Hk. discriminate.
Qed.

(** X23.  A stored list made of well-formed entries with one entry for an
    alias at most stays so after [RemoveAlias], and after [AssignAlias]
    when the new entry put before the stored string fits the buffers. *)
Theorem alias_list_stays_ok (A S : str) (r : registry) :
  matches A regex_alias_name = true ->
  matches S regex_sernum = true ->
  reg_writable r = true ->
  alias_list_ok r ->
  alias_list_ok (RemoveAlias A r)
  /\ (fits (str_toupper A ++ lit "=" ++ str_toupper S ++ lit "," ++ stored r) ->
      alias_list_ok (AssignAlias A S r)).
Proof.
  intros HA HS W (l & St & Hl & Hd). split.
  - destruct (RemoveAlias_wf A r l W St Hl) as [S2 _].
    exists (filter (keeps (str_toupper A)) l). split; [exact S2|].
    split; [apply Forall_filter_entries; exact Hl|apply NoDup_filter_fst; exact Hd].
  - intros Hf.
    assert (Hf' : fits (join_entries ((str_toupper A, str_toupper S)
                                        :: filter (keeps (str_toupper A)) l))).
    { unfold fits in *. rewrite length_join_cons.
      pose proof (length_join_filter (keeps (str_toupper A)) l) as Hle.
      rewrite St in Hf. rewrite !length_app in Hf. simpl in Hf.
      destruct (filter (keeps (str_toupper A)) l); lia. }
    destruct (AssignAlias_wf A S r l W St Hl Hf') as [S1 _].
    exists ((str_toupper A, str_toupper S) :: filter (keeps (str_toupper A)) l).
    split; [exact S1|]. split.
    + constructor; [apply entry_of; assumption|apply Forall_filter_entries; exact Hl].
    + cbn [map fst]. constructor; [apply not_in_keeps|apply NoDup_filter_fst; exact Hd].
Qed.

Lemma alias_list_stays_ok_witness :
  let r := mk_registry (Some (lit "#1=6QMBS,#2=5XARZ")) true [] in
  alias_list_ok r
  /\ (alias_list_ok (RemoveAlias (lit "#1") r)
      /\ stored (RemoveAlias (lit "#1") r) = lit "#2=5XARZ")
  /\ (alias_list_ok (AssignAlias (lit "#2") (lit "6vxat") r)
      /\ stored (AssignAlias (lit "#2") (lit "6vxat") r) = lit "#2=6VXAT,#1=6QMBS").
Proof.
  intros r.
  assert (Hr : alias_list_ok r).
  { exists [(lit "#1", lit "6QMBS"); (lit "#2", lit "5XARZ")].
    split; [reflexivity|]. split; [repeat constructor|].
    repeat constructor; cbn; intuition discriminate. }
  split; [exact Hr|]. split.
  - destruct (alias_list_stays_ok (lit "#1") (lit "6qmbs") r eq_refl eq_refl eq_refl Hr)
      as (R & _).
    split; [exact R|reflexivity].
  - destruct (alias_list_stays_ok (lit "#2") (lit "6vxat") r eq_refl eq_refl eq_refl Hr)
      as (_ & A).
    split; [apply A; unfold fits; vm_compute; lia|reflexivity].
Defined.

(** ** [strip_path] *)

Lemma filter_full_cons x (l : list (str * str)) :
  filter (fun ur : str * str => is_empty (snd ur))
         (map (fun ur : str * str => (x :: fst ur, snd ur)) l)
  = map (fun ur : str * str => (x :: fst ur, snd ur))
        (filter (fun ur : str * str => is_empty (snd ur)) l).
Proof.
  induction l as [|[u r] l IHl]; [reflexivity|]. cbn [map filter fst snd].
  destruct (is_empty r); cbn [map fst snd]; rewrite IHl; reflexivity.
Qed.

Lemma rep_lazy_full p : forall s lo,
  filter (fun ur : str * str => is_empty (snd ur)) (rep_lazy p lo s)
  = if forallb p s && Nat.leb lo (length s) then [(s, [])] else [].
Proof.
  induction s as [|x s IH]; intros lo.
  - destruct lo; reflexivity.
  - cbn [rep_lazy forallb length]. destruct (p x) eqn:Px; cbn [andb].
    + destruct lo as [|lo]; cbn [Nat.eqb pred app filter snd is_empty Nat.leb];
        rewrite filter_full_cons, IH.
      * cbn [Nat.leb]. rewrite andb_true_r.
        destruct (forallb p s); reflexivity.
      * destruct (forallb p s && Nat.leb lo (length s)); reflexivity.
    + destruct lo; reflexivity.
Qed.

(** The last two parts of the pattern: the group and [$]. *)
Lemma base_run s2 :
  seq_run (grp_run (rep_run (rep_lazy dot 1 s2))) (fun s3 => run false Eol false s3)
  = if negb (is_empty s2) && forallb dot s2 then [(s2, [s2], [])] else [].
Proof.
  assert (G : forall l : list (str * str),
             seq_run (grp_run (rep_run l)) (fun s3 => run false Eol false s3)
             = map (fun ur : str * str => (fst ur, [fst ur], []))
                   (filter (fun ur : str * str => is_empty (snd ur)) l)).
  { induction l as [|[u r] l IHl]; [reflexivity|].
    unfold seq_run, grp_run, rep_run in *. cbn [map flat_map fst snd filter].
    rewrite IHl. destruct r; cbn [run map app is_empty]; [|reflexivity].
    rewrite app_nil_r. reflexivity. }
  rewrite G, rep_lazy_full.
  replace (Nat.leb 1 (length s2)) with (negb (is_empty s2))
    by (destruct s2; reflexivity).
  rewrite andb_comm. destruct (negb (is_empty s2) && forallb dot s2); reflexivity.
Qed.

Lemma separator_run x s :
  run false path_separator false (x :: s)
  = if is_separator x then [([x], [], s)] else [].
Proof.
  unfold path_separator, is_separator. cbn [run].
  unfold chr_match, cls_match, cset_has, item_has. cbn [existsb andb orb].
  rewrite !orb_false_r.
  rewrite (Ascii.eqb_sym "/" x), (Ascii.eqb_sym "\" x).
  destruct (Ascii.eqb x "/") eqn:E1; destruct (Ascii.eqb x "\") eqn:E2;
    try reflexivity.
  apply Ascii.eqb_eq in E1. apply Ascii.eqb_eq in E2. congruence.
Qed.

Lemma after_dir_eq s1 :
  after_dir s1
  = match s1 with
    | x :: s2 =>
        if is_separator x && negb (is_empty s2) && forallb dot s2
        then [([x] ++ s2, [s2], [])] else []
    | [] => []
    end.
Proof.
  unfold after_dir. destruct s1 as [|x s2]; [reflexivity|].
  rewrite separator_run. destruct (is_separator x); [|reflexivity].
  unfold seq_run at 1. cbn [flat_map]. rewrite base_run, app_nil_r.
  cbn [andb]. destruct (negb (is_empty s2) && forallb dot s2); reflexivity.
Qed.

Lemma captures_app l1 l2 : captures (l1 ++ l2) = captures l1 ++ captures l2.
Proof. unfold captures. rewrite filter_app, map_app. reflexivity. Qed.

Lemma captures_map (g : result -> result) l :
  (forall m, snd (g m) = snd m /\ snd (fst (g m)) = snd (fst m)) ->
  captures (map g l) = captures l.
Proof.
  intros Hg. unfold captures. induction l as [|m l IH]; [reflexivity|].
  cbn [map filter]. destruct (Hg m) as [E1 E2].
  change (ends_input (g m)) with (is_empty (snd (g m))).
  change (ends_input m) with (is_empty (snd m)). rewrite E1.
  destruct (is_empty (snd m)); cbn [map]; rewrite IH, ?E2; reflexivity.
Qed.

Lemma captures_seq_one u s1 :
  captures (seq_run [(u, [], s1)] after_dir) = captures (after_dir s1).
Proof.
  cbn [seq_run flat_map]. rewrite app_nil_r. apply captures_map.
  intros [[u2 c2] s2]. auto.
Qed.

Lemma seq_run_cons m l k : seq_run (m :: l) k = seq_run [m] k ++ seq_run l k.
Proof. cbn [seq_run flat_map]. rewrite app_nil_r. reflexivity. Qed.

Lemma seq_run_app l1 l2 k : seq_run (l1 ++ l2) k = seq_run l1 k ++ seq_run l2 k.
Proof. unfold seq_run. apply flat_map_app. Qed.

Lemma captures_dir (l : list (str * str)) x :
  captures (seq_run (rep_run (map (fun ur : str * str => (x :: fst ur, snd ur)) l))
                    after_dir)
  = captures (seq_run (rep_run l) after_dir).
Proof.
  induction l as [|[u r] l IH]; [reflexivity|].
  cbn [map rep_run fst snd] in *.
  rewrite (seq_run_cons (x :: u, [], r)), (seq_run_cons (u, [], r)).
  rewrite !captures_app, !captures_seq_one. f_equal. exact IH.
Qed.

Lemma strip_path_captures f :
  captures (strip_path_run f)
  = match f with
    | [] => []
    | x :: f' =>
        if dot x
        then captures (strip_path_run f') ++ captures (after_dir (x :: f'))
        else []
    end.
Proof.
  change (strip_path_run f) with (seq_run (rep_run (rep dot 0 None f)) after_dir).
  destruct f as [|x f']; [reflexivity|].
  cbn [rep Nat.eqb pred hi_dec option_map hi_open andb].
  destruct (dot x) eqn:Dx; cbn [andb].
  - unfold rep_run at 1. rewrite map_app.
    change (map (fun ur : str * str => (fst ur, [], snd ur))
                (map (fun ur : str * str => (x :: fst ur, snd ur)) (rep dot 0 None f')))
      with (rep_run (map (fun ur : str * str => (x :: fst ur, snd ur))
                         (rep dot 0 None f'))).
    rewrite seq_run_app, captures_app, captures_dir. f_equal.
    cbn [map fst snd]. apply captures_seq_one.
  - cbn [rep_run map fst snd]. rewrite captures_seq_one, after_dir_eq.
    assert (Hs : is_separator x = false).
    { unfold dot in Dx. unfold is_separator.
      destruct x as [[] [] [] [] [] [] [] []]; try discriminate Dx; reflexivity. }
    rewrite Hs. reflexivity.
Qed.

Lemma strip_path_head f :
  hd_error (captures (strip_path_run f)) = option_map (fun b => [b]) (last_part f).
Proof.
  induction f as [|x f IH]; [reflexivity|].
  rewrite strip_path_captures. cbn [last_part].
  destruct (dot x); [|reflexivity].
  destruct (last_part f) as [b|].
  - destruct (captures (strip_path_run f)) as [|c cs]; [discriminate IH|].
    exact IH.
  - destruct (captures (strip_path_run f)) as [|c cs]; [|discriminate IH].
    cbn [app]. rewrite after_dir_eq.
    destruct (is_separator x && negb (is_empty f) && forallb dot f); reflexivity.
Qed.

Lemma strip_path_eq f :
  strip_path f = match last_part f with Some b => b | None => f end.
Proof.
  pose proof (strip_path_head f) as Hh. unfold strip_path, captures in *.
  destruct (filter ends_input (strip_path_run f)) as [|[[u c] rest] tl].
  - destruct (last_part f); [discriminate Hh|reflexivity].
  - destruct (last_part f) as [b|]; [|discriminate Hh].
    cbn in Hh. inversion Hh; subst. reflexivity.
Qed.

(** ** [strip_path] *)

Lemma separator_is_dot x : is_separator x = true -> dot x = true.
Proof. each_char x. Qed.

Lemma last_part_none f :
  forallb (fun c => negb (is_separator c)) f = true -> last_part f = None.
Proof.
  induction f as [|x f IH]; [reflexivity|]. cbn [forallb last_part].
  intros Hf. apply andb_prop in Hf. destruct Hf as [Hx Hf].
  rewrite (IH Hf). apply negb_true_iff in Hx. rewrite Hx.
  destruct (dot x); reflexivity.
Qed.

Lemma last_part_dir dir : forall rest b,
  forallb dot dir = true ->
  last_part rest = Some b -> last_part (dir ++ rest) = Some b.
Proof.
  induction dir as [|y dir IH]; intros rest b Hd Hr; [exact Hr|].
  cbn [forallb] in Hd. apply andb_prop in Hd. destruct Hd as [Hy Hd].
  cbn [app last_part]. rewrite Hy, (IH rest b Hd Hr). reflexivity.
Qed.

(** X5.  For a name without line terminator that has a separator ([/] or
    a backslash) followed by a part that is not empty and holds no
    separator, [strip_path] returns that part. *)
Theorem strip_path_base (dir : str) (sep : ascii) (base : str) :
  is_separator sep = true ->
  base <> [] ->
  forallb (fun c => negb (is_separator c)) base = true ->
  forallb dot (dir ++ sep :: base) = true ->
  strip_path (dir ++ sep :: base) = base.
Proof.
  intros Hs Hb Hn Hd. rewrite strip_path_eq.
  rewrite forallb_app in Hd. apply andb_prop in Hd. destruct Hd as [Hdir Hrest].
  cbn [forallb] in Hrest. apply andb_prop in Hrest. destruct Hrest as [Hsd Hbd].
  rewrite (last_part_dir dir (sep :: base) base Hdir); [reflexivity|].
  cbn [last_part]. rewrite Hsd, (last_part_none base Hn), Hs, Hbd.
  destruct base; [congruence|reflexivity].
Qed.

Lemma strip_path_base_witness :
  strip_path (lit "C:\Tools/Relay.exe") = lit "Relay.exe".
Proof.
  apply (strip_path_base (lit "C:\Tools") "/" (lit "Relay.exe"));
    [reflexivity|discriminate|reflexivity|reflexivity].
Defined.

(** X6.  A name with no separator is returned as it is, the empty name
    and names with line terminators included. *)
Theorem strip_path_plain (filename : str) :
  forallb (fun c => negb (is_separator c)) filename = true ->
  strip_path filename = filename.
Proof.
  intros Hn. rewrite strip_path_eq, (last_part_none filename Hn). reflexivity.
Qed.

Lemma strip_path_plain_witness : strip_path (lit "Relay.exe") = lit "Relay.exe".
Proof. apply (strip_path_plain (lit "Relay.exe")). reflexivity. Defined.

Lemma last_part_last f : forall b, last_part f = Some b -> last_part b = None.
Proof.
  induction f as [|x f IH]; intros b; cbn [last_part]; [discriminate|].
  destruct (dot x); [|discriminate].
  destruct (last_part f) as [b'|] eqn:E.
  - intros Eb. inversion Eb; subst. apply IH. reflexivity.
  - destruct (is_separator x && negb (is_empty f) && forallb dot f); [|discriminate].
    intros Eb. inversion Eb; subst. exact E.
Qed.

(** X8.  [strip_path] applied to its own result changes nothing, for
    every name. *)
Theorem strip_path_idempotent (filename : str) :
  strip_path (strip_path filename) = strip_path filename.
Proof.
  rewrite (strip_path_eq filename).
  destruct (last_part filename) as [b|] eqn:E.
  - rewrite strip_path_eq, (last_part_last filename b E). reflexivity.
  - rewrite strip_path_eq, E. reflexivity.
Qed.

Lemma last_part_trailing base sep :
  forallb (fun c => negb (is_separator c)) base = true ->
  last_part (base ++ [sep]) = None.
Proof.
  induction base as [|x base IH]; cbn [forallb app last_part].
  - intros _. destruct (dot sep); [|reflexivity]. rewrite andb_false_r. reflexivity.
  - intros Hf. apply andb_prop in Hf. destruct Hf as [Hx Hf].
    rewrite (IH Hf). apply negb_true_iff in Hx. rewrite Hx.
    destruct (dot x); reflexivity.
Qed.

(** X7.  A separator that ends the name is not stripped: the part after
    the separator before it is returned together with the final separator,
    since the captured part has to hold one character at least. *)
Theorem strip_path_trailing_separator (dir : str) (sep : ascii) (base : str)
    (sep' : ascii) :
  is_separator sep = true ->
  is_separator sep' = true ->
  forallb (fun c => negb (is_separator c)) base = true ->
  forallb dot (dir ++ sep :: base) = true ->
  strip_path (dir ++ sep :: base ++ [sep']) = base ++ [sep'].
Proof.
  intros Hs Hs' Hn Hd. rewrite strip_path_eq.
  rewrite forallb_app in Hd. apply andb_prop in Hd. destruct Hd as [Hdir Hrest].
  cbn [forallb] in Hrest. apply andb_prop in Hrest. destruct Hrest as [Hsd Hbd].
  rewrite (last_part_dir dir (sep :: base ++ [sep']) (base ++ [sep']) Hdir);
    [reflexivity|].
  cbn [last_part]. rewrite Hsd, (last_part_trailing base sep' Hn), Hs.
  rewrite forallb_app, Hbd. cbn [forallb]. rewrite (separator_is_dot sep' Hs').
  destruct base; reflexivity.
Qed.

Lemma strip_path_trailing_separator_witness :
  strip_path (lit "C:\Tools\Relay\") = lit "Relay\".
Proof.
  apply (strip_path_trailing_separator (lit "C:\Tools") "\" (lit "Relay") "\");
    reflexivity.
Defined.

Example strip_path_documented :
  strip_path (lit "C:\Projects\MyProject\Release\MyProject.exe") = lit "MyProject.exe".
Proof. vm_compute. reflexivity. Qed.

(** ** The registry functions *)

Lemma le_bytes_length n : forall v, length (le_bytes n v) = n.
Proof. induction n as [|n IH]; intros v; simpl; [reflexivity|]. rewrite IH. reflexivity. Qed.

Lemma le_value_bytes n : forall v,
  (0 <= v < 256 ^ Z.of_nat n)%Z -> le_value (le_bytes n v) = v.
Proof.
  induction n as [|n IH]; intros v Hv.
  - simpl in *. lia.
  - cbn [le_bytes le_value]. rewrite IH.
    + pose proof (Z.div_mod v 256). lia.
    + rewrite Nat2Z.inj_succ, Z.pow_succ_r in Hv by lia.
      split; [apply Z.div_pos; lia|]. apply Z.div_lt_upper_bound; lia.
Qed.

Lemma skipn_le_bytes n v : skipn n (le_bytes n v) = [].
Proof. apply skipn_all2. rewrite le_bytes_length. lia. Qed.

(** X24.  [WriteRegSZ] on a writable registry succeeds and stores the
    first 255 characters of the string.  A string shorter than 255
    characters is what the reads then return, with or without a default,
    and they leave the registry as it is.  A string of 255 characters or
    more cannot be read back: the read without default fails, and the read
    with a default returns the default (cut to 255 characters) and stores
    it in place of what was written. *)
Theorem write_then_read_string (strValue strDefault : str) (r : registry) :
  reg_writable r = true ->
  let r1 := snd (WriteRegSZ strValue r) in
  fst (WriteRegSZ strValue r) = true
  /\ reg_value r1 = Some (firstn MAX_SZ_RESULT_LENGTH strValue)
  /\ (length strValue < MAX_SZ_RESULT_LENGTH ->
      ReadRegSZ strDefault r1 = (true, strValue, r1)
      /\ ReadRegSZ_no_default r1 = (true, strValue))
  /\ (MAX_SZ_RESULT_LENGTH <= length strValue ->
      fst (ReadRegSZ strDefault r1) = (true, firstn MAX_SZ_RESULT_LENGTH strDefault)
      /\ reg_value (snd (ReadRegSZ strDefault r1))
         = Some (firstn MAX_SZ_RESULT_LENGTH strDefault)
      /\ ReadRegSZ_no_default r1 = (false, [])).
Proof.
  intros W r1. unfold r1, WriteRegSZ. rewrite W. cbn [fst snd reg_value].
  split; [reflexivity|]. split; [reflexivity|]. split.
  - intros Hl. unfold ReadRegSZ, ReadRegSZ_no_default, RegGetValueW, mbstowcs_s.
    cbn [reg_value]. rewrite (firstn_fits strValue Hl).
    apply Nat.ltb_lt in Hl. rewrite Hl. apply Nat.ltb_lt in Hl.
    unfold wcstombs_s. rewrite (firstn_fits strValue Hl). auto.
  - intros Hl. unfold ReadRegSZ, ReadRegSZ_no_default, RegGetValueW, mbstowcs_s.
    cbn [reg_value reg_writable].
    assert (Hf : length (firstn MAX_SZ_RESULT_LENGTH strValue) = MAX_SZ_RESULT_LENGTH)
      by (rewrite length_firstn; lia).
    rewrite Hf, Nat.ltb_irrefl. cbn [fst snd reg_value].
    unfold wcstombs_s. rewrite firstn_firstn, Nat.min_id. auto.
Qed.

Lemma write_then_read_string_witness :
  let r1 := snd (WriteRegSZ (repeat "A" 300) (mk_registry None true [])) in
  ReadRegSZ_no_default r1 = (false, [])
  /\ fst (ReadRegSZ (lit "none") r1) = (true, lit "none").
Proof.
  intros r1.
  destruct (write_then_read_string (repeat "A" 300) (lit "none")
              (mk_registry None true []) eq_refl) as (_ & _ & _ & Long).
  destruct Long as (R & _ & N); [vm_compute; lia|].
  split; [exact N|exact R].
Defined.

(** X25.  When the value cannot be read and the registry is writable,
    [ReadRegSZ] with a default shorter than 255 characters returns the
    default and stores it; a later read returns the stored default,
    whatever default it is given, and changes nothing. *)
Theorem default_is_stored_once (strDefault strOther : str) (r : registry) :
  reg_writable r = true ->
  RegGetValueW r = None ->
  length strDefault < MAX_SZ_RESULT_LENGTH ->
  let r1 := snd (ReadRegSZ strDefault r) in
  ReadRegSZ strDefault r
  = (true, strDefault,
     mk_registry (Some strDefault) true (reg_log r ++ [DefaultCreated strDefault]))
  /\ ReadRegSZ strOther r1 = (true, strDefault, r1).
Proof.
  intros W E Hl r1. unfold r1, ReadRegSZ. rewrite E, W.
  unfold mbstowcs_s, wcstombs_s. rewrite !(firstn_fits strDefault Hl).
  split; [reflexivity|]. cbn [snd]. unfold RegGetValueW. cbn [reg_value].
  apply Nat.ltb_lt in Hl. rewrite Hl. apply Nat.ltb_lt in Hl.
  rewrite (firstn_fits strDefault Hl). reflexivity.
Qed.

Lemma default_is_stored_once_witness :
  let r := mk_registry None true [] in
  ReadRegSZ (lit "second") (snd (ReadRegSZ (lit "first") r))
  = (true, lit "first", snd (ReadRegSZ (lit "first") r)).
Proof.
  intros r.
  destruct (default_is_stored_once (lit "first") (lit "second") r eq_refl eq_refl)
    as (_ & E).
  - vm_compute. lia.
  - exact E.
Defined.

(** X26.  A 32-bit number written by [WriteRegDWORD] on a writable
    registry is the number [ReadRegDWORD] returns, with or without a
    default and whatever the variable held before; the read with a default
    leaves the registry as it is. *)
Theorem write_then_read_dword (dwValue pdwResult dwDefault : Z) (r : value_slot) :
  slot_writable r = true ->
  (0 <= dwValue < 2 ^ 32)%Z ->
  let r1 := snd (WriteRegDWORD dwValue r) in
  fst (WriteRegDWORD dwValue r) = true
  /\ ReadRegDWORD_no_default pdwResult r1 = Some dwValue
  /\ ReadRegDWORD pdwResult dwDefault r1 = (Some dwValue, r1).
Proof.
  intros W Hv r1. unfold r1, WriteRegDWORD, RegSetValueExW_number. rewrite W.
  cbn [fst snd]. split; [reflexivity|].
  unfold ReadRegDWORD_no_default, ReadRegDWORD, RegGetValueW_number.
  cbn [slot_data data_type data_bytes RRF_RT_DWORD rrf_types rrf_size existsb].
  rewrite !le_bytes_length. cbn [Nat.eqb REG_DWORD REG_BINARY orb andb negb Nat.leb].
  rewrite !skipn_le_bytes, !app_nil_r.
  cbn [option_map].
  rewrite le_value_bytes by (change (256 ^ Z.of_nat 4)%Z with (2 ^ 32)%Z; exact Hv).
  auto.
Qed.

Lemma write_then_read_dword_witness :
  ReadRegDWORD_no_default 0 (snd (WriteRegDWORD 305419896 (mk_slot None true)))
  = Some 305419896%Z.
Proof.
  destruct (write_then_read_dword 305419896 0 0 (mk_slot None true) eq_refl)
    as (_ & E & _); [lia|exact E].
Defined.

(** X27.  A number written by [WriteRegQWORD] cannot be read back.  The
    function stores its eight bytes under the type [REG_DWORD]; the read of
    a [QWORD] does not accept that type and the read of a [DWORD] has no
    room for eight bytes, so both reads without default fail, and
    [ReadRegQWORD] with a default returns the default and stores it in
    place of the number written. *)
Theorem write_then_read_qword (qwValue pqwResult qwDefault : Z) (r : value_slot) :
  slot_writable r = true ->
  (0 <= qwDefault < 2 ^ 64)%Z ->
  let r1 := snd (WriteRegQWORD qwValue r) in
  fst (WriteRegQWORD qwValue r) = true
  /\ ReadRegQWORD_no_default pqwResult r1 = None
  /\ ReadRegDWORD_no_default pqwResult r1 = None
  /\ fst (ReadRegQWORD pqwResult qwDefault r1) = Some qwDefault
  /\ ReadRegQWORD_no_default pqwResult (snd (ReadRegQWORD pqwResult qwDefault r1))
     = Some qwDefault.
Proof.
  intros W Hd r1. unfold r1, WriteRegQWORD, RegSetValueExW_number. rewrite W.
  cbn [fst snd]. split; [reflexivity|].
  unfold ReadRegQWORD_no_default, ReadRegDWORD_no_default, ReadRegQWORD, RegGetValueW_number,
    RegSetValueExW_number.
  cbn [slot_data slot_writable data_type data_bytes RRF_RT_QWORD RRF_RT_DWORD
       rrf_types rrf_size existsb].
  rewrite !le_bytes_length.
  cbn [Nat.eqb REG_DWORD REG_QWORD REG_BINARY orb andb negb Nat.leb option_map
       fst snd slot_data data_type data_bytes existsb].
  rewrite !le_bytes_length. cbn [Nat.eqb Nat.leb orb andb negb].
  rewrite !skipn_le_bytes, !app_nil_r.
  cbn [option_map].
  rewrite le_value_bytes by (change (256 ^ Z.of_nat 8)%Z with (2 ^ 64)%Z; exact Hd).
  auto.
Qed.

Lemma write_then_read_qword_witness :
  let r1 := snd (WriteRegQWORD 5 (mk_slot None true)) in
  ReadRegQWORD_no_default 0 r1 = None
  /\ fst (ReadRegQWORD 0 7 r1) = Some 7%Z.
Proof.
  intros r1.
  destruct (write_then_read_qword 5 0 7 (mk_slot None true) eq_refl)
    as (_ & E & _ & D & _); [lia|]. split; [exact E|exact D].
Defined.

(** X28.  When there is no value and the registry is writable, the read of
    a [DWORD] without default fails; the read with a default returns the
    default and stores it, and a later read returns the stored number
    whatever default it is given, and changes nothing. *)
Theorem default_number_is_stored_once (pdwResult dwDefault dwOther : Z) (r : value_slot) :
  slot_writable r = true ->
  slot_data r = None ->
  (0 <= dwDefault < 2 ^ 32)%Z ->
  let r1 := snd (ReadRegDWORD pdwResult dwDefault r) in
  ReadRegDWORD_no_default pdwResult r = None
  /\ fst (ReadRegDWORD pdwResult dwDefault r) = Some dwDefault
  /\ ReadRegDWORD pdwResult dwOther r1 = (Some dwDefault, r1).
Proof.
  intros W E Hd r1. unfold r1, ReadRegDWORD_no_default, ReadRegDWORD, RegGetValueW_number,
    RegSetValueExW_number.
  rewrite E, W. cbn [option_map fst snd slot_data data_type data_bytes RRF_RT_DWORD
                     rrf_types rrf_size existsb].
  rewrite !le_bytes_length. cbn [Nat.eqb REG_DWORD REG_BINARY orb andb negb Nat.leb].
  rewrite !skipn_le_bytes, !app_nil_r.
  rewrite le_value_bytes by (change (256 ^ Z.of_nat 4)%Z with (2 ^ 32)%Z; exact Hd).
  auto.
Qed.

Lemma default_number_is_stored_once_witness :
  let r1 := snd (ReadRegDWORD 0 10 (mk_slot None true)) in
  ReadRegDWORD 0 20 r1 = (Some 10%Z, r1).
Proof.
  intros r1.
  destruct (default_number_is_stored_once 0 10 20 (mk_slot None true) eq_refl eq_refl)
    as (_ & _ & E); [lia|exact E].
Defined.

(** ** Serial numbers are alias names *)

(** X3.  Every text that matches the pattern of a serial number matches
    the pattern of an alias name, so that in [SET] and [QUERY] a serial
    number goes the way of an alias. *)
Theorem sernum_is_alias_name (s : str) :
  matches s regex_sernum = true -> matches s regex_alias_name = true.
Proof.
  rewrite matches_sernum, matches_alias_name. intros Hs.
  pose proof (is_sernum_length s Hs) as Hl.
  unfold is_sernum in Hs. apply andb_prop in Hs. destruct Hs as [_ Hs].
  destruct s as [|c s]; [discriminate Hl|]. cbn [is_alias_name forallb] in *.
  apply andb_prop in Hs. destruct Hs as [Hc Hs].
  rewrite (sernum_char_is_alias_first c Hc). cbn [andb].
  rewrite forallb_forall in *. intros x Hx.
  apply alias_first_is_alias_char, sernum_char_is_alias_first. auto.
Qed.

Lemma sernum_is_alias_name_witness : matches (lit "6qmbs") regex_alias_name = true.
Proof. apply (sernum_is_alias_name (lit "6qmbs")). reflexivity. Defined.

(** ** An alias name that looks like a query *)

Lemma digit_is_alias_char c :
  cls_match true T_CHANNELS c = true -> alias_char c = true.
Proof. each_char c. Qed.

(** X4.  [@] is a character of alias names, so a [QUERY] argument made of
    an alias name [T], an [@] and one to eight channel digits [CH] is an
    alias name as a whole.  The program reads it as a channel list all the
    same, and in one way only: the module is [T] and the list is [CH].  An
    alias of that whole name is not looked up: when [T] resolves to nothing
    the argument is refused with [BAD_SERNUM] and an empty serial number. *)
Theorem query_splits_at_last_separator (T CH : str) (chans : MODULE_CHANNELS)
    (r : registry) :
  matches T regex_alias_name = true ->
  is_chlist CH = true ->
  let arg := T ++ lit "@" ++ CH in
  matches arg regex_alias_name = true
  /\ (exists m,
        regex_match arg regex_query_chlist = Some m /\ sub m 1 = T /\ sub m 2 = CH)
  /\ (fst (GetAliasSernum T r) = [] ->
      error (fst (query_arg chans arg (locals0, r))) = BAD_SERNUM
      /\ error_sernum (fst (query_arg chans arg (locals0, r))) = []).
Proof.
  rewrite !matches_alias_name. intros Ha Hq arg.
  assert (Hsep : cls_match true sep_at_colon "@" = true) by reflexivity.
  destruct (query_chlist_token T "@" CH Ha Hsep Hq) as (m & Em & E1 & E2).
  split; [|split].
  - unfold arg. rewrite matches_alias_name. destruct T as [|x T]; [discriminate Ha|].
    cbn [is_alias_name app] in *. apply andb_prop in Ha. destruct Ha as [Hx HT].
    rewrite Hx. cbn [andb]. rewrite forallb_app, HT. cbn [andb].
    change (lit "@" ++ CH) with ("@" :: CH). cbn [forallb].
    change (alias_char "@") with true. cbn [andb].
    apply is_chlist_parts in Hq. destruct Hq as [_ Hq].
    apply forallb_forall. intros c Hc. apply digit_is_alias_char.
    rewrite forallb_forall in Hq. auto.
  - exists m. auto.
  - intros Hg. unfold query_arg.
    change (T ++ lit "@" ++ CH) with (T ++ "@" :: CH) in arg. unfold arg.
    rewrite Em, E1. destruct (GetAliasSernum T r) as [sernum r1]. cbn [fst] in Hg.
    subst sernum. cbn [Is_Sernum_Present is_empty negb fst set_bad_sernum error
                       error_sernum]. auto.
Qed.

Lemma query_splits_at_last_separator_witness :
  let r := mk_registry (Some (lit "REL@12=6QMBS")) true [] in
  matches (lit "REL@12") regex_alias_name = true
  /\ fst (GetAliasSernum (lit "REL@12") r) = lit "6QMBS"
  /\ error (fst (query_arg (chans_of bench) (lit "REL@12") (locals0, r))) = BAD_SERNUM.
Proof.
  intros r.
  destruct (query_splits_at_last_separator (lit "REL") (lit "12") (chans_of bench) r
              eq_refl eq_refl) as (M & _ & E).
  split; [exact M|]. split; [reflexivity|]. apply E. reflexivity.
Defined.

(** ** [HELP] and [LIST] *)

Lemma enumerate_not_help cmd :
  matches cmd regex_enumerate = true -> matches cmd regex_help = false.
Proof.
  rewrite matches_enumerate, matches_help. intros He.
  apply not_true_is_false. intros Hh.
  rewrite word_in_iff in He, Hh. simpl map in He, Hh.
  repeat (destruct He as [He|He];
          [rewrite <- He in Hh; simpl in Hh;
           repeat (destruct Hh as [Hh|Hh]; [discriminate Hh|]); destruct Hh|]).
  destruct He.
Qed.

Lemma eprint_nil w : eprint [] w = w.
Proof. destruct w. unfold eprint. cbn. rewrite app_nil_r. reflexivity. Qed.

(** X9.  The help and list commands take no argument: with one, the
    program prints [Syntax error] and returns the code of [SYNTAX] without
    a call of the driver or of the registry.  A help word alone, and no
    argument at all, print the usage text and return 0. *)
Theorem help_and_list_take_no_argument (d : driver) (strProgName : str)
    (cmd : str) (rest : list str) (w : world) :
  matches cmd regex_help = true \/ matches cmd regex_enumerate = true ->
  (rest <> [] ->
   main d strProgName (cmd :: rest) w
   = (int_of_error SYNTAX, eprint (lit "Syntax error") w))
  /\ (matches cmd regex_help = true ->
      main d strProgName [cmd] w = (0%Z, PrintUsage strProgName w))
  /\ main d strProgName [] w = (0%Z, PrintUsage strProgName w).
Proof.
  intros Hc. split; [|split].
  - intros Hr. unfold main, parse_args.
    assert (Hl : Nat.eqb (length (cmd :: rest)) 1 = false)
      by (destruct rest; [congruence|reflexivity]).
    rewrite Hl. destruct (matches cmd regex_help) eqn:Eh; [reflexivity|].
    destruct Hc as [Hc|Hc]; [discriminate Hc|]. rewrite Hc. reflexivity.
  - intros Hh. unfold main, parse_args. rewrite Hh.
    cbn [length Nat.eqb locals0 error is_none is_help error_message int_of_error].
    rewrite eprint_nil. reflexivity.
  - unfold main, parse_args.
    cbn [locals0 error is_none is_help error_message int_of_error].
    rewrite eprint_nil. reflexivity.
Qed.

Lemma help_and_list_take_no_argument_witness :
  relay ["list"; "6QMBS"]%string fresh
  = ((-1)%Z, mk_world (mk_registry None true []) [] (lit "Syntax error") []).
Proof.
  destruct (help_and_list_take_no_argument bench (lit "Relay.exe") (lit "list")
              [lit "6QMBS"] fresh (or_intror eq_refl)) as (E & _).
  apply E. discriminate.
Defined.

Lemma Relays_Enumerate_loop_text devs : forall w,
  Relays_Enumerate_loop devs w
  = mk_world (reg w) (cout w ++ join_with (lit ",") (map device_text devs))
             (cerr w) (calls w).
Proof.
  induction devs as [|[serial_number type] next IH]; intros w.
  - cbn. rewrite app_nil_r. destruct w; reflexivity.
  - cbn [Relays_Enumerate_loop]. rewrite IH.
    destruct next as [|dev next]; unfold print, device_text;
      cbn [is_empty map join_with reg cout cerr calls fst snd];
      rewrite <- ?app_assoc; [rewrite app_nil_r|]; reflexivity.
Qed.

(** X10.  The list command never touches the registry.  When the driver
    does not initialise it returns the code of [NO_DRIVER_INIT] after the
    one call of [usb_relay_init]; with no device it returns the code of
    [NO_DEVICES] after initialising, enumerating and closing the driver;
    otherwise it returns 0 and prints the devices as [SERNUM(n)] joined by
    commas, in the order of the enumeration, with the calls of one
    enumeration. *)
Theorem list_command (d : driver) (strProgName : str) (cmd : str) (w : world) :
  matches cmd regex_enumerate = true ->
  let res := main d strProgName [cmd] w in
  reg (snd res) = reg w
  /\ (usb_relay_init d <> 0%Z ->
      fst res = int_of_error NO_DRIVER_INIT
      /\ cout (snd res) = cout w
      /\ cerr (snd res) = cerr w ++ lit "Driver did not initialize"
      /\ calls (snd res) = calls w ++ [call_init])
  /\ (usb_relay_init d = 0%Z -> usb_relay_device_enumerate d = [] ->
      fst res = int_of_error NO_DEVICES
      /\ cout (snd res) = cout w
      /\ cerr (snd res) = cerr w ++ lit "No devices found"
      /\ calls (snd res) = calls w ++ [call_init; call_enumerate; call_exit])
  /\ (usb_relay_init d = 0%Z -> usb_relay_device_enumerate d <> [] ->
      fst res = 0%Z
      /\ cout (snd res)
         = cout w ++ join_with (lit ",") (map device_text (usb_relay_device_enumerate d))
      /\ cerr (snd res) = cerr w
      /\ calls (snd res) = calls w ++ enumeration_calls).
Proof.
  intros He res. unfold res, main, parse_args.
  rewrite (enumerate_not_help cmd He), He.
  cbn [length Nat.eqb locals0 error is_none is_help is_enumerate error_sernum].
  unfold Relays_Enumerate. split; [|split; [|split]].
  - destruct (Z.eqb (usb_relay_init d) 0); [|reflexivity].
    destruct (usb_relay_device_enumerate d); [reflexivity|].
    rewrite Relays_Enumerate_loop_text. reflexivity.
  - intros Hi. apply Z.eqb_neq in Hi. rewrite Hi. cbn. auto.
  - intros Hi Hd. rewrite Hi, Hd. cbn. rewrite <- !app_assoc. auto.
  - intros Hi Hd. rewrite Hi. cbn [Z.eqb].
    destruct (usb_relay_device_enumerate d) as [|dev devs]; [congruence|].
    rewrite Relays_Enumerate_loop_text. cbn. rewrite app_nil_r, <- !app_assoc. auto.
Qed.

Lemma list_command_witness :
  let res := relay ["enum"]%string fresh in
  fst res = 0%Z /\ cout (snd res) = lit "6QMBS(8),5XARZ(8),6VXAT(4)".
Proof.
  intros res.
  destruct (list_command bench (lit "Relay.exe") (lit "enum") fresh eq_refl)
    as (_ & _ & _ & F).
  destruct F as (E & O & _); [reflexivity|discriminate|].
  split; [exact E|exact O].
Defined.

(** ** What [SET] schedules *)

Lemma parse_args_module d args w :
  module (snd (fst (fst (parse_args d args w)))) = []
  \/ exists rest r,
       module (snd (fst (fst (parse_args d args w))))
       = module (fst (for_args (set_arg (chans_of d)) rest (locals0, r))).
Proof.
  unfold parse_args. destruct args as [|cmd rest]; [auto|].
  destruct (matches cmd regex_help);
    [destruct (Nat.eqb (length (cmd :: rest)) 1); auto|].
  destruct (matches cmd regex_enumerate);
    [destruct (Nat.eqb (length (cmd :: rest)) 1); auto|].
  destruct (usb_relay_device_enumerate d) as [|dev devs] eqn:Hd.
  { rewrite (Relays_Get_Sernums_empty d w Hd). auto. }
  rewrite (Relays_Get_Sernums_found d w) by (rewrite Hd; discriminate).
  destruct (matches cmd regex_alias && Nat.leb 1 (length (cmd :: rest))).
  { destruct (Nat.eqb (length (cmd :: rest)) 1).
    - destruct (ListAlias _). auto.
    - destruct (alias_args _ _) as [e r]. destruct (is_none e); [|auto].
      destruct (ListAlias _). auto. }
  destruct (matches cmd regex_set && Nat.ltb 1 (length (cmd :: rest))).
  { right. eexists rest, _.
    destruct (for_args (set_arg (chans_of d)) rest _) as [l r] eqn:E.
    cbn [fst snd]. rewrite E. reflexivity. }
  destruct (matches cmd regex_query); [|auto].
  left. pose proof (for_args_query_frame (chans_of d) rest locals0
                      (reg (mk_world (reg w) (cout w) (cerr w)
                                     (calls w ++ enumeration_calls)))) as [Hm _].
  destruct (for_args (query_arg (chans_of d)) rest _) as [l r].
  cbn [fst snd] in *. exact Hm.
Qed.

(** X13.  With channel counts that are those of a non-negative [int],
    every channel the parsing of [SET] schedules is a channel from 1 to the
    channel count of its module, whatever the arguments. *)
Theorem set_schedule_exists (d : driver) (args : list str) (w : world) :
  counts_ok (chans_of d) ->
  channels_exist (chans_of d) (module (snd (fst (fst (parse_args d args w))))).
Proof.
  intros Hc. destruct (parse_args_module d args w) as [E|(rest & r & E)]; rewrite E.
  - intros sn inner ch st [].
  - apply for_args_set_exist; [exact Hc|]. intros sn inner ch st [].
Qed.

Lemma set_schedule_exists_witness :
  channels_exist (chans_of bench)
    (module (snd (fst (fst (parse_args bench
                              [lit "set"; lit "6VXAT:01X1"; lit "5XARZ"; lit "8=off"]
                              fresh))))).
Proof.
  apply (set_schedule_exists bench). repeat constructor; simpl; lia.
Defined.

(** ** Several [CH=STATE] arguments *)

Lemma char_ltb_irrefl a : char_ltb a a = false.
Proof. unfold char_ltb. apply Nat.ltb_irrefl. Qed.

Lemma map_get_put_other (K V : Type) (ltb : K -> K -> bool)
    (k : K) (v : V) (k' : K) (m : list (K * V)) :
  (forall a b, ltb a b = false -> ltb b a = false -> a = b) ->
  ltb k' k || ltb k k' = true ->
  map_get ltb k' (map_put ltb k v m) = map_get ltb k' m.
Proof.
  intros Ht Hk. induction m as [|[k0 v0] m IH]; cbn [map_put map_get].
  - rewrite Hk. reflexivity.
  - destruct (ltb k k0) eqn:E1.
    + cbn [map_get]. rewrite Hk. reflexivity.
    + destruct (ltb k0 k) eqn:E2.
      * cbn [map_get]. rewrite IH. reflexivity.
      * rewrite (Ht _ _ E1 E2) in Hk. cbn [map_get]. rewrite Hk. reflexivity.
Qed.

Lemma map_get_put_char ch c v (M : MODULE) :
  map_get char_ltb ch (map_put char_ltb c v M)
  = if Ascii.eqb c ch then Some v else map_get char_ltb ch M.
Proof.
  destruct (Ascii.eqb c ch) eqn:E.
  - apply Ascii.eqb_eq in E. subst c.
    apply map_get_put_same. apply char_ltb_irrefl.
  - apply map_get_put_other; [exact char_ltb_total|].
    destruct (char_ltb ch c) eqn:E1; [reflexivity|].
    destruct (char_ltb c ch) eqn:E2; [reflexivity|].
    rewrite (char_ltb_total _ _ E1 E2), Ascii.eqb_refl in E. discriminate E.
Qed.

(** The [MODULE] that the arguments build. *)
Lemma map_get_states ch toks : forall M : MODULE,
  map_get char_ltb ch
    (fold_left (fun M t => map_put char_ltb (fst t) (get_state (snd t)) M) toks M)
  = fold_left
      (fun acc t => if Ascii.eqb (fst t) ch then Some (get_state (snd t)) else acc)
      toks (map_get char_ltb ch M).
Proof.
  induction toks as [|t toks IH]; intros M; cbn [fold_left]; [reflexivity|].
  rewrite IH, map_get_put_char. reflexivity.
Qed.

Lemma increasing_states toks : forall M : MODULE,
  increasing char_ltb M ->
  increasing char_ltb
    (fold_left (fun M t => map_put char_ltb (fst t) (get_state (snd t)) M) toks M).
Proof.
  induction toks as [|t toks IH]; intros M Hm; cbn [fold_left]; [exact Hm|].
  apply IH. apply map_put_increasing; [exact char_ltb_trans|exact Hm].
Qed.

Lemma keys_states (P : ascii -> Prop) toks : forall M : MODULE,
  Forall (fun t => P (fst t)) toks ->
  Forall (fun e => P (fst e)) M ->
  Forall (fun e => P (fst e))
    (fold_left (fun M t => map_put char_ltb (fst t) (get_state (snd t)) M) toks M).
Proof.
  induction toks as [|t toks IH]; intros M Ht Hm; cbn [fold_left]; [exact Hm|].
  inversion Ht as [|t' toks' H1 H2]; subst. apply IH; [exact H2|].
  rewrite Forall_forall in *. intros [k v] Hi.
  apply in_map_put_total in Hi; [|exact char_ltb_total].
  destruct Hi as [[-> _]|Hi]; [exact H1|apply (Hm _ Hi)].
Qed.

Lemma map_get_above (V : Type) k (M : list (ascii * V)) :
  Forall (fun e => char_ltb k (fst e) = true) M -> map_get char_ltb k M = None.
Proof.
  induction M as [|[k0 v0] M IH]; intros Hm; [reflexivity|].
  inversion Hm as [|e M' H1 H2]; subst. cbn [fst] in H1. cbn [map_get].
  rewrite H1. cbn [orb]. apply IH. exact H2.
Qed.

Lemma flat_map_same (A B : Type) (f g : A -> list B) l :
  (forall a, In a l -> f a = g a) -> flat_map f l = flat_map g l.
Proof.
  induction l as [|a l IH]; intros Hfg; [reflexivity|]. cbn [flat_map].
  rewrite (Hfg a (or_introl eq_refl)), IH; [reflexivity|].
  intros b Hb. apply Hfg. right. exact Hb.
Qed.

(** Visiting an increasing list is visiting its keys in increasing order. *)
Lemma flat_map_increasing (A V : Type) (f : ascii -> V -> list A) (keys : list ascii) :
  forall M : list (ascii * V),
  increasing char_ltb (map (fun k => (k, tt)) keys) ->
  increasing char_ltb M ->
  Forall (fun e => In (fst e) keys) M ->
  flat_map (fun e => f (fst e) (snd e)) M
  = flat_map (fun k => match map_get char_ltb k M with
                       | Some v => f k v
                       | None => []
                       end) keys.
Proof.
  induction keys as [|k keys IH]; intros M Hk Hm Hin.
  - destruct M as [|e M]; [reflexivity|]. inversion Hin as [|e' M' H1 H2]; subst.
    destruct H1.
  - cbn [map increasing fst] in Hk. destruct Hk as [Hlt Hk].
    assert (Hlt' : forall k', In k' keys -> char_ltb k k' = true).
    { intros k' Hi. rewrite Forall_forall in Hlt.
      apply (Hlt (k', tt)). apply in_map_iff. exists k'. auto. }
    cbn [flat_map].
    destruct M as [|[k0 v0] M].
    + cbn [map_get flat_map app]. exact (IH [] Hk I (Forall_nil _)).
    + cbn [increasing fst] in Hm. destruct Hm as [Hall Hm].
      inversion Hin as [|e' M' H1 H2]; subst. cbn [fst] in H1.
      destruct H1 as [<-|H1].
      * cbn [map_get flat_map fst snd]. rewrite char_ltb_irrefl. cbn [orb].
        f_equal.
        assert (Hin' : Forall (fun e => In (fst e) keys) M).
        { rewrite Forall_forall in *. intros e He.
          destruct (H2 e He) as [E|Hi]; [|exact Hi].
          specialize (Hall e He). rewrite E, char_ltb_irrefl in Hall. discriminate Hall. }
        rewrite (IH M Hk Hm Hin'). apply flat_map_same. intros k' Hi.
        rewrite (Hlt' k' Hi), orb_true_r. reflexivity.
      * assert (Hk0 : char_ltb k k0 = true) by (apply Hlt'; exact H1).
        assert (Habove : Forall (fun e => char_ltb k (fst e) = true) ((k0, v0) :: M)).
        { constructor; [exact Hk0|]. rewrite Forall_forall in *. intros e He.
          apply (char_ltb_trans k k0); [exact Hk0|apply (Hall e He)]. }
        rewrite (map_get_above _ _ _ Habove). cbn [app].
        apply (IH ((k0, v0) :: M) Hk).
        { cbn [increasing fst]. auto. }
        { rewrite Forall_forall in *. intros e He.
          destruct (In_dec ascii_dec (fst e) keys) as [Hi|Hn]; [exact Hi|].
          assert (Hi : In (fst e) (k :: keys)).
          { destruct He as [<-|He]; [right; exact H1|apply (H2 e He)]. }
          destruct Hi as [E|Hi]; [|exact Hi].
          specialize (Habove e He). rewrite E, char_ltb_irrefl in Habove.
          discriminate Habove. }
Qed.

Lemma channels_increasing :
  increasing char_ltb (map (fun k => (k, tt)) (lit "12345678")).
Proof. cbn. repeat split; repeat constructor. Qed.

Lemma in_channels c : ascii_in "1" "8" c = true -> In c (lit "12345678").
Proof.
  destruct c as [[] [] [] [] [] [] [] []]; try discriminate; intros _; cbn; auto 10.
Qed.

(** The calls of [Relays_Set] for the channels of a module. *)
Lemma fold_channels hHandle (M : MODULE) : forall w,
  Forall (fun e => ascii_in "1" "8" (fst e) = true) M ->
  fold_left (fun w e => Relays_Set_channel hHandle e w) M w
  = mk_world (reg w) (cout w) (cerr w)
      (calls w
       ++ flat_map (fun e => switch_call hHandle (snd e) (channel_number (fst e))) M).
Proof.
  induction M as [|[ch st] M IH]; intros w Hm.
  - cbn. rewrite app_nil_r. destruct w; reflexivity.
  - inversion Hm as [|e M' Hc Hm']; subst. cbn [fst] in Hc.
    cbn [fold_left flat_map fst snd]. rewrite (IH _ Hm').
    unfold Relays_Set_channel.
    assert (H0 : Ascii.eqb ch RELAY_IDX_ALL = false).
    { destruct ch as [[] [] [] [] [] [] [] []]; try discriminate Hc; reflexivity. }
    rewrite H0.
    replace (Z.of_nat (nat_of_ascii ch) - Z.of_nat (nat_of_ascii RELAY_IDX_MIN) + 1)%Z
      with (channel_number ch)
      by (unfold channel_number; change (nat_of_ascii RELAY_IDX_MIN) with 49;
          change (nat_of_ascii "0") with 48; lia).
    destruct st; unfold call, switch_call; cbn [reg cout cerr calls app];
      rewrite <- ?app_assoc; reflexivity.
Qed.

Lemma Relays_Set_channels d chans sernum (M : MODULE) w :
  sernum <> [] ->
  Forall (fun e => ascii_in "1" "8" (fst e) = true) M ->
  usb_relay_init d = 0%Z ->
  usb_relay_device_open_with_serial_number d (szRelaySN_of sernum) <> 0%Z ->
  Relays_Set d [(sernum, M)] chans w
  = (NONE,
     mk_world (reg w) (cout w) (cerr w)
       (calls w
        ++ [call_init;
            call_open_with_serial_number (szRelaySN_of sernum)
              (length (szRelaySN_of sernum))]
        ++ flat_map
             (fun e =>
                switch_call
                  (usb_relay_device_open_with_serial_number d (szRelaySN_of sernum))
                  (snd e) (channel_number (fst e))) M
        ++ [call_close (usb_relay_device_open_with_serial_number d (szRelaySN_of sernum));
            call_exit])).
Proof.
  intros Hs Hm Hinit Hh. unfold Relays_Set. rewrite Hinit. cbn [Z.eqb fold_left].
  unfold Relays_Set_module. destruct sernum as [|c0 s0]; [congruence|].
  cbn [is_empty]. apply Z.eqb_neq in Hh. rewrite Hh. cbn [negb].
  rewrite (fold_channels _ M _ Hm).
  unfold call. cbn [reg cout cerr calls]. rewrite <- !app_assoc. reflexivity.
Qed.

(** [CH=STATE] on the current module, when it is scheduled already. *)
Lemma set_arg_state_more chans ch state sernum (M : MODULE) r :
  matches (ch :: "=" :: state) regex_ch_set = true ->
  sernum <> [] ->
  set_arg chans (ch :: "=" :: state) (mk_locals NONE [] sernum [(sernum, M)] [], r)
  = (if Z.leb (channel_number ch) (Relays_Get_NumChannels sernum chans)
     then mk_locals NONE [] sernum
            [(sernum, map_put char_ltb ch (get_state state) M)] []
     else mk_locals INVALID_CHANNEL [] sernum [(sernum, M)] [],
     r).
Proof.
  intros Ht Hs. pose proof (ch_set_not_device _ Ht) as [N1 N2].
  unfold matches in Ht, N1, N2. unfold set_arg.
  destruct (regex_match (ch :: "=" :: state) regex_alias_name) eqn:E2;
    [discriminate N1|].
  destruct (regex_match (ch :: "=" :: state) regex_sernum_pattern) eqn:E3;
    [discriminate N2|].
  destruct (regex_match (ch :: "=" :: state) regex_ch_set) as [m4|] eqn:E4;
    [|discriminate Ht].
  destruct (ch_set_token _ _ E4) as (ch' & state' & Et & S1 & S2 & Hd & Hx).
  injection Et as <- <-. rewrite S1, S2.
  cbn [cur_sn module error error_sernum queries hd].
  destruct sernum as [|c0 s0] eqn:Esn; [congruence|]. rewrite <- Esn in *.
  assert (Hne : negb (is_empty sernum) = true) by (rewrite Esn; reflexivity).
  rewrite Hne. unfold map_contains. cbn [map_get]. rewrite str_ltb_irrefl.
  cbn [orb negb set_module module cur_sn].
  fold (channel_number ch).
  destruct (Z.leb (channel_number ch) (Relays_Get_NumChannels sernum chans));
    [|reflexivity].
  rewrite module_set_single. reflexivity.
Qed.

Lemma for_args_states chans sernum r n toks : forall M : MODULE,
  sernum <> [] ->
  Relays_Get_NumChannels sernum chans = n ->
  Forall (fun t => matches (state_token t) regex_ch_set = true
                   /\ (channel_number (fst t) <= n)%Z) toks ->
  for_args (set_arg chans) (map state_token toks)
    (mk_locals NONE [] sernum [(sernum, M)] [], r)
  = (mk_locals NONE [] sernum
       [(sernum,
         fold_left (fun M t => map_put char_ltb (fst t) (get_state (snd t)) M) toks M)]
       [], r).
Proof.
  induction toks as [|[ch state] toks IH]; intros M Hs Hn Ht; [reflexivity|].
  inversion Ht as [|t toks' [H1 H2] H3]; subst.
  change (state_token (ch, state)) with (ch :: "=" :: state) in H1.
  cbn [fst snd] in H2.
  cbn [map for_args fst error is_none fold_left snd].
  change (state_token (ch, state)) with (ch :: "=" :: state).
  rewrite (set_arg_state_more chans ch state sernum M r H1 Hs).
  apply Z.leb_le in H2. rewrite H2. apply IH; auto.
Qed.

(** X12.  [set T ch=state ... ch=state] with one [CH=STATE] argument or
    more after a token [T] resolving to an enumerated module of [n]
    channels that the driver opens, every channel being at most [n]: the
    program returns 0, prints nothing, and between opening and closing the
    module it makes, for the channels from 1 to 8 in that order and
    whatever the order of the arguments, one call for each channel that
    some argument names, the call for the state of the last argument naming
    it, and no call for the other channels.  A later argument for a
    channel so replaces the earlier ones. *)
Theorem set_last_state_wins (d : driver) (strProgName : str) (w : world)
    (T : str) (toks : list (ascii * str)) (sernum : str) (n : Z) :
  matches T regex_alias_name = true ->
  toks <> [] ->
  Forall (fun t => matches (state_token t) regex_ch_set = true
                   /\ (channel_number (fst t) <= n)%Z) toks ->
  fst (GetAliasSernum T (reg w)) = sernum ->
  Is_Sernum_Present sernum (chans_of d) = true ->
  Relays_Get_NumChannels sernum (chans_of d) = n ->
  usb_relay_init d = 0%Z ->
  usb_relay_device_open_with_serial_number d (szRelaySN_of sernum) <> 0%Z ->
  let res := main d strProgName (lit "set" :: T :: map state_token toks) w in
  let hHandle := usb_relay_device_open_with_serial_number d (szRelaySN_of sernum) in
  fst res = 0%Z
  /\ cout (snd res) = cout w
  /\ cerr (snd res) = cerr w
  /\ calls (snd res)
     = calls w ++ enumeration_calls
       ++ [call_init;
           call_open_with_serial_number (szRelaySN_of sernum)
             (length (szRelaySN_of sernum))]
       ++ scheduled_calls hHandle toks
       ++ [call_close hHandle; call_exit].
Proof.
  intros Ha Hne Ht Hg Hp Hn Hinit Hh res hHandle.
  destruct (Is_Sernum_Present_nonempty _ _ Hp) as [Hs _].
  set (M := fold_left
              (fun M t => map_put char_ltb (fst t) (get_state (snd t)) M) toks []).
  assert (E : parse_args d (lit "set" :: T :: map state_token toks) w
              = (mk_flags false false false true,
                 mk_locals NONE [] sernum [(sernum, M)] [],
                 chans_of d,
                 mk_world (after_read (reg w)) (cout w) (cerr w)
                          (calls w ++ enumeration_calls))).
  { unfold parse_args.
    rewrite set_not_help, set_not_enumerate, set_not_alias, set_is_set.
    rewrite (Relays_Get_Sernums_found d w (present_enumerated d sernum Hp)).
    destruct toks as [|[ch state] toks]; [congruence|].
    inversion Ht as [|t toks' [H1 H2] H3]; subst toks' t.
    change (state_token (ch, state)) with (ch :: "=" :: state) in H1.
    cbn [fst snd] in H2.
    cbn [map length Nat.ltb Nat.leb andb reg for_args fst error locals0 is_none].
    rewrite (set_arg_device (chans_of d) T locals0 (reg w) Ha), Hg, Hp.
    cbn [set_cur_sn locals0 error error_sernum module queries fst is_none].
    change (state_token (ch, state)) with (ch :: "=" :: state).
    rewrite (set_arg_state (chans_of d) ch state sernum _ H1 Hs), Hn.
    apply Z.leb_le in H2. rewrite H2.
    cbn [fst error is_none].
    pose proof (for_args_states (chans_of d) sernum (after_read (reg w)) n toks
                  [(ch, get_state state)] Hs Hn H3) as F.
    match goal with
    | |- context [for_args ?f ?l ?st] => replace (for_args f l st) with
          (mk_locals NONE [] sernum [(sernum, M)] [], after_read (reg w))
          by (symmetry; exact F)
    end.
    reflexivity. }
  assert (Hkeys : Forall (fun e => ascii_in "1" "8" (fst e) = true) M).
  { apply (keys_states (fun c => ascii_in "1" "8" c = true)); [|constructor].
    rewrite Forall_forall in *. intros [ch state] Hi.
    destruct (Ht _ Hi) as [H1 _].
    apply (ch_set_state _ ch state eq_refl H1). }
  unfold res, main. rewrite E. clear E.
  cbn [error is_none is_help is_enumerate is_set module].
  rewrite (Relays_Set_channels d (chans_of d) sernum M _ Hs Hkeys Hinit Hh).
  cbn [int_of_error error_message error_sernum eprint fst snd reg cout cerr calls].
  rewrite app_nil_r, <- !app_assoc. repeat split.
  do 4 f_equal. unfold scheduled_calls, last_state.
  etransitivity;
    [apply (flat_map_increasing _ _
              (fun ch st => switch_call hHandle st (channel_number ch))
              (lit "12345678") M channels_increasing)|].
  - apply increasing_states. exact I.
  - rewrite Forall_forall in *. intros e He. apply in_channels. apply (Hkeys e He).
  - apply flat_map_ext. intros ch. unfold M. rewrite map_get_states. reflexivity.
Qed.

Lemma set_last_state_wins_witness :
  let res := relay ["set"; "5XARZ"; "5=on"; "2=on"; "5=off"]%string fresh in
  fst res = 0%Z
  /\ calls (snd res)
     = enumeration_calls
       ++ [call_init; call_open_with_serial_number (lit "5XARZ") 5;
           call_open_one_relay_channel 2 2; call_close_one_relay_channel 2 5;
           call_close 2; call_exit].
Proof.
  intros res.
  destruct (set_last_state_wins bench (lit "Relay.exe") fresh (lit "5XARZ")
              [("5", lit "on"); ("2", lit "on"); ("5", lit "off")] (lit "5XARZ") 8
              eq_refl) as (E & _ & _ & C).
  - discriminate.
  - repeat constructor; vm_compute; discriminate.
  - reflexivity.
  - reflexivity.
  - reflexivity.
  - reflexivity.
  - vm_compute. discriminate.
  - split; [exact E|exact C].
Defined.

(** ** A module that is not attached, or cannot be opened *)

(** X29.  [query T ...] and [set T ...] for a token [T] (an alias name
    that is not a channel list) resolving to a serial number that is not
    enumerated, with a device attached: the program returns the code of
    [BAD_SERNUM], prints [Serial number], the resolved serial number and
    [not found] on [cerr], prints nothing on [cout], does not look at the
    arguments that follow, only reads the registry, and makes no call after
    the enumeration. *)
Theorem unknown_module (d : driver) (strProgName : str) (w : world)
    (T : str) (rest : list str) (sernum : str) :
  matches T regex_alias_name = true ->
  matches T regex_query_chlist = false ->
  usb_relay_device_enumerate d <> [] ->
  fst (GetAliasSernum T (reg w)) = sernum ->
  Is_Sernum_Present sernum (chans_of d) = false ->
  let failed :=
    (int_of_error BAD_SERNUM,
     mk_world (after_read (reg w)) (cout w)
       (cerr w ++ lit "Serial number " ++ sernum ++ lit " not found")
       (calls w ++ enumeration_calls)) in
  main d strProgName (lit "query" :: T :: rest) w = failed
  /\ main d strProgName (lit "set" :: T :: rest) w = failed.
Proof.
  intros Ha Hq Hd Hg Hp failed. split.
  - unfold main, parse_args.
    rewrite query_not_help, query_not_enumerate, query_not_alias, query_not_set,
      query_is_query.
    rewrite (Relays_Get_Sernums_found d w Hd).
    cbn [length Nat.ltb Nat.leb andb reg for_args fst error locals0 is_none].
    unfold query_arg at 2. unfold matches in Hq, Ha.
    destruct (regex_match T regex_query_chlist); [discriminate Hq|].
    destruct (regex_match T regex_alias_name) as [m|] eqn:Em; [|discriminate Ha].
    rewrite (alias_name_capture T m Em), GetAliasSernum_eq.
    rewrite GetAliasSernum_eq in Hg. cbn [fst] in Hg. rewrite Hg, Hp.
    rewrite for_args_stopped by reflexivity. reflexivity.
  - unfold main, parse_args.
    rewrite set_not_help, set_not_enumerate, set_not_alias, set_is_set.
    rewrite (Relays_Get_Sernums_found d w Hd).
    cbn [length Nat.ltb Nat.leb andb reg for_args fst error locals0 is_none].
    rewrite (set_arg_device (chans_of d) T locals0 (reg w) Ha), Hg, Hp.
    rewrite for_args_stopped by reflexivity. reflexivity.
Qed.

Lemma unknown_module_witness :
  relay ["query"; "6vxaz"; "6QMBS"]%string fresh
  = ((-3)%Z,
     mk_world (mk_registry (Some []) true [DefaultCreated []]) []
              (lit "Serial number 6VXAZ not found") enumeration_calls).
Proof.
  destruct (unknown_module bench (lit "Relay.exe") fresh (lit "6vxaz") [lit "6QMBS"]
              (lit "6VXAZ") eq_refl eq_refl) as (E & _);
    [discriminate|reflexivity|reflexivity|].
  exact E.
Defined.

Lemma Relays_Query_unopened d chans sernum chlist w n :
  is_sernum sernum = true ->
  str_toupper sernum = sernum ->
  Relays_Get_NumChannels sernum chans = n ->
  (0 < n)%Z ->
  usb_relay_init d = 0%Z ->
  usb_relay_device_open_with_serial_number d sernum = 0%Z ->
  Relays_Query d [mk_query sernum chlist] chans w
  = (NONE,
     mk_world (reg w) (cout w ++ lit " ") (cerr w)
       (calls w ++ [call_init; call_open_with_serial_number sernum (length sernum);
                    call_exit])).
Proof.
  intros Hs Hu Hn Hpos Hinit Hh.
  assert (Hne : sernum <> []) by (destruct sernum; [discriminate|discriminate]).
  unfold Relays_Query. rewrite Hinit. cbn [Z.eqb fold_left].
  unfold Relays_Query_one. cbn [q_sn q].
  destruct sernum as [|c0 s0] eqn:Es; [congruence|]. cbn [is_empty negb].
  rewrite <- Es in *. rewrite (szRelaySN_of_sernum sernum Hs Hu).
  rewrite (NumChannels_loop sernum chans Hne), Hn.
  assert (L1 : Z.ltb n 1 = false) by (apply Z.ltb_ge; lia).
  assert (L2 : Z.ltb 0 n = true) by (apply Z.ltb_lt; lia).
  rewrite L1, L2, Hh. cbn [andb Z.eqb negb].
  unfold call, print. cbn [reg cout cerr calls]. rewrite <- !app_assoc. reflexivity.
Qed.

Lemma Relays_Set_unopened d chans sernum m w :
  sernum <> [] ->
  usb_relay_init d = 0%Z ->
  usb_relay_device_open_with_serial_number d (szRelaySN_of sernum) = 0%Z ->
  Relays_Set d [(sernum, m)] chans w
  = (NONE,
     mk_world (reg w) (cout w) (cerr w)
       (calls w
        ++ [call_init;
            call_open_with_serial_number (szRelaySN_of sernum)
              (length (szRelaySN_of sernum));
            call_exit])).
Proof.
  intros Hs Hinit Hh. unfold Relays_Set. rewrite Hinit. cbn [Z.eqb fold_left].
  unfold Relays_Set_module. destruct sernum as [|c0 s0]; [congruence|].
  cbn [is_empty]. rewrite Hh. cbn [Z.eqb negb].
  unfold call. cbn [reg cout cerr calls]. rewrite <- !app_assoc. reflexivity.
Qed.

(** X30.  When the driver does not open an enumerated module (the open
    call returns 0), [set T ch=state] and [query T] both return 0 and print
    no message: after the enumeration the driver is initialised, the open
    is tried and the driver closed, no relay is switched, and the query
    prints only the space that ends a module. *)
Theorem unopened_module_is_silent (d : driver) (strProgName : str) (w : world)
    (T : str) (ch : ascii) (state sernum : str) (n : Z) :
  matches T regex_alias_name = true ->
  matches T regex_query_chlist = false ->
  matches (ch :: "=" :: state) regex_ch_set = true ->
  fst (GetAliasSernum T (reg w)) = sernum ->
  str_toupper sernum = sernum ->
  Is_Sernum_Present sernum (chans_of d) = true ->
  Relays_Get_NumChannels sernum (chans_of d) = n ->
  (channel_number ch <= n)%Z ->
  usb_relay_init d = 0%Z ->
  usb_relay_device_open_with_serial_number d sernum = 0%Z ->
  let tried :=
    [call_init; call_open_with_serial_number sernum (length sernum); call_exit] in
  main d strProgName [lit "set"; T; ch :: "=" :: state] w
  = (0%Z,
     mk_world (after_read (reg w)) (cout w) (cerr w)
       (calls w ++ enumeration_calls ++ tried))
  /\ main d strProgName [lit "query"; T] w
     = (0%Z,
        mk_world (after_read (reg w)) (cout w ++ lit " ") (cerr w)
          (calls w ++ enumeration_calls ++ tried)).
Proof.
  intros Ha Hnl Ht Hg Hu Hp Hn Hle Hinit Hh tried.
  assert (Hs : is_sernum sernum = true).
  { rewrite <- Hg in *. apply (present_sernum T (reg w) (chans_of d)). exact Hp. }
  destruct (Is_Sernum_Present_nonempty _ _ Hp) as [Hne _].
  pose proof (present_enumerated d sernum Hp) as Hd.
  assert (Hpos : (0 < n)%Z).
  { destruct (ch_set_state _ ch state eq_refl Ht) as [Hdg _].
    pose proof (channel_number_digit ch Hdg). lia. }
  split.
  - unfold main, parse_args.
    rewrite set_not_help, set_not_enumerate, set_not_alias, set_is_set.
    rewrite (Relays_Get_Sernums_found d w Hd).
    cbn [length Nat.ltb Nat.leb andb reg for_args fst error locals0 is_none].
    rewrite (set_arg_device (chans_of d) T locals0 (reg w) Ha), Hg, Hp.
    cbn [set_cur_sn locals0 error error_sernum module queries fst is_none].
    rewrite (set_arg_state (chans_of d) ch state sernum _ Ht Hne), Hn.
    apply Z.leb_le in Hle. rewrite Hle.
    cbn [error is_none is_help is_enumerate is_set module set_reg reg cout cerr calls].
    rewrite Relays_Set_unopened;
      [|exact Hne|exact Hinit|rewrite (szRelaySN_of_sernum sernum Hs Hu); exact Hh].
    rewrite (szRelaySN_of_sernum sernum Hs Hu).
    unfold eprint. cbn. rewrite app_nil_r, <- !app_assoc. reflexivity.
  - unfold main. rewrite (parse_query d w T Hd).
    unfold query_arg. unfold matches in Hnl, Ha.
    destruct (regex_match T regex_query_chlist); [discriminate Hnl|].
    destruct (regex_match T regex_alias_name) as [m|] eqn:Em; [|discriminate Ha].
    rewrite (alias_name_capture T m Em), GetAliasSernum_eq.
    rewrite GetAliasSernum_eq in Hg. cbn [fst] in Hg. rewrite Hg, Hp.
    cbn [push_query locals0 error error_sernum cur_sn module queries app is_none
         is_help is_enumerate is_set is_query].
    rewrite (Relays_Query_unopened d (chans_of d) sernum [] _ n Hs Hu Hn Hpos Hinit Hh).
    unfold eprint. cbn. rewrite app_nil_r, <- !app_assoc. reflexivity.
Qed.

Lemma unopened_module_is_silent_witness :
  let d := mk_driver 0 [(lit "6QMBS", 8%Z)] (fun _ => 0%Z) (fun _ => 0%Z) in
  fst (main d (lit "Relay.exe") [lit "set"; lit "6QMBS"; lit "1=ON"] fresh) = 0%Z
  /\ cout (snd (main d (lit "Relay.exe") [lit "query"; lit "6QMBS"] fresh)) = lit " ".
Proof.
  intros d.
  destruct (unopened_module_is_silent d (lit "Relay.exe") fresh (lit "6QMBS") "1"
              (lit "ON") (lit "6QMBS") 8 eq_refl eq_refl eq_refl eq_refl eq_refl
              eq_refl eq_refl) as (S & Q).
  - vm_compute. discriminate.
  - reflexivity.
  - reflexivity.
  - split; [exact (f_equal fst S)|exact (f_equal (fun p => cout (snd p)) Q)].
Defined.
